(** * Streaming service: job queue, transcode pipeline and worker loop

    A shallow embedding of
      - [internal/queue/redis.go]            (RedisQueue: Enqueue, Dequeue, Ack, Nack, Len),
      - [internal/service/transcode/service.go] (ProcessMedia, uploadProcessedFiles,
        markFailed, processLoop),
      - [internal/repository/dynamodb/client.go] (UpdateMediaStatus, AddRendition, GetMedia),
      - the strategy executor and the FFMPEG processor that feed the pipeline,
    followed by the properties of the specification that concern them.

    Go code is stateful and talks to Redis, DynamoDB, S3, the file system and
    the wall clock.  Every such interaction is a step of a state monad over a
    [World]; what the outside answers at each step (does the call fail, what
    time is it, is the context cancelled) is read from an [Env]. *)

From Stdlib Require Import ZArith List String Ascii Bool Lia Arith DecimalString.
Import ListNotations.
Local Open Scope string_scope.
Local Open Scope Z_scope.

(* ------------------------------------------------------------------ *)
(** * Go values *)

Module Go.

(** Go's [int] on the 64-bit targets the service is built for: arithmetic
    wraps around modulo 2^64 into the signed range. *)
Definition wrap64 (z : Z) : Z := (z + 2 ^ 63) mod 2 ^ 64 - 2 ^ 63.

(** [float64(x)] for an integer [x]: the nearest double, ties to even.
    A double carries 53 significant bits, so integers of magnitude up to
    2^53 are kept and larger ones lose their low bits. *)
Definition float64 (z : Z) : Z :=
  let a := Z.abs z in
  let e := Z.log2 a - 52 in
  if e <=? 0 then z
  else
    let q := Z.shiftr a e in
    let r := a - Z.shiftl q e in
    let half := Z.shiftl 1 (e - 1) in
    let q' := if r <? half then q
              else if half <? r then q + 1
              else if Z.even q then q else q + 1 in
    Z.sgn z * Z.shiftl q' e.

(** Subtraction of two integer-valued doubles: the exact difference is an
    integer, and IEEE 754 returns it correctly rounded. *)
Definition fsub (a b : Z) : Z := float64 (a - b).

(** [time.Time] as nanoseconds since the Unix epoch; [time.Duration] is a
    count of nanoseconds. *)
Definition Time := Z.
Definition Duration := Z.
Definition Nanosecond : Duration := 1.
Definition Second : Duration := 1000000000.

(** [t.Unix()]: whole seconds since the epoch (rounded down). *)
Definition Unix (t : Time) : Z := t / 1000000000.

(** [json.Marshal] of a [time.Time] fails outside the years 0..9999. *)
Definition year_in_range (t : Time) : bool :=
  (-62167219200 <=? Unix t) && (Unix t <? 253402300800).

End Go.

(* ------------------------------------------------------------------ *)
(** * The queue's data *)

(** [queue.Job].  [Payload] is a [map[string]string]; it is kept as the list
    of its entries in key order, which is the order [json.Marshal] writes. *)
Record Job := mkJob {
  ID : string;
  Type_ : string;
  MediaID : string;
  Priority : Z;
  Payload : list (string * string);
  CreatedAt : Go.Time;
  Attempts : Z
}.

Definition JobTypeTranscode := "transcode".
Definition JobTypeAudio := "audio".
Definition JobTypeThumbnail := "thumbnail".

Definition set_CreatedAt (j : Job) (t : Go.Time) : Job :=
  mkJob (ID j) (Type_ j) (MediaID j) (Priority j) (Payload j) t (Attempts j).

Definition set_Attempts (j : Job) (n : Z) : Job :=
  mkJob (ID j) (Type_ j) (MediaID j) (Priority j) (Payload j) (CreatedAt j) n.

(** A member of a Redis set or sorted set is a byte string.  The bytes
    [json.Marshal] writes for a job are represented by the field values they
    encode ([Encoded]): two jobs marshal to the same bytes exactly when all
    their fields agree, and [json.Unmarshal] of those bytes gives the fields
    back.  [Opaque] is any other member, one that does not decode as a job. *)
Inductive Member :=
| Encoded (j : Job)
| Opaque (bytes : string).

Definition Marshal (j : Job) : option Member :=
  if Go.year_in_range (CreatedAt j) then Some (Encoded j) else None.

Definition Unmarshal (m : Member) : option Job :=
  match m with
  | Encoded j => Some j
  | Opaque _ => None
  end.

Definition Job_eq_dec (a b : Job) : {a = b} + {a <> b}.
Proof.
  decide equality; try apply Z.eq_dec; try apply string_dec.
  apply list_eq_dec. decide equality; apply string_dec.
Defined.

Definition Member_eq_dec (a b : Member) : {a = b} + {a <> b}.
Proof.
  decide equality; [apply Job_eq_dec | apply string_dec].
Defined.

Definition Member_eqb (a b : Member) : bool :=
  if Member_eq_dec a b then true else false.

(* ------------------------------------------------------------------ *)
(** * The metadata record and the processor's output *)

Inductive MediaStatus :=
| MediaStatusPending
| MediaStatusProcessing
| MediaStatusCompleted
| MediaStatusFailed.

Definition MediaStatus_eqb (a b : MediaStatus) : bool :=
  match a, b with
  | MediaStatusPending, MediaStatusPending
  | MediaStatusProcessing, MediaStatusProcessing
  | MediaStatusCompleted, MediaStatusCompleted
  | MediaStatusFailed, MediaStatusFailed => true
  | _, _ => false
  end.

(** [domain.Rendition] *)
Record Rendition := mkRendition {
  RName : string;
  RWidth : Z;
  RHeight : Z;
  RBitrate : Z;
  RCodec : string;
  PlaylistKey : string;
  SegmentPrefix : string
}.

(** The fields of [domain.Media] the pipeline reads or writes.  A zero
    [time.Time] is [None]. *)
Record Media := mkMedia {
  MID : string;
  Status : MediaStatus;
  SourceKey : string;
  SourceBucket : string;
  SourceFormat : string;
  Renditions : list Rendition;
  UpdatedAt : option Go.Time;
  ProcessedAt : option Go.Time
}.

(** [m.IsProcessed()] *)
Definition IsProcessed (m : Media) : bool :=
  MediaStatus_eqb (Status m) MediaStatusCompleted && (0 <? Z.of_nat (List.length (Renditions m))).

(** [m.GetMasterPlaylistKey()] *)
Definition GetMasterPlaylistKey (m : Media) : string := MID m ++ "/master.m3u8".

(** [processor.ProfileConfig] *)
Record ProfileConfig := mkProfile {
  PName : string;
  PWidth : Z;
  PHeight : Z;
  VideoBitrate : string;
  AudioBitrate : string;
  PCodec : string
}.

(** [processor.RenditionOutput] *)
Record RenditionOutput := mkRenditionOutput {
  OName : string;
  OWidth : Z;
  OHeight : Z;
  OBitrate : Z;
  OCodec : string;
  PlaylistPath : string;
  SegmentPaths : list string
}.

(** [processor.ProcessInput] and [processor.ProcessOutput] *)
Record ProcessInput := mkProcessInput {
  InMediaID : string;
  SourcePath : string;
  OutputDir : string;
  Profiles : list ProfileConfig
}.

Record ProcessOutput := mkProcessOutput {
  OutMediaID : string;
  OutRenditions : list RenditionOutput;
  MasterPath : string
}.

(* ------------------------------------------------------------------ *)
(** * Paths and formatting *)

(** [fmt.Sprintf("%d", n)] *)
Definition itoa (n : Z) : string := NilZero.string_of_int (Z.to_int n).

(** [filepath.Join(a, b)] for the clean, non-empty elements the service
    joins. *)
Definition Join (a b : string) : string := a ++ "/" ++ b.

Definition is_slash (c : ascii) : bool := Ascii.eqb c "/"%char.

(** The part of a path before its last slash, when it has one. *)
Fixpoint before_last_slash (s : string) : option string :=
  match s with
  | EmptyString => None
  | String c s' =>
      match before_last_slash s' with
      | Some d => Some (String c d)
      | None => if is_slash c then Some EmptyString else None
      end
  end.

(** [filepath.Dir(path)] *)
Definition Dir (path : string) : string :=
  match before_last_slash path with
  | None => "."
  | Some EmptyString => "/"
  | Some d => d
  end.

(** The part of a path after its last slash. *)
Fixpoint after_last_slash (s : string) : string :=
  match s with
  | EmptyString => EmptyString
  | String c s' =>
      match before_last_slash s' with
      | Some _ => after_last_slash s'
      | None => if is_slash c then s' else String c s'
      end
  end.

(** [filepath.Base(path)] of a path that does not end in a slash *)
Definition Base (path : string) : string :=
  match after_last_slash path with
  | EmptyString => "."
  | b => b
  end.

(* ------------------------------------------------------------------ *)
(** * The outside world *)

(** The calls that leave the process.  Each one can fail. *)
Inductive Call :=
| CBZPopMin (key : string) (timeout : Go.Duration)
| CZAdd (key : string) (m : Member)
| CSAdd (key : string) (m : Member)
| CSRem (key : string) (m : Member)
| CZCard (key : string)
| CGetItem (id : string)
| CUpdateStatus (id : string) (st : MediaStatus)
| CAddRendition (id : string) (name : string)
| CGetObject (bucket key : string)
| CPutObject (bucket key : string)
| CMkdirAll (path : string)
| CCreate (path : string)
| CCopy (path : string)
| COpen (path : string)
| CGlob (pattern : string)
| CWriteFile (path : string) (content : string)
| CRemove (path : string)
| CRemoveAll (path : string)
| CProbe (path : string)
| CFFmpeg (args : list string).

(** Go's [error] values; [nil] is [None] of [option error].  [Failure c] is
    the error a failed call reports; [Errorf msg] is [fmt.Errorf] of a message
    alone and [Errorw msg cause] is [fmt.Errorf] wrapping a cause with [%w]. *)
Inductive error :=
| ErrNoJobAvailable
| ErrMediaNotFound
| RedisNil
| ContextCanceled
| MarshalError
| UnmarshalError
| Failure (c : Call)
| Errorf (msg : string)
| Errorw (msg : string) (cause : error).

(** [errors.Is(err, redis.Nil)] *)
Fixpoint is_redis_nil (e : error) : bool :=
  match e with
  | RedisNil => true
  | Errorw _ cause => is_redis_nil cause
  | _ => false
  end.

(** What the outside answers.  Steps are numbered in the order the program
    takes them. *)
Record Env := mkEnv {
  clock : nat -> Go.Time;              (* time.Now() at a step *)
  fails : nat -> Call -> bool;         (* does the call made at a step fail *)
  tie : Member -> Member -> bool;      (* the store's order among members of equal score *)
  glob_files : nat -> string -> list string;  (* files matching a pattern *)
  cancelled : nat -> bool              (* is ctx.Done() closed at a step *)
}.

(** The three Redis keys of the queue, the metadata table and the
    destination bucket.
      - [pending]    sorted set ["streaming:jobs:pending"], members with scores;
      - [processing] set ["streaming:jobs:processing"];
      - [dead]       set ["streaming:jobs:dead"];
      - [table]      the DynamoDB items, by id;
      - [objects]    the (bucket, key) pairs put to S3, oldest first. *)
Record World := mkWorld {
  steps : nat;
  pending : list (Member * Z);
  processing : list Member;
  dead : list Member;
  table : list (string * Media);
  objects : list (string * string)
}.

Definition defaultQueueKey := "streaming:jobs:pending".
Definition defaultProcessingKey := "streaming:jobs:processing".
Definition deadLetterKey := "streaming:jobs:dead".

Definition with_steps (n : nat) (w : World) : World :=
  mkWorld n (pending w) (processing w) (dead w) (table w) (objects w).
Definition with_pending (p : list (Member * Z)) (w : World) : World :=
  mkWorld (steps w) p (processing w) (dead w) (table w) (objects w).
Definition with_processing (p : list Member) (w : World) : World :=
  mkWorld (steps w) (pending w) p (dead w) (table w) (objects w).
Definition with_dead (d : list Member) (w : World) : World :=
  mkWorld (steps w) (pending w) (processing w) d (table w) (objects w).
Definition with_table (t : list (string * Media)) (w : World) : World :=
  mkWorld (steps w) (pending w) (processing w) (dead w) t (objects w).
Definition with_objects (o : list (string * string)) (w : World) : World :=
  mkWorld (steps w) (pending w) (processing w) (dead w) (table w) o.

(** ** The state monad *)

Definition State (S A : Type) : Type := S -> A * S.

Definition ret {S A} (a : A) : State S A := fun s => (a, s).

Definition bind {S A B} (m : State S A) (k : A -> State S B) : State S B :=
  fun s => let (a, s') := m s in k a s'.

Notation "x <- m ;; k" := (bind m (fun x => k))
  (at level 61, m at next level, right associativity).
Notation "m ;;; k" := (bind m (fun _ => k))
  (at level 61, right associativity).

(** [M]: code that reads and writes the stores.  [Ext]: code that only makes
    calls whose effect stays outside the stores (files, external programs),
    so all it carries is the step number. *)
Definition M (A : Type) : Type := State World A.
Definition Ext (A : Type) : Type := State nat A.

Definition get : M World := fun w => (w, w).
Definition modify (f : World -> World) : M unit := fun w => (tt, f w).

Definition lift {A} (e : Ext A) : M A :=
  fun w => let (a, n) := e (steps w) in (a, with_steps n w).

(** Take the next step number. *)
Definition tick : Ext nat := fun n => (n, S n).

(* ------------------------------------------------------------------ *)
(** * Redis commands *)

Module Redis.

(** Sets: members are unique. *)
Definition smember (m : Member) (s : list Member) : bool :=
  existsb (Member_eqb m) s.

Definition sadd (m : Member) (s : list Member) : list Member :=
  if smember m s then s else s ++ [m].

Definition srem (m : Member) (s : list Member) : list Member :=
  filter (fun x => negb (Member_eqb m x)) s.

(** Sorted sets: members are unique, each has a score.  [ZADD] of a member
    already present replaces its score. *)
Definition zrem (m : Member) (z : list (Member * Z)) : list (Member * Z) :=
  filter (fun x => negb (Member_eqb m (fst x))) z.

Definition zadd (m : Member) (score : Z) (z : list (Member * Z)) : list (Member * Z) :=
  zrem m z ++ [(m, score)].

Definition zmember (m : Member) (z : list (Member * Z)) : bool :=
  existsb (fun x => Member_eqb m (fst x)) z.

Section Order.

Variable tie_le : Member -> Member -> bool.

(** [x] is popped before [y]: lower score, the store's own order among
    equal scores (Redis compares the members' bytes). *)
Definition before (x y : Member * Z) : bool :=
  (snd x <? snd y) || ((snd x =? snd y) && tie_le (fst x) (fst y)).

Fixpoint zmin (best : Member * Z) (z : list (Member * Z)) : Member * Z :=
  match z with
  | [] => best
  | x :: z' => zmin (if before x best then x else best) z'
  end.

(** [ZPOPMIN]: the first member in the order and what is left. *)
Definition zpopmin (z : list (Member * Z)) : option ((Member * Z) * list (Member * Z)) :=
  match z with
  | [] => None
  | x :: z' => let m := zmin x z' in Some (m, zrem (fst m) z)
  end.

End Order.

End Redis.

Section Program.

Variable env : Env.

(** Make a call: take a step and learn whether it fails. *)
Definition ecall (c : Call) : Ext bool :=
  n <- tick ;; ret (fails env n c).

Definition call (c : Call) : M bool := lift (ecall c).

(** [time.Now()] *)
Definition Now : M Go.Time :=
  lift (n <- tick ;; ret (clock env n)).

(** [<-ctx.Done()] in a [select] with a [default]: is the context cancelled *)
Definition ctxDone : Ext bool :=
  n <- tick ;; ret (cancelled env n).

(** [client.ZAdd(ctx, key, redis.Z{Score, Member}).Err()] on the pending key *)
Definition ZAdd (score : Z) (m : Member) : M (option error) :=
  failed <- call (CZAdd defaultQueueKey m) ;;
  if failed then ret (Some (Failure (CZAdd defaultQueueKey m)))
  else modify (fun w => with_pending (Redis.zadd m score (pending w)) w) ;;; ret None.

(** The member of a reply as Go sees it, an [interface{}]. *)
Inductive Iface :=
| IString (m : Member)
| INotString.

(** [client.BZPopMin(ctx, timeout, key).Result()] on the pending key.  The
    command waits up to [timeout] for a member; with nothing pending when the
    wait is over it answers [redis.Nil].  go-redis hands the member over as a
    string. *)
Definition BZPopMin (timeout : Go.Duration) : M ((Iface * Z) + error) :=
  failed <- call (CBZPopMin defaultQueueKey timeout) ;;
  if failed then ret (inr (Failure (CBZPopMin defaultQueueKey timeout)))
  else
    w <- get ;;
    match Redis.zpopmin (tie env) (pending w) with
    | None => ret (inr RedisNil)
    | Some (m, rest) =>
        modify (with_pending rest) ;;; ret (inl (IString (fst m), snd m))
    end.

(** [client.SAdd(ctx, key, member).Err()] on the processing key and on the
    dead-letter key *)
Definition SAddProcessing (m : Member) : M (option error) :=
  failed <- call (CSAdd defaultProcessingKey m) ;;
  if failed then ret (Some (Failure (CSAdd defaultProcessingKey m)))
  else modify (fun w => with_processing (Redis.sadd m (processing w)) w) ;;; ret None.

Definition SAddDead (m : Member) : M (option error) :=
  failed <- call (CSAdd deadLetterKey m) ;;
  if failed then ret (Some (Failure (CSAdd deadLetterKey m)))
  else modify (fun w => with_dead (Redis.sadd m (dead w)) w) ;;; ret None.

(** [client.SRem(ctx, processingKey, member).Err()]: removing a member that
    is not in the set is not an error. *)
Definition SRemProcessing (m : Member) : M (option error) :=
  failed <- call (CSRem defaultProcessingKey m) ;;
  if failed then ret (Some (Failure (CSRem defaultProcessingKey m)))
  else modify (fun w => with_processing (Redis.srem m (processing w)) w) ;;; ret None.

(** [client.ZCard(ctx, queueKey).Result()] *)
Definition ZCard : M (Z * option error) :=
  failed <- call (CZCard defaultQueueKey) ;;
  if failed then ret (0, Some (Failure (CZCard defaultQueueKey)))
  else w <- get ;; ret (Z.of_nat (List.length (pending w)), None).

(* ------------------------------------------------------------------ *)
(** * RedisQueue *)

(** The functions take the job the caller's pointer refers to and return,
    with the error, the job as the pointer sees it afterwards. *)

(** [func (q *RedisQueue) Enqueue(ctx, job *Job) error] *)
Definition Enqueue (job : Job) : M (Job * option error) :=
  now <- Now ;;
  let job := set_CreatedAt job now in
  match Marshal job with
  | None => ret (job, Some (Errorw "failed to marshal job" MarshalError))
  | Some data =>
      now' <- Now ;;
      let score := Go.fsub (Go.float64 (Go.Unix now'))
                           (Go.float64 (Go.wrap64 (Priority job * 1000))) in
      err <- ZAdd score data ;;
      match err with
      | Some e => ret (job, Some (Errorw "failed to enqueue job" e))
      | None => ret (job, None)
      end
  end.

(** [func (q *RedisQueue) Dequeue(ctx, timeout)]: the pair of a job pointer
    and an error that Go returns, a nil pointer being [None]. *)
Definition Dequeue (timeout : Go.Duration) : M (option Job * option error) :=
  result <- BZPopMin timeout ;;
  match result with
  | inr err =>
      if is_redis_nil err then ret (None, Some ErrNoJobAvailable)
      else ret (None, Some (Errorw "failed to dequeue job" err))
  | inl (member, _) =>
      match member with
      | INotString => ret (None, Some (Errorf "unexpected member type"))
      | IString data =>
          match Unmarshal data with
          | None => ret (None, Some (Errorw "failed to unmarshal job" UnmarshalError))
          | Some job =>
              err <- SAddProcessing data ;;
              match err with
              | Some e =>
                  r <- Enqueue job ;;
                  match snd r with
                  | Some enqErr => ret (None, Some (Errorw "failed to re-enqueue job" enqErr))
                  | None => ret (None, Some (Errorw "failed to track processing job" e))
                  end
              | None => ret (Some job, None)
              end
          end
      end
  end.

(** [func (q *RedisQueue) Ack(ctx, job *Job) error] *)
Definition Ack (job : Job) : M (option error) :=
  match Marshal job with
  | None => ret (Some (Errorw "failed to marshal job" MarshalError))
  | Some data =>
      err <- SRemProcessing data ;;
      match err with
      | Some e => ret (Some (Errorw "failed to ack job" e))
      | None => ret None
      end
  end.

(** [func (q *RedisQueue) Nack(ctx, job *Job) error].  [data] is taken
    before [job.Attempts++]. *)
Definition Nack (job : Job) : M (Job * option error) :=
  match Marshal job with
  | None => ret (job, Some (Errorw "failed to marshal job" MarshalError))
  | Some data =>
      err <- SRemProcessing data ;;
      match err with
      | Some e => ret (job, Some (Errorw "failed to remove from processing" e))
      | None =>
          let job := set_Attempts job (Go.wrap64 (Attempts job + 1)) in
          if Attempts job <? 3 then Enqueue job
          else
            err <- SAddDead data ;;
            match err with
            | Some e => ret (job, Some (Errorw "failed to add to dead letter queue" e))
            | None => ret (job, None)
            end
      end
  end.

(** [func (q *RedisQueue) Len(ctx) (int64, error)] *)
Definition Len : M (Z * option error) := ZCard.

(** [queue.Queue], the interface the worker is given, and the Redis queue as
    an implementation of it. *)
Record Queue := mkQueue {
  QEnqueue : Job -> M (Job * option error);
  QDequeue : Go.Duration -> M (option Job * option error);
  QAck : Job -> M (option error);
  QNack : Job -> M (Job * option error);
  QLen : M (Z * option error)
}.

Definition RedisQueue : Queue := mkQueue Enqueue Dequeue Ack Nack Len.

(* ------------------------------------------------------------------ *)
(** * The DynamoDB client *)

Fixpoint lookup (id : string) (t : list (string * Media)) : option Media :=
  match t with
  | [] => None
  | (k, m) :: t' => if String.eqb k id then Some m else lookup id t'
  end.

(** Apply [f] to the item with this id; [UpdateItem] creates the item when
    there is none. *)
Fixpoint upsert (id : string) (f : Media -> Media) (t : list (string * Media))
  : list (string * Media) :=
  match t with
  | [] => [(id, f (mkMedia id MediaStatusPending "" "" "" [] None None))]
  | (k, m) :: t' => if String.eqb k id then (k, f m) :: t' else (k, m) :: upsert id f t'
  end.

Definition set_status (st : MediaStatus) (now : Go.Time) (processed : option Go.Time)
    (m : Media) : Media :=
  mkMedia (MID m) st (SourceKey m) (SourceBucket m) (SourceFormat m) (Renditions m)
          (Some now)
          (match processed with Some t => Some t | None => ProcessedAt m end).

Definition append_rendition (r : Rendition) (now : Go.Time) (m : Media) : Media :=
  mkMedia (MID m) (Status m) (SourceKey m) (SourceBucket m) (SourceFormat m)
          (Renditions m ++ [r]) (Some now) (ProcessedAt m).

(** [func (c *Client) GetMedia(ctx, id)]: an item that is found decodes. *)
Definition GetMedia (id : string) : M (Media + error) :=
  failed <- call (CGetItem id) ;;
  if failed then ret (inr (Errorw "failed to get media" (Failure (CGetItem id))))
  else
    w <- get ;;
    match lookup id (table w) with
    | None => ret (inr ErrMediaNotFound)
    | Some media => ret (inl media)
    end.

(** [func (c *Client) UpdateMediaStatus(ctx, id, status)]: sets [status] and
    [updated_at], and [processed_at] when the status is completed. *)
Definition UpdateMediaStatus (id : string) (status : MediaStatus) : M (option error) :=
  now <- Now ;;
  processed <- (if MediaStatus_eqb status MediaStatusCompleted
                then (t <- Now ;; ret (Some t)) else ret None) ;;
  failed <- call (CUpdateStatus id status) ;;
  if failed then ret (Some (Errorw "failed to update status" (Failure (CUpdateStatus id status))))
  else
    modify (fun w => with_table (upsert id (set_status status now processed) (table w)) w) ;;;
    ret None.

(** [func (c *Client) AddRendition(ctx, id, rendition)]: appends to the
    item's [renditions] list, which the update expression requires to be
    there. *)
Definition AddRendition (id : string) (rendition : Rendition) : M (option error) :=
  now <- Now ;;
  failed <- call (CAddRendition id (RName rendition)) ;;
  if failed
  then ret (Some (Errorw "failed to add rendition" (Failure (CAddRendition id (RName rendition)))))
  else
    w <- get ;;
    match lookup id (table w) with
    | None =>
        ret (Some (Errorw "failed to add rendition" (Failure (CAddRendition id (RName rendition)))))
    | Some _ =>
        modify (fun w => with_table (upsert id (append_rendition rendition now) (table w)) w) ;;;
        ret None
    end.

(* ------------------------------------------------------------------ *)
(** * The S3 client *)

(** [func (c *Client) Upload(ctx, bucket, key, body, contentType)] *)
Definition Upload (bucket key : string) : M (option error) :=
  failed <- call (CPutObject bucket key) ;;
  if failed then ret (Some (Errorw "failed to upload to S3" (Failure (CPutObject bucket key))))
  else modify (fun w => with_objects (objects w ++ [(bucket, key)]) w) ;;; ret None.

(** [func (c *Client) Download(ctx, bucket, key)]: the reader is not kept,
    only whether there is one. *)
Definition Download (bucket key : string) : M (option error) :=
  failed <- call (CGetObject bucket key) ;;
  if failed then ret (Some (Errorw "failed to download from S3" (Failure (CGetObject bucket key))))
  else ret None.

(* ------------------------------------------------------------------ *)
(** * Transcoding strategies and their executor *)

(** The three implementations of [TranscodeStrategy]. *)
Inductive TranscodeStrategy :=
| HLSTranscodeStrategy (profile : ProfileConfig) (segmentDuration : Z)
| AudioTranscodeStrategy (profile : ProfileConfig)
| AudioHLSTranscodeStrategy (profile : ProfileConfig) (segmentDuration : Z).

Definition GetProfile (s : TranscodeStrategy) : ProfileConfig :=
  match s with
  | HLSTranscodeStrategy p _ => p
  | AudioTranscodeStrategy p => p
  | AudioHLSTranscodeStrategy p _ => p
  end.

Definition GetName (s : TranscodeStrategy) : string := PName (GetProfile s).

Definition BuildCommand (s : TranscodeStrategy) (input outputDir : string) : list string :=
  match s with
  | HLSTranscodeStrategy profile segmentDuration =>
      let playlistPath := outputDir ++ "/" ++ PName profile ++ "/playlist.m3u8" in
      let segmentPath := outputDir ++ "/" ++ PName profile ++ "/segment_%04d.ts" in
      ["-i"; input;
       "-vf"; "scale=" ++ itoa (PWidth profile) ++ ":" ++ itoa (PHeight profile);
       "-c:v"; PCodec profile;
       "-b:v"; VideoBitrate profile;
       "-c:a"; "aac";
       "-b:a"; AudioBitrate profile;
       "-hls_time"; itoa segmentDuration;
       "-hls_list_size"; "0";
       "-hls_segment_filename"; segmentPath;
       "-f"; "hls";
       playlistPath]%string
  | AudioTranscodeStrategy profile =>
      let outputPath := outputDir ++ "/" ++ PName profile ++ "/audio.m4a" in
      ["-i"; input; "-vn"; "-c:a"; "aac"; "-b:a"; AudioBitrate profile; outputPath]%string
  | AudioHLSTranscodeStrategy profile segmentDuration =>
      let playlistPath := outputDir ++ "/" ++ PName profile ++ "/playlist.m3u8" in
      let segmentPath := outputDir ++ "/" ++ PName profile ++ "/segment_%04d.aac" in
      ["-i"; input; "-vn"; "-c:a"; "aac"; "-b:a"; AudioBitrate profile;
       "-hls_time"; itoa segmentDuration;
       "-hls_list_size"; "0";
       "-hls_segment_filename"; segmentPath;
       "-f"; "hls";
       playlistPath]%string
  end.

(** [func (e *StrategyExecutor) Execute(ctx, input, outputDir, executor)]: the
    loop over the strategies, with the results gathered so far. *)
Fixpoint Execute_from (strategies : list TranscodeStrategy) (input outputDir : string)
    (results : list RenditionOutput) : Ext (list RenditionOutput + error) :=
  match strategies with
  | [] => ret (inl results)
  | strategy :: rest =>
      done <- ctxDone ;;
      if done then ret (inr ContextCanceled)
      else
        let args := BuildCommand strategy input outputDir in
        failed <- ecall (CFFmpeg args) ;;
        if failed
        then ret (inr (Errorw ("strategy " ++ GetName strategy ++ " failed")
                              (Errorw "ffmpeg command failed" (Failure (CFFmpeg args)))))
        else
          let profile := GetProfile strategy in
          let result := mkRenditionOutput (PName profile) (PWidth profile) (PHeight profile)
                          0 (PCodec profile)
                          (outputDir ++ "/" ++ PName profile ++ "/playlist.m3u8") [] in
          Execute_from rest input outputDir (results ++ [result])
  end.

Definition Execute (strategies : list TranscodeStrategy) (input outputDir : string)
  : Ext (list RenditionOutput + error) :=
  Execute_from strategies input outputDir [].

(* ------------------------------------------------------------------ *)
(** * Media processors *)

(** [processor.MediaProcessor]: [Process] returns an output or an error. *)
Record MediaProcessor := mkMediaProcessor {
  Process : ProcessInput -> Ext (ProcessOutput + error)
}.

(** [ffmpeg.Processor] *)
Record FFmpegConfig := mkFFmpegConfig {
  binaryPath : string;
  probePath : string;
  tempDir : string;
  segmentDuration : Z
}.

(** The bandwidth [generateMasterPlaylist] writes for a rendition. *)
Definition bandwidth (r : RenditionOutput) : Z :=
  if OBitrate r =? 0 then
    if String.eqb (OName r) "1080p" then 5000000
    else if String.eqb (OName r) "720p" then 2500000
    else if String.eqb (OName r) "480p" then 1000000
    else if String.eqb (OName r) "360p" then 500000
    else 1000000
  else OBitrate r.

Definition newline : string := String (ascii_of_nat 10) EmptyString.

Fixpoint masterEntries (renditions : list RenditionOutput) : string :=
  match renditions with
  | [] => EmptyString
  | r :: rest =>
      ("#EXT-X-STREAM-INF:BANDWIDTH=" ++ itoa (bandwidth r) ++ ",RESOLUTION="
         ++ itoa (OWidth r) ++ "x" ++ itoa (OHeight r) ++ newline
         ++ OName r ++ "/playlist.m3u8" ++ newline
         ++ masterEntries rest)%string
  end.

(** [func (p *Processor) generateMasterPlaylist(path, renditions)] *)
Definition generateMasterPlaylist (path : string) (renditions : list RenditionOutput)
  : Ext (option error) :=
  let content := ("#EXTM3U" ++ newline ++ "#EXT-X-VERSION:3" ++ newline
                    ++ masterEntries renditions)%string in
  failed <- ecall (CWriteFile path content) ;;
  if failed then ret (Some (Failure (CWriteFile path content))) else ret None.

(** [func (p *Processor) Process(ctx, input)] *)
Definition FFmpeg_Process (p : FFmpegConfig) (input : ProcessInput)
  : Ext (ProcessOutput + error) :=
  let outputDir := Join (tempDir p) (InMediaID input) in
  failed <- ecall (CMkdirAll outputDir) ;;
  if failed
  then ret (inr (Errorw "failed to create output directory" (Failure (CMkdirAll outputDir))))
  else
    failed <- ecall (CProbe (SourcePath input)) ;;
    if failed
    then ret (inr (Errorw "failed to probe media" (Failure (CProbe (SourcePath input)))))
    else
      let strategies :=
        map (fun profile => HLSTranscodeStrategy profile (segmentDuration p)) (Profiles input) in
      r <- Execute strategies (SourcePath input) outputDir ;;
      match r with
      | inr err => ret (inr (Errorw "transcoding failed" err))
      | inl renditions =>
          let masterPath := Join outputDir "master.m3u8" in
          err <- generateMasterPlaylist masterPath renditions ;;
          match err with
          | Some e => ret (inr (Errorw "failed to generate master playlist" e))
          | None => ret (inl (mkProcessOutput (InMediaID input) renditions masterPath))
          end
      end.

Definition FFmpegProcessor (p : FFmpegConfig) : MediaProcessor :=
  mkMediaProcessor (FFmpeg_Process p).

(* ------------------------------------------------------------------ *)
(** * The transcode service *)

(** [transcode.Service]: the processed bucket of its S3 client, the host's
    [os.TempDir()] and its processor. *)
Record Service := mkService {
  processedBucket : string;
  osTempDir : string;
  processor : MediaProcessor
}.

Variable s : Service.

(** [func (s *Service) uploadFile(ctx, bucket, key, path, contentType)] *)
Definition uploadFile (bucket key path : string) : M (option error) :=
  failed <- call (COpen path) ;;
  if failed then ret (Some (Failure (COpen path)))
  else Upload bucket key.

(** [filepath.Glob(pattern)] *)
Definition Glob (pattern : string) : M (list string + error) :=
  lift (n <- tick ;;
        if fails env n (CGlob pattern) then ret (inr (Failure (CGlob pattern)))
        else ret (inl (glob_files env n pattern))).

(** The loop over the segments of one rendition: a failed upload is logged
    and the loop goes on. *)
Fixpoint uploadSegments (bucket mediaID name : string) (segments : list string) : M unit :=
  match segments with
  | [] => ret tt
  | seg :: rest =>
      let segName := Base seg in
      let segKey := (mediaID ++ "/" ++ name ++ "/" ++ segName)%string in
      uploadFile bucket segKey seg ;;;
      uploadSegments bucket mediaID name rest
  end.

(** The loop over the renditions: a playlist that fails to upload, or a glob
    that fails, is logged and the loop continues with the next rendition. *)
Fixpoint uploadRenditions (bucket mediaID outputDir : string)
    (renditions : list RenditionOutput) : M unit :=
  match renditions with
  | [] => ret tt
  | r :: rest =>
      let renditionDir := Join outputDir (OName r) in
      let playlistPath := Join renditionDir "playlist.m3u8" in
      err <- uploadFile bucket (mediaID ++ "/" ++ OName r ++ "/playlist.m3u8")%string
                        playlistPath ;;
      match err with
      | Some _ => uploadRenditions bucket mediaID outputDir rest
      | None =>
          g <- Glob (Join renditionDir "segment_*.ts") ;;
          match g with
          | inr _ => uploadRenditions bucket mediaID outputDir rest
          | inl segments =>
              uploadSegments bucket mediaID (OName r) segments ;;;
              uploadRenditions bucket mediaID outputDir rest
          end
      end
  end.

(** [func (s *Service) uploadProcessedFiles(ctx, mediaID, output)] *)
Definition uploadProcessedFiles (mediaID : string) (output : ProcessOutput)
  : M (option error) :=
  let bucket := processedBucket s in
  let outputDir := Dir (MasterPath output) in
  failed <- call (COpen (MasterPath output)) ;;
  if failed
  then ret (Some (Errorw "failed to open master playlist" (Failure (COpen (MasterPath output)))))
  else
    let masterKey := (mediaID ++ "/master.m3u8")%string in
    err <- Upload bucket masterKey ;;
    match err with
    | Some e => ret (Some (Errorw "failed to upload master playlist" e))
    | None =>
        uploadRenditions bucket mediaID outputDir (OutRenditions output) ;;;
        ret None
    end.

(** [func (s *Service) markFailed(ctx, mediaID)]: a failed update is logged. *)
Definition markFailed (mediaID : string) : M unit :=
  UpdateMediaStatus mediaID MediaStatusFailed ;;; ret tt.

(** The four fixed profiles of [ProcessMedia]. *)
Definition profiles : list ProfileConfig :=
  [ mkProfile "1080p" 1920 1080 "5000k" "192k" "h264";
    mkProfile "720p" 1280 720 "2500k" "128k" "h264";
    mkProfile "480p" 854 480 "1000k" "96k" "h264";
    mkProfile "360p" 640 360 "500k" "64k" "h264" ].

(** The [domain.Rendition] that [ProcessMedia] builds from an output of the
    processor. *)
Definition to_rendition (mediaID : string) (r : RenditionOutput) : Rendition :=
  mkRendition (OName r) (OWidth r) (OHeight r) (OBitrate r) (OCodec r)
              (mediaID ++ "/" ++ OName r ++ "/playlist.m3u8") "".

(** The loop that records the renditions: a failed [AddRendition] is logged
    and the loop goes on. *)
Fixpoint recordRenditions (mediaID : string) (renditions : list RenditionOutput) : M unit :=
  match renditions with
  | [] => ret tt
  | r :: rest =>
      AddRendition mediaID (to_rendition mediaID r) ;;;
      recordRenditions mediaID rest
  end.

(** [func (s *Service) ProcessMedia(ctx, mediaID)].  The deferred
    [os.Remove(tempPath)] runs when the function returns, on every path after
    the source was saved. *)
Definition ProcessMedia (mediaID : string) : M (option error) :=
  r <- GetMedia mediaID ;;
  match r with
  | inr err => ret (Some (Errorw "failed to get media" err))
  | inl media =>
      UpdateMediaStatus mediaID MediaStatusProcessing ;;;
      err <- Download (SourceBucket media) (SourceKey media) ;;
      match err with
      | Some e => markFailed mediaID ;;; ret (Some (Errorw "failed to download source" e))
      | None =>
          let tempPath :=
            Join (Join (osTempDir s) "streaming") (mediaID ++ SourceFormat media) in
          failed <- call (CMkdirAll (Dir tempPath)) ;;
          if failed
          then markFailed mediaID ;;;
               ret (Some (Errorw "failed to create temp dir" (Failure (CMkdirAll (Dir tempPath)))))
          else
            failed <- call (CCreate tempPath) ;;
            if failed
            then markFailed mediaID ;;;
                 ret (Some (Errorw "failed to create temp file" (Failure (CCreate tempPath))))
            else
              failed <- call (CCopy tempPath) ;;
              if failed
              then call (CRemove tempPath) ;;;
                   markFailed mediaID ;;;
                   ret (Some (Errorw "failed to save source" (Failure (CCopy tempPath))))
              else
                let input :=
                  mkProcessInput mediaID tempPath
                    (Join (Join (osTempDir s) "streaming") mediaID) profiles in
                result <-
                  (r <- lift (Process (processor s) input) ;;
                   match r with
                   | inr e => markFailed mediaID ;;; ret (Some (Errorw "processing failed" e))
                   | inl output =>
                       err <- uploadProcessedFiles mediaID output ;;
                       match err with
                       | Some e =>
                           markFailed mediaID ;;;
                           ret (Some (Errorw "failed to upload processed files" e))
                       | None =>
                           recordRenditions mediaID (OutRenditions output) ;;;
                           UpdateMediaStatus mediaID MediaStatusCompleted ;;;
                           call (CRemoveAll (OutputDir input)) ;;;
                           ret None
                       end
                   end) ;;
                call (CRemove tempPath) ;;;
                ret result
      end
  end.

(* ------------------------------------------------------------------ *)
(** * The worker *)

(** What one pass of the loop does, in order. *)
Inductive LoopEvent :=
| EvDequeue (timeout : Go.Duration)
| EvDequeueError (e : error)
| EvNoJob
| EvProcess (job : Job)
| EvNack (job : Job)
| EvAck (job : Job).

Variable queue : Queue.

(** [func (w *Worker) processLoop(ctx, workerID)].  [Start] launches
    [concurrency] such loops as goroutines; one loop is followed here, alone
    on the stores.  The loop has no bound of its own; [fuel] bounds the
    passes that are followed.  The result tells whether the loop returned
    (the context was cancelled) within them. *)
Fixpoint processLoop (fuel : nat) : M (list LoopEvent * bool) :=
  match fuel with
  | O => ret ([], false)
  | S fuel' =>
      done <- lift ctxDone ;;
      if done then ret ([], true)
      else
        let timeout : Go.Duration := 5 in
        r <- QDequeue queue timeout ;;
        match r with
        | (_, Some err) =>
            k <- processLoop fuel' ;;
            ret (EvDequeue timeout :: EvDequeueError err :: fst k, snd k)
        | (None, None) =>
            k <- processLoop fuel' ;;
            ret (EvDequeue timeout :: EvNoJob :: fst k, snd k)
        | (Some job, None) =>
            err <- ProcessMedia (MediaID job) ;;
            match err with
            | Some _ =>
                QNack queue job ;;;
                k <- processLoop fuel' ;;
                ret (EvDequeue timeout :: EvProcess job :: EvNack job :: fst k, snd k)
            | None =>
                QAck queue job ;;;
                k <- processLoop fuel' ;;
                ret (EvDequeue timeout :: EvProcess job :: EvAck job :: fst k, snd k)
            end
        end
  end.

End Program.

(* ------------------------------------------------------------------ *)
(** * The processor factory *)

(** [domain.MediaType] is a string type. *)
Definition MediaTypeVideo := "video".
Definition MediaTypeAudio := "audio".

Definition is_dot (c : ascii) : bool := Ascii.eqb c "."%char.

(** [getExtension(filename)]: the loop runs from the end of the name to its
    first dot from there and returns the name from that dot on, the empty
    string when there is no dot. *)
Fixpoint getExtension (filename : string) : string :=
  match filename with
  | EmptyString => EmptyString
  | String c rest =>
      match getExtension rest with
      | EmptyString => if is_dot c then filename else EmptyString
      | ext => ext
      end
  end.

(** The keys of the two maps of [DetectMediaType]. *)
Definition videoExtensions : list string :=
  [".mp4"; ".mov"; ".avi"; ".mkv"; ".webm"; ".flv"; ".wmv"; ".m4v"].
Definition audioExtensions : list string :=
  [".mp3"; ".aac"; ".wav"; ".flac"; ".ogg"; ".m4a"; ".wma"; ".opus"].

Definition has_key (ext : string) (keys : list string) : bool :=
  existsb (String.eqb ext) keys.

(** [DetectMediaType(filename)] *)
Definition DetectMediaType (filename : string) : string :=
  let ext := getExtension filename in
  if has_key ext videoExtensions then MediaTypeVideo
  else if has_key ext audioExtensions then MediaTypeAudio
  else MediaTypeVideo.

(** [processor.ProcessorFactory]: a processor that is [nil] is [None]. *)
Record ProcessorFactory := mkProcessorFactory {
  videoProcessor : option MediaProcessor;
  audioProcessor : option MediaProcessor
}.

(** [func (f *ProcessorFactory) CreateProcessor(mediaType)] *)
Definition CreateProcessor (f : ProcessorFactory) (mediaType : string)
  : MediaProcessor + error :=
  if String.eqb mediaType MediaTypeVideo then
    match videoProcessor f with
    | None => inr (Errorf "video processor not configured")
    | Some p => inl p
    end
  else if String.eqb mediaType MediaTypeAudio then
    match audioProcessor f with
    | None => inr (Errorf "audio processor not configured")
    | Some p => inl p
    end
  else inr (Errorf ("unsupported media type: " ++ mediaType)).

Module Filepath.

(** [filepath.Ext(path)]: the suffix of the last element of the path from
    its last dot on, the empty string when that element has no dot. *)
Fixpoint Ext (path : string) : string :=
  match path with
  | EmptyString => EmptyString
  | String c rest =>
      match Ext rest with
      | EmptyString =>
          match before_last_slash rest with
          | Some _ => EmptyString
          | None => if is_dot c then path else EmptyString
          end
      | ext => ext
      end
  end.

End Filepath.

(* ------------------------------------------------------------------ *)
(** * The audio processor and the streaming service *)

Module Audio.

(** [ffmpeg.AudioProcessor] *)
Record Config := mkConfig {
  binaryPath : string;
  tempDir : string;
  segmentDuration : Z
}.

(** The profiles [Process] builds its strategies from. *)
Definition audioProfiles : list ProfileConfig :=
  [ mkProfile "high" 0 0 "" "320k" "";
    mkProfile "medium" 0 0 "" "192k" "";
    mkProfile "low" 0 0 "" "96k" "" ].

(** The bandwidth [generateAudioMasterPlaylist] writes for a rendition. *)
Definition bandwidth (r : RenditionOutput) : Z :=
  if String.eqb (OName r) "high" then 320000
  else if String.eqb (OName r) "medium" then 192000
  else if String.eqb (OName r) "low" then 96000
  else 320000.

Fixpoint masterEntries (renditions : list RenditionOutput) : string :=
  match renditions with
  | [] => EmptyString
  | r :: rest =>
      ("#EXT-X-STREAM-INF:BANDWIDTH=" ++ itoa (bandwidth r) ++ newline
         ++ OName r ++ "/playlist.m3u8" ++ newline
         ++ masterEntries rest)%string
  end.

Section WithEnv.

Variable env : Env.

(** [func (p *AudioProcessor) generateAudioMasterPlaylist(path, renditions)] *)
Definition generateAudioMasterPlaylist (path : string) (renditions : list RenditionOutput)
  : Ext (option error) :=
  let content := ("#EXTM3U" ++ newline ++ "#EXT-X-VERSION:3" ++ newline
                    ++ masterEntries renditions)%string in
  failed <- ecall env (CWriteFile path content) ;;
  if failed then ret (Some (Failure (CWriteFile path content))) else ret None.

(** [func (p *AudioProcessor) Process(ctx, input)]: the strategies come from
    the processor's own three profiles, not from the input's. *)
Definition Process (p : Config) (input : ProcessInput) : Ext (ProcessOutput + error) :=
  let outputDir := Join (tempDir p) (InMediaID input) in
  failed <- ecall env (CMkdirAll outputDir) ;;
  if failed
  then ret (inr (Errorw "failed to create output directory" (Failure (CMkdirAll outputDir))))
  else
    let strategies :=
      map (fun profile => AudioHLSTranscodeStrategy profile (segmentDuration p)) audioProfiles in
    r <- Execute env strategies (SourcePath input) outputDir ;;
    match r with
    | inr err => ret (inr (Errorw "audio transcoding failed" err))
    | inl renditions =>
        let masterPath := Join outputDir "master.m3u8" in
        err <- generateAudioMasterPlaylist masterPath renditions ;;
        match err with
        | Some e => ret (inr (Errorw "failed to generate master playlist" e))
        | None => ret (inl (mkProcessOutput (InMediaID input) renditions masterPath))
        end
    end.

Definition Processor (p : Config) : MediaProcessor := mkMediaProcessor (Process p).

End WithEnv.

End Audio.

Module Stream.

(** [func (s *Service) buildPlaybackURL(key)] with the service's
    [cloudFrontDomain] *)
Definition buildPlaybackURL (cloudFrontDomain key : string) : string :=
  if String.eqb cloudFrontDomain "" then ""
  else ("https://" ++ cloudFrontDomain ++ "/" ++ key)%string.

(** [func (s *Service) GetPlaybackURL(ctx, mediaID)] *)
Definition GetPlaybackURL (env : Env) (cloudFrontDomain mediaID : string)
  : M (string * option error) :=
  r <- GetMedia env mediaID ;;
  match r with
  | inr err => ret (EmptyString, Some err)
  | inl media =>
      if negb (IsProcessed media)
      then ret (EmptyString, Some (Errorf "media not yet processed"))
      else ret (buildPlaybackURL cloudFrontDomain (GetMasterPlaylistKey media), None)
  end.

End Stream.

(* ------------------------------------------------------------------ *)
(** * The upload service *)

(** The calls of the upload service that the pipeline does not make. *)
Inductive ServiceCall :=
| CPutItem (id : string)
| CDeleteObject (bucket key : string).

(** The environment of the upload service: the pipeline's, and whether a
    call of its own fails at a step. *)
Record ServiceEnv := mkServiceEnv {
  base : Env;
  service_fails : nat -> ServiceCall -> bool
}.

Module UploadService.

(** [upload.UploadRequest] without its body, and [upload.UploadResponse]. *)
Record UploadRequest := mkUploadRequest {
  Title : string;
  Description : string;
  UserID : string;
  Filename : string;
  ContentType : string
}.

Record UploadResponse := mkUploadResponse {
  RespMediaID : string;
  RespStatus : MediaStatus;
  UploadURL : string
}.

(** [upload.Service]: the raw bucket of its S3 client and its queue, which
    is [nil] until [SetQueue] is called. *)
Record Service := mkService {
  rawBucket : string;
  queue : option Queue
}.

Section WithEnv.

Variable senv : ServiceEnv.

Definition scall (c : ServiceCall) : M bool :=
  lift (n <- tick ;; ret (service_fails senv n c)).

(** [domain.NewMedia(id, title, userID, mediaType)], on the fields of
    [Media]: the status is pending and the two timestamps are now. *)
Definition NewMedia (id : string) : M Media :=
  now <- Now (base senv) ;;
  ret (mkMedia id MediaStatusPending "" "" "" [] (Some now) None).

(** [func (c *Client) CreateMedia(ctx, media)] of the DynamoDB client: a put
    under the condition [attribute_not_exists(id)].  Marshalling a [Media]
    does not fail; the error of the SDK that is wrapped is named by what went
    wrong. *)
Definition CreateMedia (media : Media) : M (option error) :=
  failed <- scall (CPutItem (MID media)) ;;
  if failed then ret (Some (Errorw "failed to create media" (Errorf "PutItem")))
  else
    w <- get ;;
    match lookup (MID media) (table w) with
    | Some _ =>
        ret (Some (Errorw "failed to create media" (Errorf "ConditionalCheckFailedException")))
    | None =>
        modify (fun w => with_table (table w ++ [(MID media, media)]) w) ;;; ret None
    end.

(** [func (c *Client) Delete(ctx, bucket, key)] of the S3 client: deleting a
    key that is not there is not an error. *)
Definition Delete (bucket key : string) : M (option error) :=
  failed <- scall (CDeleteObject bucket key) ;;
  if failed then ret (Some (Errorw "failed to delete from S3" (Errorf "DeleteObject")))
  else
    modify (fun w =>
      with_objects
        (filter (fun o => negb (String.eqb (fst o) bucket && String.eqb (snd o) key)) (objects w))
        w) ;;;
    ret None.

(** The job both entry points build; [jobID] is [uuid.New().String()]. *)
Definition transcode_job (s : Service) (jobID mediaID s3Key : string) : Job :=
  mkJob jobID JobTypeTranscode mediaID 1
        [("source_bucket", rawBucket s); ("source_key", s3Key)] 0 0.

(** The part both entry points share: queue the transcoding job when there
    is a queue; a failed enqueue is logged. *)
Definition queue_job (s : Service) (jobID mediaID s3Key : string) : M unit :=
  match queue s with
  | Some q => QEnqueue q (transcode_job s jobID mediaID s3Key) ;;; ret tt
  | None => ret tt
  end.

Definition with_source (media : Media) (s3Key bucket ext : string) : Media :=
  mkMedia (MID media) (Status media) s3Key bucket ext (Renditions media)
          (UpdatedAt media) (ProcessedAt media).

(** [func (s *Service) Upload(ctx, req)]; [mediaID] and [jobID] are the two
    results of [uuid.New().String()]. *)
Definition Upload (s : Service) (mediaID jobID : string) (req : UploadRequest)
  : M (option UploadResponse * option error) :=
  let ext := Filepath.Ext (Filename req) in
  let s3Key := ("raw/" ++ mediaID ++ ext)%string in
  err <- Upload (base senv) (rawBucket s) s3Key ;;
  match err with
  | Some e => ret (None, Some (Errorw "upload failed" e))
  | None =>
      media <- NewMedia mediaID ;;
      let media := with_source media s3Key (rawBucket s) ext in
      err <- CreateMedia media ;;
      match err with
      | Some e =>
          Delete (rawBucket s) s3Key ;;;
          ret (None, Some (Errorw "failed to create media record" e))
      | None =>
          queue_job s jobID mediaID s3Key ;;;
          ret (Some (mkUploadResponse mediaID MediaStatusPending ""), None)
      end
  end.

(** [func (s *Service) ConfirmUpload(ctx, req, mediaID)] *)
Definition ConfirmUpload (s : Service) (jobID : string) (req : UploadRequest)
    (mediaID : string) : M (option UploadResponse * option error) :=
  let ext := Filepath.Ext (Filename req) in
  let s3Key := ("raw/" ++ mediaID ++ ext)%string in
  media <- NewMedia mediaID ;;
  let media := with_source media s3Key (rawBucket s) ext in
  err <- CreateMedia media ;;
  match err with
  | Some e => ret (None, Some (Errorw "failed to create media record" e))
  | None =>
      queue_job s jobID mediaID s3Key ;;;
      ret (Some (mkUploadResponse mediaID MediaStatusPending ""), None)
  end.

End WithEnv.

End UploadService.

(* ------------------------------------------------------------------ *)
(** * Vocabulary of the properties *)

(** No call fails; every reading of the clock is a date [json.Marshal]
    accepts; the context is never cancelled. *)
Definition reliable (env : Env) : Prop := forall n c, fails env n c = false.
Definition sane_clock (env : Env) : Prop := forall n, Go.year_in_range (clock env n) = true.
Definition never_cancelled (env : Env) : Prop := forall n, cancelled env n = false.

(** The values of a Go [int]. *)
Definition is_int (z : Z) : Prop := - 2 ^ 63 <= z < 2 ^ 63.

(** The retry budget of [Nack]. *)
Definition maxAttempts : Z := 3.

(** Two worlds hold the same data: only the step counter may differ. *)
Definition same_stores (w w' : World) : Prop :=
  pending w' = pending w /\ processing w' = processing w /\ dead w' = dead w /\
  table w' = table w /\ objects w' = objects w.

(** The attempts recorded in a stored member. *)
Definition member_attempts (m : Member) : option Z :=
  match m with
  | Encoded j => Some (Attempts j)
  | Opaque _ => None
  end.

(** Every job in the pending set is within its retry budget. *)
Definition within_budget (m : Member) : Prop :=
  match m with
  | Encoded j => Attempts j < maxAttempts
  | Opaque _ => True
  end.

Definition pending_within_budget (w : World) : Prop :=
  Forall (fun x => within_budget (fst x)) (pending w).

(** The score [Enqueue] computes from a reading of the clock. *)
Definition score_of (t : Go.Time) (priority : Z) : Z :=
  Go.fsub (Go.float64 (Go.Unix t)) (Go.float64 (Go.wrap64 (priority * 1000))).

(** Scenario A: three jobs are enqueued, then three are dequeued. *)
Definition enqueue3_dequeue3 (env : Env) (timeout : Go.Duration) (j1 j2 j3 : Job)
  : M (list (option Job * option error)) :=
  Enqueue env j1 ;;; Enqueue env j2 ;;; Enqueue env j3 ;;;
  d1 <- Dequeue env timeout ;;
  d2 <- Dequeue env timeout ;;
  d3 <- Dequeue env timeout ;;
  ret [d1; d2; d3].

(** The ids of the jobs a list of [Dequeue] results holds. *)
Definition dequeued_ids (ds : list (option Job * option error)) : list (option string) :=
  map (fun d => option_map ID (fst d)) ds.

(** The second of the clock at which the [k]-th [Enqueue] after [w] (counted
    from 0) computes its score: each [Enqueue] takes three steps, and the
    score is computed at the second of them. *)
Definition enqueue_second (env : Env) (w : World) (k : nat) : Z :=
  Go.Unix (clock env (k * 3 + 1 + steps w)).

(** The time the [k]-th [Enqueue] after [w] stamps on its job, at the first
    of its three steps. *)
Definition enqueue_stamp (env : Env) (w : World) (k : nat) : Go.Time :=
  clock env (k * 3 + steps w).

(** The metadata item of a WorkItem, if there is one. *)
Definition row (id : string) (w : World) : option Media := lookup id (table w).

Definition status_of (id : string) (w : World) : option MediaStatus :=
  option_map Status (row id w).

Definition renditions_of (id : string) (w : World) : list Rendition :=
  match row id w with
  | Some m => Renditions m
  | None => []
  end.

(** The key of the aggregate manifest and the keys under a rendition. *)
Definition masterKey (mediaID : string) : string := mediaID ++ "/master.m3u8".

Definition rendition_object (bucket mediaID : string) (renditions : list RenditionOutput)
    (o : string * string) : Prop :=
  fst o = bucket /\
  exists r file, In r renditions /\ snd o = (mediaID ++ "/" ++ OName r ++ "/" ++ file)%string.

(** An object is the last one of an upload log. *)
Definition uploaded_last (o : string * string) (log : list (string * string)) : Prop :=
  exists earlier, log = (earlier ++ [o])%list.

(** The store took the object at some step. *)
Definition accepted (env : Env) (o : string * string) : Prop :=
  exists n, fails env n (CPutObject (fst o) (snd o)) = false.

(** From [w] to [w'] the only change to the stores is that objects, each
    satisfying [P], were added to the upload log. *)
Definition appended (P : string * string -> Prop) (w w' : World) : Prop :=
  pending w' = pending w /\ processing w' = processing w /\ dead w' = dead w /\
  table w' = table w /\
  exists extra, objects w' = (objects w ++ extra)%list /\ Forall P extra.

(** A WorkItem whose pipeline has not completed: its item exists and its
    status is not completed. *)
Definition in_progress (id : string) (w : World) : Prop :=
  row id w <> None /\ status_of id w <> Some MediaStatusCompleted.

(** What [Execute] returns for a profile. *)
Definition rendition_output (outputDir : string) (profile : ProfileConfig) : RenditionOutput :=
  mkRenditionOutput (PName profile) (PWidth profile) (PHeight profile) 0 (PCodec profile)
                    (outputDir ++ "/" ++ PName profile ++ "/playlist.m3u8") [].

(** The only call that fails is [c], and it fails whenever it is made. *)
Definition only_fails (env : Env) (c : Call) : Prop :=
  forall n c', fails env n c' = true <-> c' = c.

(** The key of a rendition's playlist. *)
Definition playlistKey (mediaID name : string) : string :=
  mediaID ++ "/" ++ name ++ "/playlist.m3u8".

(** The timeout the loop passes to [Dequeue]: the constant 5 as a
    [time.Duration], which is 5 nanoseconds. *)
Definition poll_timeout_of (ev : LoopEvent) : Prop :=
  match ev with
  | EvDequeue timeout => timeout = 5 * Go.Nanosecond /\ timeout <> 5 * Go.Second
  | _ => True
  end.

(* ------------------------------------------------------------------ *)
(** * Example inputs *)

(** A clock that starts on 14 November 2023 and advances one second per
    step (it stops advancing after 4096 steps). *)
Definition epoch0 : Z := 1700000000.

Definition clock_ticking (n : nat) : Go.Time :=
  (epoch0 + Z.of_nat (Nat.min n 4096)) * 1000000000.

(** A clock that stands still for the first six steps and is 5000 seconds
    later from then on. *)
Definition clock_gap (n : nat) : Go.Time :=
  (if Nat.ltb n 6 then epoch0 else epoch0 + 5000) * 1000000000.

(** A clock that stands still. *)
Definition clock_still (n : nat) : Go.Time := epoch0 * 1000000000.

(** The order of the members' bytes, as far as the id decides it: the id is
    the first field [json.Marshal] writes. *)
Definition member_id (m : Member) : string :=
  match m with
  | Encoded j => ID j
  | Opaque bytes => bytes
  end.

Definition tie_by_id (a b : Member) : bool := String.leb (member_id a) (member_id b).

Definition no_failure (n : nat) (c : Call) : bool := false.
Definition no_files (n : nat) (pattern : string) : list string := [].
Definition not_cancelled (n : nat) : bool := false.

(** Everything works. *)
Definition env_ok : Env := mkEnv clock_ticking no_failure tie_by_id no_files not_cancelled.
Definition env_gap : Env := mkEnv clock_gap no_failure tie_by_id no_files not_cancelled.
Definition env_still : Env := mkEnv clock_still no_failure tie_by_id no_files not_cancelled.

Definition w_empty : World := mkWorld 0 [] [] [] [] [].

(** The jobs of scenario A, as a producer builds them. *)
Definition J1 : Job := mkJob "J1" JobTypeTranscode "m1" 5 [] 0 0.
Definition J2 : Job := mkJob "J2" JobTypeTranscode "m2" 1 [] 0 0.
Definition J3 : Job := mkJob "J3" JobTypeTranscode "m3" 5 [] 0 0.

(** The same three jobs with ids as [uuid.New()] might give them. *)
Definition U1 : Job := mkJob "c4d1" JobTypeTranscode "m1" 5 [] 0 0.
Definition U2 : Job := mkJob "71fa" JobTypeTranscode "m2" 1 [] 0 0.
Definition U3 : Job := mkJob "2e90" JobTypeTranscode "m3" 5 [] 0 0.

(** A job as [Dequeue] hands it over: stamped, with [attempts] tries behind
    it, and tracked in the processing set. *)
Definition dequeued_job (attempts : Z) : Job :=
  mkJob "J1" JobTypeTranscode "m1" 1 [] (epoch0 * 1000000000) attempts.

Definition w_tracking (attempts : Z) : World :=
  mkWorld 0 [] [Encoded (dequeued_job attempts)] [] [] [].

(** Scenario B: a job is enqueued, then dequeued and nacked three times. *)
Definition dequeue_nack (env : Env) (timeout : Go.Duration) : M (option Job) :=
  d <- Dequeue env timeout ;;
  match fst d with
  | Some job => r <- Nack env job ;; ret (Some (fst r))
  | None => ret None
  end.

Definition scenarioB (env : Env) (timeout : Go.Duration) (job : Job) : M (option Job) :=
  Enqueue env job ;;;
  dequeue_nack env timeout ;;;
  dequeue_nack env timeout ;;;
  dequeue_nack env timeout.

(** ** Example inputs for the pipeline *)

Definition Call_eq_dec (a b : Call) : {a = b} + {a <> b}.
Proof.
  decide equality;
    try apply string_dec; try apply Z.eq_dec; try apply Member_eq_dec;
    try (apply list_eq_dec; apply string_dec).
  decide equality.
Defined.

(** The failures of an environment in which exactly the call [c] fails. *)
Definition exactly (c : Call) (n : nat) (c' : Call) : bool :=
  if Call_eq_dec c' c then true else false.

(** The failures of an environment in which the metadata store rejects every
    rendition. *)
Definition rejects_renditions (n : nat) (c : Call) : bool :=
  match c with
  | CAddRendition _ _ => true
  | _ => false
  end.

(** Two segments next to every playlist. *)
Definition two_segments (n : nat) (pattern : string) : list string :=
  [ Dir pattern ++ "/segment_0000.ts"; Dir pattern ++ "/segment_0001.ts" ]%string.

Definition example_config : FFmpegConfig :=
  mkFFmpegConfig "ffmpeg" "ffprobe" "/tmp/streaming" 6.

Definition example_service (env : Env) : Service :=
  mkService "processed-media" "/tmp" (FFmpegProcessor env example_config).

(** The upload of the second profile's playlist fails; nothing else does. *)
Definition env_publish_fails : Env :=
  mkEnv clock_ticking
        (exactly (CPutObject "processed-media" (playlistKey "m1" "720p")))
        tie_by_id two_segments not_cancelled.

Definition env_rejects_renditions : Env :=
  mkEnv clock_ticking rejects_renditions tie_by_id two_segments not_cancelled.

Definition env_segments : Env :=
  mkEnv clock_ticking no_failure tie_by_id two_segments not_cancelled.

(** A WorkItem as the upload service creates it, and the table that holds
    it. *)
Definition media_m1 : Media :=
  mkMedia "m1" MediaStatusPending "raw/m1.mp4" "raw-media" ".mp4" [] None None.

Definition w_m1 : World := mkWorld 0 [] [] [] [("m1", media_m1)] [].

(** The output of the processor for two profiles. *)
Definition example_output : ProcessOutput :=
  mkProcessOutput "m1"
    [ rendition_output "/tmp/streaming/m1" (mkProfile "1080p" 1920 1080 "5000k" "192k" "h264");
      rendition_output "/tmp/streaming/m1" (mkProfile "720p" 1280 720 "2500k" "128k" "h264") ]
    "/tmp/streaming/m1/master.m3u8".

(* ------------------------------------------------------------------ *)
(** * Vocabulary of the further properties *)

(** A sorted set holds a member once. *)
Definition pending_is_set (w : World) : Prop := NoDup (map fst (pending w)).

(** A job is in none of the three Redis keys. *)
Definition in_no_key (job : Job) (w : World) : Prop :=
  ~ In (Encoded job) (map fst (pending w)) /\
  ~ In (Encoded job) (processing w) /\
  ~ In (Encoded job) (dead w).

(** The job as [Enqueue] stamps it at step [n]. *)
Definition stamped (env : Env) (job : Job) (n : nat) : Job :=
  set_CreatedAt job (clock env n).

(** Two jobs are enqueued, then one is dequeued. *)
Definition enqueue2_dequeue (env : Env) (timeout : Go.Duration) (a b : Job)
  : M (option Job * option error) :=
  Enqueue env a ;;; Enqueue env b ;;; Dequeue env timeout.

(** A failed job is handed back and the next job is polled. *)
Definition nack_then_dequeue (env : Env) (timeout : Go.Duration) (job : Job)
  : M (option Job * option error) :=
  Nack env job ;;; Dequeue env timeout.

(** The time at which the item was processed, if it records one. *)
Definition processed_at (id : string) (w : World) : option Go.Time :=
  match row id w with
  | Some m => ProcessedAt m
  | None => None
  end.

(** From [w] to [w'] no item other than that of [id] has changed. *)
Definition other_rows_kept (id : string) (w w' : World) : Prop :=
  forall id', id' <> id -> row id' w' = row id' w.

(** An object of [bucket] whose key lies under the prefix of [mediaID]. *)
Definition under_prefix (bucket mediaID : string) (o : string * string) : Prop :=
  fst o = bucket /\ exists rest, snd o = (mediaID ++ "/" ++ rest)%string.

(** A string holds a character that satisfies [p]. *)
Fixpoint contains (p : ascii -> bool) (s : string) : bool :=
  match s with
  | EmptyString => false
  | String c rest => p c || contains p rest
  end.


(** A member that [Dequeue] decodes to a job which [json.Marshal] accepts
    again. *)
Definition marshalable (m : Member) : Prop :=
  match m with
  | Encoded j => Go.year_in_range (CreatedAt j) = true
  | Opaque _ => True
  end.

Definition pending_marshalable (w : World) : Prop :=
  Forall (fun x => marshalable (fst x)) (pending w).


(** ** Example inputs for the further properties *)

(** One job is pending, stamped and scored as [Enqueue] does for priority
    1. *)
Definition w_pending1 : World :=
  mkWorld 0 [(Encoded (dequeued_job 0), epoch0 - 1000)] [] [] [] [].

(** A member that is not the JSON of a job is pending. *)
Definition w_garbage : World := mkWorld 0 [(Opaque "not json", 0)] [] [] [] [].

(** The processing set rejects the job; nothing else fails. *)
Definition env_no_tracking : Env :=
  mkEnv clock_ticking (exactly (CSAdd defaultProcessingKey (Encoded (dequeued_job 0))))
        tie_by_id no_files not_cancelled.

(** Every [ZADD] fails. *)
Definition zadd_fails (n : nat) (c : Call) : bool :=
  match c with
  | CZAdd _ _ => true
  | _ => false
  end.

Definition env_zadd_fails : Env :=
  mkEnv clock_ticking zadd_fails tie_by_id no_files not_cancelled.

(** The context is cancelled from the third step on. *)
Definition env_cancelled_late : Env :=
  mkEnv clock_ticking no_failure tie_by_id no_files (fun n => Nat.leb 2 n).

(** Every download fails. *)
Definition download_fails (n : nat) (c : Call) : bool :=
  match c with
  | CGetObject _ _ => true
  | _ => false
  end.

Definition env_download_fails : Env :=
  mkEnv clock_ticking download_fails tie_by_id no_files not_cancelled.


(** The two strategies of an audio file and the rendition of the first. *)
Definition audio_high : ProfileConfig := mkProfile "high" 0 0 "" "320k" "".
Definition audio_low : ProfileConfig := mkProfile "low" 0 0 "" "96k" "".

Definition example_input : ProcessInput :=
  mkProcessInput "m1" "/tmp/streaming/m1.mp4" "/tmp/streaming/m1" profiles.

(** An input that asks for one profile of its own. *)
Definition custom_input : ProcessInput :=
  mkProcessInput "m1" "/tmp/streaming/m1.mp4" "/tmp/streaming/m1"
                 [mkProfile "4k" 3840 2160 "20000k" "192k" "h264"].

Definition example_audio_config : Audio.Config := Audio.mkConfig "ffmpeg" "/tmp/streaming" 6.

(** The upload service with the Redis queue, and its environments: one in
    which everything works and one in which the metadata store rejects every
    put. *)
Definition example_upload_service (env : Env) : UploadService.Service :=
  UploadService.mkService "raw-media" (Some (RedisQueue env)).

Definition senv_ok : ServiceEnv := mkServiceEnv env_ok (fun _ _ => false).

Definition put_rejected (n : nat) (c : ServiceCall) : bool :=
  match c with
  | CPutItem _ => true
  | CDeleteObject _ _ => false
  end.

Definition senv_put_rejected : ServiceEnv := mkServiceEnv env_ok put_rejected.

Definition example_request : UploadService.UploadRequest :=
  UploadService.mkUploadRequest "Holiday" "" "u1" "holiday.mp4" "video/mp4".

(* ------------------------------------------------------------------ *)
(** * Properties of the queue *)

Ltac run_monad :=
  unfold call, Now, ecall, ctxDone, lift, tick, modify, get, bind, ret in *;
  cbn [fst snd steps pending processing dead table objects
       with_steps with_pending with_processing with_dead with_table with_objects] in *.

Ltac break_match :=
  match goal with
  | |- context [match ?x with _ => _ end] =>
      lazymatch x with
      | context [match _ with _ => _ end] => fail
      | _ => destruct x eqn:?
      end
  end.

Lemma Member_eqb_refl m : Member_eqb m m = true.
Proof. unfold Member_eqb. destruct (Member_eq_dec m m); congruence. Qed.

Lemma Member_eqb_eq m m' : Member_eqb m m' = true <-> m = m'.
Proof. unfold Member_eqb. destruct (Member_eq_dec m m'); split; congruence. Qed.

Lemma Member_eqb_neq m m' : m <> m' -> Member_eqb m m' = false.
Proof. unfold Member_eqb. destruct (Member_eq_dec m m'); congruence. Qed.

Lemma srem_idempotent m s : Redis.srem m (Redis.srem m s) = Redis.srem m s.
Proof.
  unfold Redis.srem. induction s as [|x s IH]; [reflexivity|].
  cbn. destruct (Member_eqb m x) eqn:E; cbn; [exact IH|]. rewrite E. cbn. now rewrite IH.
Qed.

Lemma srem_absent m s : Redis.smember m s = false -> Redis.srem m s = s.
Proof.
  unfold Redis.srem, Redis.smember. induction s as [|x s IH]; [reflexivity|].
  cbn. intros H. apply orb_false_elim in H. destruct H as [Hx Hs]. rewrite Hx. cbn. now rewrite IH.
Qed.

Lemma Marshal_ok j : Go.year_in_range (CreatedAt j) = true -> Marshal j = Some (Encoded j).
Proof. unfold Marshal. now intros ->. Qed.

(** C8: [Ack] is idempotent.  With the store reachable and a job that
    marshals, [Ack] returns no error whether or not the job is tracked; a
    second [Ack] of the same job returns no error and leaves every store as
    the first one left it; and [Ack] of a job that is not in the processing
    set changes nothing. *)
Theorem Ack_idempotent env job w :
  reliable env ->
  Go.year_in_range (CreatedAt job) = true ->
  let '(err1, w1) := Ack env job w in
  let '(err2, w2) := Ack env job w1 in
  err1 = None /\ err2 = None /\ same_stores w1 w2 /\
  (Redis.smember (Encoded job) (processing w) = false -> same_stores w w1).
Proof.
  intros Hrel Hyear. unfold Ack, SRemProcessing. rewrite (Marshal_ok _ Hyear).
  run_monad. rewrite !Hrel. run_monad.
  unfold same_stores. cbn. rewrite srem_idempotent.
  split; [reflexivity|]. split; [reflexivity|]. split; [repeat split; reflexivity|].
  intros H. repeat split; try reflexivity. cbn. now apply srem_absent.
Qed.

(** ** Enqueue *)

(** What one call of [Enqueue] does, step by step: it reads the clock twice
    and makes one Redis call. *)
Lemma Enqueue_run env job w :
  Enqueue env job w =
    let n := steps w in
    let job' := set_CreatedAt job (clock env n) in
    if Go.year_in_range (clock env n) then
      if fails env (S (S n)) (CZAdd defaultQueueKey (Encoded job')) then
        (job', Some (Errorw "failed to enqueue job" (Failure (CZAdd defaultQueueKey (Encoded job')))),
         with_steps (S (S (S n))) w)
      else
        (job', None,
         with_pending (Redis.zadd (Encoded job') (score_of (clock env (S n)) (Priority job))
                                  (pending w))
                      (with_steps (S (S (S n))) w))
    else (job', Some (Errorw "failed to marshal job" MarshalError), with_steps (S n) w).
Proof.
  unfold Enqueue, ZAdd, Marshal, score_of. run_monad. cbn [CreatedAt set_CreatedAt Priority].
  destruct (Go.year_in_range (clock env (steps w))); [|reflexivity].
  run_monad. destruct (fails env _ _); reflexivity.
Qed.

Lemma In_zadd m sc z : In (m, sc) (Redis.zadd m sc z).
Proof. unfold Redis.zadd. apply in_or_app. right. now left. Qed.

(** C7 (amended): [Enqueue] always sets [CreatedAt] to the current time,
    whether or not the job already carried one; it changes no other field;
    and when it succeeds the pending set holds the job marshalled with that
    new time. *)
Theorem Enqueue_always_stamps env job w :
  let '(job', err, w') := Enqueue env job w in
  CreatedAt job' = clock env (steps w) /\
  ID job' = ID job /\ Type_ job' = Type_ job /\ MediaID job' = MediaID job /\
  Priority job' = Priority job /\ Payload job' = Payload job /\
  Attempts job' = Attempts job /\
  (err = None ->
   In (Encoded job', score_of (clock env (S (steps w))) (Priority job)) (pending w')).
Proof.
  rewrite Enqueue_run. cbv zeta.
  destruct (Go.year_in_range _); [destruct (fails env _ _)|];
    cbn; repeat split; try discriminate.
  intros _. apply In_zadd.
Qed.

(** ** Nack *)

Lemma wrap64_int z : is_int z -> Go.wrap64 z = z.
Proof.
  unfold is_int, Go.wrap64. intros H.
  rewrite Z.mod_small; lia.
Qed.

Lemma Nack_run env job w :
  Go.year_in_range (CreatedAt job) = true ->
  fails env (steps w) (CSRem defaultProcessingKey (Encoded job)) = false ->
  Nack env job w =
    let w1 := with_processing (Redis.srem (Encoded job) (processing w)) (with_steps (S (steps w)) w) in
    let job1 := set_Attempts job (Go.wrap64 (Attempts job + 1)) in
    if Attempts job1 <? 3 then Enqueue env job1 w1
    else if fails env (S (steps w)) (CSAdd deadLetterKey (Encoded job)) then
      (job1, Some (Errorw "failed to add to dead letter queue"
                          (Failure (CSAdd deadLetterKey (Encoded job)))),
       with_steps (S (S (steps w))) w1)
    else (job1, None, with_dead (Redis.sadd (Encoded job) (dead w)) (with_steps (S (S (steps w))) w1)).
Proof.
  intros Hy Hf. unfold Nack, SRemProcessing, SAddDead. rewrite (Marshal_ok _ Hy).
  run_monad. rewrite Hf. run_monad. cbv zeta.
  destruct (_ <? 3); [reflexivity|].
  run_monad. destruct (fails env (S (steps w)) _); reflexivity.
Qed.

Lemma In_sadd m s : In m (Redis.sadd m s).
Proof.
  unfold Redis.sadd, Redis.smember. destruct (existsb _ s) eqn:E.
  - apply existsb_exists in E as [x [Hx E]]. apply Member_eqb_eq in E. now subst.
  - apply in_or_app. right. now left.
Qed.

Lemma In_sadd_inv m x s : In x (Redis.sadd m s) -> x = m \/ In x s.
Proof.
  unfold Redis.sadd. destruct (Redis.smember m s); [now right|].
  intros H. apply in_app_or in H as [H|[H|[]]]; auto.
Qed.

(** C2: what [Nack] does to a job whose retry budget is exhausted.  The
    member put in the dead-letter set is the one marshalled before the
    increment: the job the caller holds counts [Attempts job + 1], and the
    only member the dead-letter set gains records [Attempts job].  The
    pending set is left alone. *)
Theorem Nack_dead_letter_keeps_old_attempts env job w :
  reliable env ->
  Go.year_in_range (CreatedAt job) = true ->
  is_int (Attempts job + 1) ->
  maxAttempts <= Attempts job + 1 ->
  let '(job', err, w') := Nack env job w in
  err = None /\
  Attempts job' = Attempts job + 1 /\
  In (Encoded job) (dead w') /\
  (forall m, In m (dead w') -> In m (dead w) \/ member_attempts m = Some (Attempts job)) /\
  pending w' = pending w.
Proof.
  unfold maxAttempts. intros Hrel Hy Hint Hmax.
  rewrite Nack_run by auto. cbv zeta. cbn [Attempts set_Attempts].
  rewrite wrap64_int by assumption.
  destruct (Z.ltb_spec (Attempts job + 1) 3) as [?|_]; [lia|].
  rewrite Hrel. cbn.
  repeat split.
  - apply In_sadd.
  - intros m Hin. apply In_sadd_inv in Hin as [Heq|Hin]; [|now left].
    right. now subst.
Qed.

(** ** The retry budget *)

Lemma Forall_zrem (P : Member * Z -> Prop) m z :
  Forall P z -> Forall P (Redis.zrem m z).
Proof.
  unfold Redis.zrem. intros H. apply Forall_forall. intros x Hx.
  apply filter_In in Hx as [Hx _]. revert x Hx. now apply Forall_forall.
Qed.

Lemma Forall_zadd (P : Member * Z -> Prop) m sc z :
  P (m, sc) -> Forall P z -> Forall P (Redis.zadd m sc z).
Proof.
  intros Hm Hz. unfold Redis.zadd. apply Forall_app. split.
  - now apply Forall_zrem.
  - now constructor.
Qed.

Lemma zmin_In tie_le best z : In (Redis.zmin tie_le best z) (best :: z).
Proof.
  revert best. induction z as [|x z IH]; intros best; cbn [Redis.zmin]; [now left|].
  specialize (IH (if Redis.before tie_le x best then x else best)).
  destruct (Redis.before tie_le x best); destruct IH as [IH|IH]; cbn; auto.
Qed.

Lemma zmin_least tie_le best z x :
  In x (best :: z) -> snd (Redis.zmin tie_le best z) <= snd x.
Proof.
  revert best x. induction z as [|y z IH]; intros best x Hx; cbn [Redis.zmin].
  - destruct Hx as [<-|[]]. lia.
  - set (c := if Redis.before tie_le y best then y else best).
    assert (Hb : snd c <= snd best /\ snd c <= snd y).
    { unfold c, Redis.before.
      destruct (Z.ltb_spec (snd y) (snd best)); cbn [orb]; [lia|].
      destruct (Z.eqb_spec (snd y) (snd best)); cbn [andb];
        [destruct (tie_le (fst y) (fst best))|]; lia. }
    assert (Hc : snd (Redis.zmin tie_le c z) <= snd c) by (apply IH; now left).
    destruct Hx as [Hx|[Hx|Hx]]; [subst x; lia|subst x; lia|].
    apply IH. now right.
Qed.

Lemma zpopmin_spec tie_le z m rest :
  Redis.zpopmin tie_le z = Some (m, rest) ->
  In m z /\ (forall x, In x z -> snd m <= snd x) /\ rest = Redis.zrem (fst m) z.
Proof.
  destruct z as [|x z]; cbn [Redis.zpopmin]; [discriminate|].
  intros H. injection H as <- <-. split; [apply zmin_In|].
  split; [intros y Hy; now apply zmin_least|reflexivity].
Qed.

Lemma Enqueue_within_budget env job w :
  Attempts job < maxAttempts ->
  pending_within_budget w -> pending_within_budget (snd (Enqueue env job w)).
Proof.
  unfold pending_within_budget. intros Ha Hw. rewrite Enqueue_run. cbv zeta.
  destruct (Go.year_in_range _); [destruct (fails env _ _)|]; cbn; auto.
  apply Forall_zadd; auto.
Qed.

Lemma Nack_within_budget env job w :
  pending_within_budget w -> pending_within_budget (snd (Nack env job w)).
Proof.
  intros Hw. unfold Nack, SRemProcessing, SAddDead, Marshal.
  destruct (Go.year_in_range (CreatedAt job)); [|exact Hw].
  run_monad. destruct (fails env (steps w) _); [exact Hw|]. run_monad.
  cbn [Attempts set_Attempts].
  destruct (Z.ltb_spec (Go.wrap64 (Attempts job + 1)) 3).
  - apply Enqueue_within_budget; [assumption|exact Hw].
  - run_monad. destruct (fails env (S (steps w)) _); exact Hw.
Qed.

Lemma Ack_within_budget env job w :
  pending_within_budget w -> pending_within_budget (snd (Ack env job w)).
Proof.
  intros Hw. unfold Ack, SRemProcessing, Marshal.
  destruct (Go.year_in_range (CreatedAt job)); [|exact Hw].
  run_monad. destruct (fails env (steps w) _); exact Hw.
Qed.

Lemma Dequeue_within_budget env timeout w :
  pending_within_budget w -> pending_within_budget (snd (Dequeue env timeout w)).
Proof.
  intros Hw. unfold Dequeue, BZPopMin, SAddProcessing. run_monad.
  destruct (fails env (steps w) _); [exact Hw|]. run_monad.
  destruct (Redis.zpopmin (tie env) (pending w)) as [[m rest]|] eqn:Hpop; [|exact Hw].
  apply zpopmin_spec in Hpop as (Hin & _ & ->).
  assert (Hrest : Forall (fun x => within_budget (fst x)) (Redis.zrem (fst m) (pending w)))
    by now apply Forall_zrem.
  assert (Hm : within_budget (fst m)).
  { unfold pending_within_budget in Hw. rewrite Forall_forall in Hw. now apply Hw. }
  run_monad. destruct (fst m) as [job|bytes] eqn:Em; cbn [Unmarshal]; [|exact Hrest].
  run_monad. destruct (fails env (S (steps w)) _); [|exact Hrest].
  match goal with |- context [Enqueue env job ?w0] =>
    pose proof (Enqueue_within_budget env job w0 Hm Hrest) as HE;
    destruct (Enqueue env job w0) as [[j' [e|]] w1] end; exact HE.
Qed.

(** ** Scores and the order of dequeues *)

Lemma float64_exact z : - 2 ^ 53 < z < 2 ^ 53 -> Go.float64 z = z.
Proof.
  intros H. unfold Go.float64. cbv zeta.
  destruct (Z.leb_spec (Z.log2 (Z.abs z) - 52) 0) as [_|Hl]; [reflexivity|].
  exfalso. destruct (Z.eq_dec z 0) as [->|Hz]; [cbn in Hl; lia|].
  assert (Z.log2 (Z.abs z) < 53); [|lia].
  apply Z.log2_lt_pow2; lia.
Qed.

Lemma Unix_range t :
  Go.year_in_range t = true -> -62167219200 <= Go.Unix t < 253402300800.
Proof.
  unfold Go.year_in_range. intros H. apply andb_true_iff in H. destruct H as [H1 H2].
  apply Z.leb_le in H1. apply Z.ltb_lt in H2. lia.
Qed.

(** For a date [json.Marshal] accepts and a priority of at most 2^40 in
    magnitude the floating-point score is the exact difference. *)
Lemma score_exact t p :
  Go.year_in_range t = true -> - 2 ^ 40 <= p <= 2 ^ 40 ->
  score_of t p = Go.Unix t - 1000 * p.
Proof.
  intros Ht Hp. apply Unix_range in Ht. unfold score_of, Go.fsub.
  rewrite wrap64_int by (unfold is_int; lia).
  rewrite (float64_exact (Go.Unix t)) by lia.
  rewrite (float64_exact (p * 1000)) by lia.
  rewrite float64_exact by lia. lia.
Qed.

(** A successful [Dequeue], step by step. *)
Lemma Dequeue_run env timeout w job sc rest :
  fails env (steps w) (CBZPopMin defaultQueueKey timeout) = false ->
  fails env (S (steps w)) (CSAdd defaultProcessingKey (Encoded job)) = false ->
  Redis.zpopmin (tie env) (pending w) = Some ((Encoded job, sc), rest) ->
  Dequeue env timeout w =
    (Some job, None,
     with_processing (Redis.sadd (Encoded job) (processing w))
       (with_steps (S (S (steps w))) (with_pending rest w))).
Proof.
  intros H1 H2 Hpop. unfold Dequeue, BZPopMin, SAddProcessing. run_monad.
  rewrite H1. run_monad. rewrite Hpop. run_monad. cbn [Unmarshal]. run_monad.
  rewrite H2. reflexivity.
Qed.

Lemma Dequeue_takes_lowest_score env timeout w job w' :
  Dequeue env timeout w = (Some job, None, w') ->
  exists sc,
    In (Encoded job, sc) (pending w) /\
    (forall x, In x (pending w) -> sc <= snd x) /\
    pending w' = Redis.zrem (Encoded job) (pending w) /\
    processing w' = Redis.sadd (Encoded job) (processing w).
Proof.
  unfold Dequeue, BZPopMin, SAddProcessing, Enqueue, ZAdd. run_monad.
  destruct (fails env (steps w) _); run_monad; [discriminate|].
  destruct (Redis.zpopmin (tie env) (pending w)) as [[[m sc] rest]|] eqn:Hpop;
    run_monad; [|discriminate].
  apply zpopmin_spec in Hpop. destruct Hpop as (Hin & Hmin & ->).
  cbn [fst snd] in *.
  destruct m as [j|bytes]; cbn [Unmarshal]; [|discriminate]. run_monad.
  destruct (fails env (S (steps w)) _); run_monad.
  - repeat (break_match; run_monad); discriminate.
  - intros H. injection H as <- <-. exists sc. cbn. auto.
Qed.

Lemma before_lower tie_le x y : snd x < snd y -> Redis.before tie_le x y = true.
Proof.
  intros H. unfold Redis.before. apply Z.ltb_lt in H. now rewrite H.
Qed.

Lemma before_higher tie_le x y : snd y < snd x -> Redis.before tie_le x y = false.
Proof.
  intros H. unfold Redis.before.
  destruct (Z.ltb_spec (snd x) (snd y)); [lia|].
  destruct (Z.eqb_spec (snd x) (snd y)); [lia|]. reflexivity.
Qed.

Lemma Encoded_neq_ID j j' : ID j <> ID j' -> Encoded j <> Encoded j'.
Proof. intros H E. injection E as E. now subst. Qed.

Lemma Encoded_neq_Priority j j' : Priority j <> Priority j' -> Encoded j <> Encoded j'.
Proof. intros H E. injection E as E. now subst. Qed.

Ltac decide_before :=
  repeat match goal with
  | |- context [Redis.before ?t (?a, ?sa) (?b, ?sb)] =>
      first [ rewrite (before_higher t (a, sa) (b, sb)) by (cbn [fst snd]; lia)
            | rewrite (before_lower t (a, sa) (b, sb)) by (cbn [fst snd]; lia) ]
  end.

Lemma scenarioA_order env timeout w j1 j2 j3 :
  reliable env -> sane_clock env -> pending w = [] ->
  Priority j1 = 5 -> Priority j2 = 1 -> Priority j3 = 5 ->
  ID j1 <> ID j3 ->
  enqueue_second env w 0 < enqueue_second env w 2 ->
  enqueue_second env w 2 - enqueue_second env w 1 < 4000 ->
  enqueue_second env w 0 - enqueue_second env w 1 < 4000 ->
  fst (enqueue3_dequeue3 env timeout j1 j2 j3 w) =
    [ (Some (set_CreatedAt j1 (enqueue_stamp env w 0)), None);
      (Some (set_CreatedAt j3 (enqueue_stamp env w 2)), None);
      (Some (set_CreatedAt j2 (enqueue_stamp env w 1)), None) ].
Proof.
  unfold enqueue_second, enqueue_stamp. cbn [Nat.mul Nat.add].
  intros Hrel Hclk Hw P1 P2 P3 Hid H13 H32 H12.
  unfold enqueue3_dequeue3. unfold bind at 1 2 3.
  rewrite Enqueue_run. cbv zeta. rewrite Hclk, Hrel.
  cbn [steps with_steps with_pending pending].
  rewrite Enqueue_run. cbv zeta. rewrite Hclk, Hrel.
  cbn [steps with_steps with_pending pending].
  rewrite Enqueue_run. cbv zeta. rewrite Hclk, Hrel.
  cbn [steps with_steps with_pending pending].
  rewrite Hw, P1, P2, P3. rewrite !score_exact by (auto; lia).
  set (m1 := Encoded (set_CreatedAt j1 _)).
  set (m2 := Encoded (set_CreatedAt j2 _)).
  set (m3 := Encoded (set_CreatedAt j3 _)).
  assert (N12 : Member_eqb m2 m1 = false).
  { apply Member_eqb_neq, Encoded_neq_Priority. cbn. lia. }
  assert (N13 : Member_eqb m3 m1 = false).
  { apply Member_eqb_neq, Encoded_neq_ID. cbn. congruence. }
  assert (N23 : Member_eqb m3 m2 = false).
  { apply Member_eqb_neq, Encoded_neq_Priority. cbn. lia. }
  assert (N31 : Member_eqb m1 m3 = false).
  { apply Member_eqb_neq, Encoded_neq_ID. cbn. congruence. }
  assert (N21 : Member_eqb m1 m2 = false).
  { apply Member_eqb_neq, Encoded_neq_Priority. cbn. lia. }
  unfold Redis.zadd, Redis.zrem. cbn [filter app fst]. rewrite N12. cbn [negb filter app fst].
  rewrite N13, N23. cbn [negb filter app].
  unfold bind.
  erewrite Dequeue_run; [|apply Hrel|apply Hrel|
    cbn [pending with_pending with_steps Redis.zpopmin Redis.zmin];
    decide_before;
    cbn [Redis.zrem filter fst]; rewrite Member_eqb_refl, N21, N31; cbn [negb]; reflexivity].
  erewrite Dequeue_run; [|apply Hrel|apply Hrel|
    cbn [pending with_pending with_steps with_processing Redis.zpopmin Redis.zmin];
    decide_before;
    cbn [Redis.zrem filter fst]; rewrite Member_eqb_refl, N23; cbn [negb]; reflexivity].
  erewrite Dequeue_run; [|apply Hrel|apply Hrel|
    cbn [pending with_pending with_steps with_processing Redis.zpopmin Redis.zmin];
    cbn [Redis.zrem filter fst]; rewrite Member_eqb_refl; cbn [negb]; reflexivity].
  reflexivity.
Qed.

(** ** The example environments *)

Lemma env_ok_reliable : reliable env_ok.
Proof. intros n c. reflexivity. Qed.

Lemma env_ok_sane_clock : sane_clock env_ok.
Proof.
  intros n. unfold Go.year_in_range, Go.Unix. cbn [clock env_ok]. unfold clock_ticking, epoch0.
  rewrite Z.div_mul by lia.
  apply andb_true_iff. split; [apply Z.leb_le|apply Z.ltb_lt]; lia.
Qed.

(** ** Order of service *)

(** C5 (amended): [Enqueue] scores a job with the clock's second at its
    second reading minus 1000 times the priority; a successful [Dequeue]
    takes a job of the lowest score out of the pending set and tracks it;
    and J1 (priority 5), J2 (priority 1), J3 (priority 5), enqueued in that
    order into an empty queue at seconds u1, u2, u3 with u1 < u3,
    u3 - u2 < 4000 and u1 - u2 < 4000, are dequeued as J1, J3, J2. *)
Theorem queue_order :
  (forall env job w,
     reliable env -> sane_clock env -> - 2 ^ 40 <= Priority job <= 2 ^ 40 ->
     let '(job', err, w') := Enqueue env job w in
     err = None /\
     In (Encoded job', Go.Unix (clock env (S (steps w))) - 1000 * Priority job) (pending w'))
  /\
  (forall env timeout w job w',
     Dequeue env timeout w = (Some job, None, w') ->
     exists sc,
       In (Encoded job, sc) (pending w) /\
       (forall x, In x (pending w) -> sc <= snd x) /\
       pending w' = Redis.zrem (Encoded job) (pending w) /\
       processing w' = Redis.sadd (Encoded job) (processing w))
  /\
  (forall env timeout w j1 j2 j3,
     reliable env -> sane_clock env -> pending w = [] ->
     Priority j1 = 5 -> Priority j2 = 1 -> Priority j3 = 5 ->
     ID j1 <> ID j3 ->
     enqueue_second env w 0 < enqueue_second env w 2 ->
     enqueue_second env w 2 - enqueue_second env w 1 < 4000 ->
     enqueue_second env w 0 - enqueue_second env w 1 < 4000 ->
     fst (enqueue3_dequeue3 env timeout j1 j2 j3 w) =
       [ (Some (set_CreatedAt j1 (enqueue_stamp env w 0)), None);
         (Some (set_CreatedAt j3 (enqueue_stamp env w 2)), None);
         (Some (set_CreatedAt j2 (enqueue_stamp env w 1)), None) ]).
Proof.
  split; [|split].
  - intros env job w Hrel Hclk Hp. rewrite Enqueue_run. cbv zeta.
    rewrite Hclk, Hrel. split; [reflexivity|].
    cbn [pending with_pending]. rewrite <- score_exact by auto. apply In_zadd.
  - exact Dequeue_takes_lowest_score.
  - exact scenarioA_order.
Qed.

(** C5 (amended) on the example: with the clock advancing one second per
    step the three jobs come back as J1, J3, J2. *)
Lemma queue_order_witness :
  dequeued_ids (fst (enqueue3_dequeue3 env_ok 5 J1 J2 J3 w_empty)) =
    [Some "J1"; Some "J3"; Some "J2"].
Proof.
  rewrite (proj2 (proj2 queue_order) env_ok 5 w_empty J1 J2 J3).
  - reflexivity.
  - exact env_ok_reliable.
  - exact env_ok_sane_clock.
  - reflexivity.
  - reflexivity.
  - reflexivity.
  - reflexivity.
  - discriminate.
  - vm_compute. reflexivity.
  - vm_compute. reflexivity.
  - vm_compute. reflexivity.
Defined.

(** C5, as stated, fails.  Enqueued 5000 seconds after J2, J3 is dequeued
    after it; of two jobs of equal priority enqueued in the same second the
    store returns first the one whose bytes come first; and when the second
    changes between the two readings of the clock the score is not the one
    of [CreatedAt]. *)
Lemma late_or_same_second_enqueue_breaks_order :
  dequeued_ids (fst (enqueue3_dequeue3 env_gap 5 J1 J2 J3 w_empty)) =
    [Some "J1"; Some "J2"; Some "J3"]
  /\
  dequeued_ids (fst (enqueue3_dequeue3 env_still 5 U1 U2 U3 w_empty)) =
    [Some (ID U3); Some (ID U1); Some (ID U2)]
  /\
  (let '(job', _, w') := Enqueue env_ok J1 w_empty in
   map snd (pending w') = [1699995001] /\
   Go.Unix (CreatedAt job') - 1000 * Priority job' = 1699995000).
Proof. repeat split; vm_compute; reflexivity. Qed.

Lemma Nack_exhausted_keeps_pending env job w :
  is_int (Attempts job + 1) -> maxAttempts <= Attempts job + 1 ->
  pending (snd (Nack env job w)) = pending w.
Proof.
  unfold maxAttempts. intros Hint Hmax. unfold Nack, SRemProcessing, SAddDead, Marshal.
  destruct (Go.year_in_range (CreatedAt job)); [|reflexivity].
  run_monad. destruct (fails env (steps w) _); [reflexivity|]. run_monad.
  cbn [Attempts set_Attempts]. rewrite wrap64_int by assumption.
  destruct (Z.ltb_spec (Attempts job + 1) 3); [lia|].
  run_monad. destruct (fails env (S (steps w)) _); reflexivity.
Qed.

(** C6: with attempts below [maxAttempts - 1], [Nack] puts the job back in
    the pending set with one more attempt and leaves the dead-letter set
    alone; a job whose attempts reach [maxAttempts] is not put back; and no
    operation of the queue ([Nack], [Ack], [Dequeue] with its compensating
    re-enqueue, and [Enqueue] of a job within its budget) brings a job with
    [maxAttempts] or more attempts into a pending set that had none. *)
Theorem Nack_retries_within_budget :
  (forall env job w,
     reliable env -> sane_clock env ->
     Go.year_in_range (CreatedAt job) = true ->
     is_int (Attempts job) -> Attempts job < maxAttempts - 1 ->
     let '(job', err, w') := Nack env job w in
     err = None /\
     job' = set_CreatedAt (set_Attempts job (Attempts job + 1)) (clock env (S (steps w))) /\
     (exists score, In (Encoded job', score) (pending w')) /\
     dead w' = dead w)
  /\
  (forall env job w,
     is_int (Attempts job + 1) -> maxAttempts <= Attempts job + 1 ->
     pending (snd (Nack env job w)) = pending w)
  /\
  (forall env w,
     pending_within_budget w ->
     (forall job, pending_within_budget (snd (Nack env job w))) /\
     (forall job, pending_within_budget (snd (Ack env job w))) /\
     (forall timeout, pending_within_budget (snd (Dequeue env timeout w))) /\
     (forall job, Attempts job < maxAttempts ->
                  pending_within_budget (snd (Enqueue env job w)))).
Proof.
  split; [|split].
  - unfold maxAttempts, is_int. intros env job w Hrel Hclk Hy Hint Ha.
    rewrite Nack_run by auto. cbv zeta. cbn [Attempts set_Attempts].
    rewrite wrap64_int by (unfold is_int; lia).
    destruct (Z.ltb_spec (Attempts job + 1) 3); [|lia].
    rewrite Enqueue_run. cbv zeta. cbn [steps with_steps with_processing].
    rewrite Hclk, Hrel. cbn [dead with_pending with_steps with_processing pending].
    split; [reflexivity|]. split; [reflexivity|]. split; [|reflexivity].
    eexists. apply In_zadd.
  - exact Nack_exhausted_keeps_pending.
  - intros env w Hw. split; [|split; [|split]]; intros.
    + now apply Nack_within_budget.
    + now apply Ack_within_budget.
    + now apply Dequeue_within_budget.
    + now apply Enqueue_within_budget.
Qed.

(** C6 on the example: the second try of a job fails. *)
Lemma Nack_retries_witness :
  let '(job', err, w') := Nack env_ok (dequeued_job 1) (w_tracking 1) in
  err = None /\
  job' = set_CreatedAt (set_Attempts (dequeued_job 1) 2) (clock env_ok 1) /\
  (exists score, In (Encoded job', score) (pending w')) /\
  dead w' = dead (w_tracking 1).
Proof.
  apply (proj1 Nack_retries_within_budget env_ok (dequeued_job 1) (w_tracking 1)).
  - exact env_ok_reliable.
  - exact env_ok_sane_clock.
  - reflexivity.
  - unfold is_int. cbn. lia.
  - unfold maxAttempts. cbn. lia.
Defined.

(** C2 on the example: the third [Nack] of scenario B. *)
Lemma Nack_dead_letter_witness :
  let '(job', err, w') := Nack env_ok (dequeued_job 2) (w_tracking 2) in
  err = None /\
  Attempts job' = 3 /\
  In (Encoded (dequeued_job 2)) (dead w') /\
  (forall m, In m (dead w') ->
             In m (dead (w_tracking 2)) \/ member_attempts m = Some 2) /\
  pending w' = pending (w_tracking 2).
Proof.
  apply (Nack_dead_letter_keeps_old_attempts env_ok (dequeued_job 2) (w_tracking 2)).
  - exact env_ok_reliable.
  - reflexivity.
  - unfold is_int. cbn. lia.
  - unfold maxAttempts. cbn. lia.
Defined.

(** Scenario B run from the start: the dead-letter set ends with one member,
    which records 2 attempts, while the job the worker holds counts 3. *)
Lemma scenarioB_dead_letter :
  let '(job, w) := scenarioB env_ok 5 J1 w_empty in
  option_map Attempts job = Some 3 /\
  map member_attempts (dead w) = [Some 2] /\
  pending w = [] /\ processing w = [].
Proof. vm_compute. repeat split; reflexivity. Qed.

(** C8 on the examples: a tracked job is acknowledged twice, and a job that
    is not tracked is acknowledged. *)
Lemma Ack_idempotent_witness :
  (let '(err1, w1) := Ack env_ok (dequeued_job 0) (w_tracking 0) in
   let '(err2, w2) := Ack env_ok (dequeued_job 0) w1 in
   err1 = None /\ err2 = None /\ same_stores w1 w2 /\
   (Redis.smember (Encoded (dequeued_job 0)) (processing (w_tracking 0)) = false ->
    same_stores (w_tracking 0) w1))
  /\
  (fst (Ack env_ok (dequeued_job 0) w_empty) = None /\
   same_stores w_empty (snd (Ack env_ok (dequeued_job 0) w_empty))).
Proof.
  split.
  - apply (Ack_idempotent env_ok (dequeued_job 0) (w_tracking 0)).
    + exact env_ok_reliable.
    + reflexivity.
  - pose proof (Ack_idempotent env_ok (dequeued_job 0) w_empty env_ok_reliable eq_refl) as H.
    destruct (Ack env_ok (dequeued_job 0) w_empty) as [err1 w1].
    destruct (Ack env_ok (dequeued_job 0) w1) as [err2 w2].
    destruct H as (H1 & _ & _ & Hsame). split; [exact H1|].
    apply Hsame. reflexivity.
Defined.

(** C7, as stated, fails: a job that carries the time of an earlier enqueue
    gets a new one. *)
Lemma Enqueue_overwrites_CreatedAt :
  CreatedAt (dequeued_job 0) = 1700000000000000000 /\
  CreatedAt (fst (fst (Enqueue env_ok (dequeued_job 0) (with_steps 7 w_empty))))
    = 1700000007000000000.
Proof. split; vm_compute; reflexivity. Qed.

(** C7 (amended) on the example: the job comes back stamped with the time of
    this enqueue, and that is the job the pending set holds. *)
Lemma Enqueue_always_stamps_witness :
  let '(job', err, w') := Enqueue env_ok (dequeued_job 0) (with_steps 7 w_empty) in
  err = None /\
  CreatedAt job' = 1700000007000000000 /\
  Attempts job' = 0 /\
  map fst (pending w') = [Encoded job'].
Proof.
  pose proof (Enqueue_always_stamps env_ok (dequeued_job 0) (with_steps 7 w_empty)) as H.
  destruct (Enqueue env_ok (dequeued_job 0) (with_steps 7 w_empty)) as [[job' err] w'] eqn:E.
  destruct H as (Hc & _ & _ & _ & _ & _ & Ha & _).
  vm_compute in E. injection E as <- <- <-.
  repeat split.
Defined.

(* ------------------------------------------------------------------ *)
(** * Properties of the pipeline *)

(** ** The metadata table *)

Lemma lookup_upsert id f t :
  lookup id (upsert id f t) =
    Some (f (match lookup id t with
             | Some m => m
             | None => mkMedia id MediaStatusPending "" "" "" [] None None
             end)).
Proof.
  induction t as [|[k m] t IH]; cbn.
  - now rewrite String.eqb_refl.
  - destruct (String.eqb k id) eqn:E; cbn; rewrite E; [reflexivity|exact IH].
Qed.

(** ** Calls that leave the stores alone *)

Lemma lift_run {A} (e : Ext A) w :
  lift e w = (fst (e (steps w)), with_steps (snd (e (steps w))) w).
Proof. unfold lift. now destruct (e (steps w)). Qed.

Lemma call_run env c w :
  call env c w = (fails env (steps w) c, with_steps (S (steps w)) w).
Proof. reflexivity. Qed.

(** What a call to the metadata store or to S3 leaves behind: the Redis keys
    are not touched. *)
Definition same_queue (w w' : World) : Prop :=
  pending w' = pending w /\ processing w' = processing w /\ dead w' = dead w.

(** ** UpdateMediaStatus and AddRendition *)

Lemma UpdateMediaStatus_spec env id st w :
  let '(err, w') := UpdateMediaStatus env id st w in
  same_queue w w' /\ objects w' = objects w /\
  (err <> None -> table w' = table w) /\
  (err = None ->
   exists now processed, table w' = upsert id (set_status st now processed) (table w)) /\
  ((forall n, fails env n (CUpdateStatus id st) = false) -> err = None).
Proof.
  unfold UpdateMediaStatus, same_queue. run_monad.
  destruct (MediaStatus_eqb st MediaStatusCompleted); run_monad;
    match goal with |- context [fails env ?n ?c] => destruct (fails env n c) eqn:E end;
    run_monad; repeat split; try congruence; try (intros _; eauto).
  all: try (intros H; rewrite H in E; discriminate).
Qed.

Lemma AddRendition_spec env id r w :
  let '(err, w') := AddRendition env id r w in
  same_queue w w' /\ objects w' = objects w /\
  (err <> None -> table w' = table w) /\
  (err = None ->
   exists now, table w' = upsert id (append_rendition r now) (table w)) /\
  ((forall n, fails env n (CAddRendition id (RName r)) = false) ->
   row id w <> None -> err = None).
Proof.
  unfold AddRendition, same_queue, row. run_monad.
  match goal with |- context [fails env ?n ?c] => destruct (fails env n c) eqn:E end;
    run_monad.
  - repeat split; try congruence; try (intros H; rewrite H in E; discriminate).
  - destruct (lookup id (table w)) eqn:El; run_monad; repeat split; try congruence;
      try (intros _; eauto).
Qed.

(** ** Uploads *)

Lemma appended_refl P w : appended P w w.
Proof.
  unfold appended. repeat split; try reflexivity.
  exists []. now rewrite app_nil_r.
Qed.

Lemma appended_steps P n w : appended P w (with_steps n w).
Proof.
  unfold appended. cbn. repeat split; try reflexivity.
  exists []. now rewrite app_nil_r.
Qed.

Lemma appended_trans P w1 w2 w3 :
  appended P w1 w2 -> appended P w2 w3 -> appended P w1 w3.
Proof.
  unfold appended. intros (?&?&?&?&e1&?&?) (?&?&?&?&e2&?&?).
  repeat split; try congruence.
  exists (e1 ++ e2)%list. split; [|now apply Forall_app].
  rewrite app_assoc. congruence.
Qed.

Lemma appended_weaken (P Q : string * string -> Prop) w w' :
  (forall o, P o -> Q o) -> appended P w w' -> appended Q w w'.
Proof.
  unfold appended. intros HPQ (?&?&?&?&e&?&He). repeat split; try assumption.
  exists e. split; [assumption|]. revert He. apply Forall_impl. exact HPQ.
Qed.

Lemma Upload_spec env bucket key w :
  let '(err, w') := Upload env bucket key w in
  appended (fun o => o = (bucket, key) /\ accepted env o) w w' /\
  (err <> None -> objects w' = objects w) /\
  (err = None -> objects w' = (objects w ++ [(bucket, key)])%list) /\
  ((forall n, fails env n (CPutObject bucket key) = false) -> err = None).
Proof.
  unfold Upload. run_monad.
  destruct (fails env (steps w) (CPutObject bucket key)) eqn:E; run_monad.
  - split; [apply appended_steps|].
    repeat split; try congruence; try (intros H; rewrite H in E; discriminate).
  - split.
    + unfold appended. cbn. repeat split; try reflexivity.
      exists [(bucket, key)]. split; [reflexivity|].
      constructor; [|constructor]. split; [reflexivity|]. now exists (steps w).
    + repeat split; congruence.
Qed.

Lemma uploadFile_spec env bucket key path w :
  let '(err, w') := uploadFile env bucket key path w in
  appended (fun o => o = (bucket, key) /\ accepted env o) w w' /\
  (err <> None -> objects w' = objects w) /\
  (err = None -> objects w' = (objects w ++ [(bucket, key)])%list).
Proof.
  unfold uploadFile, bind. rewrite call_run.
  destruct (fails env (steps w) (COpen path)).
  - unfold ret. split; [apply appended_steps|]. split; [reflexivity|discriminate].
  - pose proof (Upload_spec env bucket key (with_steps (S (steps w)) w)) as H.
    destruct (Upload env bucket key (with_steps (S (steps w)) w)) as [err w'].
    destruct H as (Ha & Hn & Hs & _). split; [exact Ha|split]; auto.
Qed.

Lemma uploadSegments_spec env bucket mediaID name segments : forall w,
  appended (fun o => (fst o = bucket /\
                      exists file, snd o = (mediaID ++ "/" ++ name ++ "/" ++ file)%string)
                     /\ accepted env o)
           w (snd (uploadSegments env bucket mediaID name segments w)).
Proof.
  induction segments as [|seg rest IH]; intros w; cbn [uploadSegments].
  - apply appended_refl.
  - unfold bind.
    pose proof (uploadFile_spec env bucket
                  (mediaID ++ "/" ++ name ++ "/" ++ Base seg)%string seg w) as H.
    destruct (uploadFile env bucket _ seg w) as [err w1].
    destruct H as (Ha & _).
    eapply appended_trans; [|apply IH].
    revert Ha. apply appended_weaken. intros o [-> Hacc]. split; [|exact Hacc].
    cbn. split; [reflexivity|]. now exists (Base seg).
Qed.

Lemma rendition_object_cons bucket mediaID r rs o :
  rendition_object bucket mediaID rs o -> rendition_object bucket mediaID (r :: rs) o.
Proof.
  intros (Hb & r' & file & Hin & Hk). split; [exact Hb|].
  exists r', file. split; [now right|exact Hk].
Qed.

Lemma uploadRenditions_spec env bucket mediaID outputDir renditions : forall w,
  appended (fun o => rendition_object bucket mediaID renditions o /\ accepted env o)
           w (snd (uploadRenditions env bucket mediaID outputDir renditions w)).
Proof.
  induction renditions as [|r rest IH]; intros w; cbn [uploadRenditions].
  - apply appended_refl.
  - assert (Hrest : forall w0,
      appended (fun o => rendition_object bucket mediaID (r :: rest) o /\ accepted env o)
               w0 (snd (uploadRenditions env bucket mediaID outputDir rest w0))).
    { intros w0. generalize (IH w0). apply appended_weaken.
      intros o [Ho Hacc]. split; [now apply rendition_object_cons|exact Hacc]. }
    unfold bind.
    pose proof (uploadFile_spec env bucket
                  (mediaID ++ "/" ++ OName r ++ "/playlist.m3u8")%string
                  (Join (Join outputDir (OName r)) "playlist.m3u8") w) as H.
    destruct (uploadFile env bucket _ _ w) as [err w1].
    destruct H as (Ha & _).
    assert (Ha' : appended
              (fun o => rendition_object bucket mediaID (r :: rest) o /\ accepted env o) w w1).
    { revert Ha. apply appended_weaken. intros o [-> Hacc]. split; [|exact Hacc].
      split; [reflexivity|]. exists r, "playlist.m3u8". split; [now left|reflexivity]. }
    destruct err as [e|].
    + exact (appended_trans _ _ _ _ Ha' (Hrest w1)).
    + unfold Glob. rewrite lift_run. unfold tick, bind.
      cbn [fst snd].
      destruct (fails env (steps w1) _); unfold ret; cbn [fst snd].
      * exact (appended_trans _ _ _ _ Ha' (Hrest (with_steps (S (steps w1)) w1))).
      * pose proof (uploadSegments_spec env bucket mediaID (OName r)
                      (glob_files env (steps w1)
                         (Join (Join outputDir (OName r)) "segment_*.ts"))
                      (with_steps (S (steps w1)) w1)) as Hs.
        destruct (uploadSegments env bucket mediaID (OName r) _ _) as [u w2].
        cbn [snd] in Hs.
        apply (appended_trans _ _ _ _ Ha').
        refine (appended_trans _ _ _ _ _ (Hrest w2)).
        change (appended
                  (fun o => rendition_object bucket mediaID (r :: rest) o /\ accepted env o)
                  (with_steps (S (steps w1)) w1) w2).
        revert Hs. apply appended_weaken. intros o [[Hb [file Hk]] Hacc].
        split; [|exact Hacc]. split; [exact Hb|].
        exists r, file. split; [now left|exact Hk].
Qed.

Lemma uploadProcessedFiles_spec env s mediaID output w :
  let '(err, w') := uploadProcessedFiles env s mediaID output w in
  same_queue w w' /\ table w' = table w /\
  match err with
  | Some _ => objects w' = objects w
  | None =>
      exists others,
        objects w' = (objects w ++ (processedBucket s, masterKey mediaID) :: others)%list /\
        Forall (fun o => rendition_object (processedBucket s) mediaID (OutRenditions output) o
                         /\ accepted env o) others
  end /\
  (fails env (steps w) (COpen (MasterPath output)) = false ->
   fails env (S (steps w)) (CPutObject (processedBucket s) (masterKey mediaID)) = false ->
   err = None).
Proof.
  unfold uploadProcessedFiles, masterKey, same_queue. cbv zeta. unfold bind at 1.
  rewrite call_run.
  destruct (fails env (steps w) (COpen (MasterPath output))).
  - unfold ret. cbn. repeat split; try reflexivity. discriminate.
  - unfold bind at 1.
    unfold Upload at 1. run_monad.
    destruct (fails env (S (steps w)) (CPutObject (processedBucket s) (mediaID ++ "/master.m3u8")));
      run_monad.
    + cbn. repeat split; try reflexivity. discriminate.
    + match goal with |- context [uploadRenditions env ?b ?i ?d ?rs ?w0] =>
        pose proof (uploadRenditions_spec env b i d rs w0) as HR;
        destruct (uploadRenditions env b i d rs w0) as [u w1] end.
      cbn [snd] in HR. destruct HR as (Hp & Hpr & Hd & Ht & others & Ho & HF).
      cbn in Hp, Hpr, Hd, Ht, Ho.
      repeat split; try assumption.
      exists others. split; [|exact HF]. rewrite Ho. now rewrite <- app_assoc.
Qed.

(** C3 (amended): the master manifest is the first object
    [uploadProcessedFiles] uploads; the playlists and segments of the
    renditions follow it; when the function fails nothing was uploaded. *)
Theorem master_manifest_uploaded_first env s mediaID output w :
  let '(err, w') := uploadProcessedFiles env s mediaID output w in
  match err with
  | Some _ => objects w' = objects w
  | None =>
      exists others,
        objects w' = (objects w ++ (processedBucket s, masterKey mediaID) :: others)%list /\
        Forall (rendition_object (processedBucket s) mediaID (OutRenditions output)) others
  end.
Proof.
  pose proof (uploadProcessedFiles_spec env s mediaID output w) as H.
  destruct (uploadProcessedFiles env s mediaID output w) as [[e|] w'].
  - tauto.
  - destruct H as (_ & _ & (others & Ho & HF) & _). exists others. split; [exact Ho|].
    revert HF. apply Forall_impl. tauto.
Qed.

(** ** Recording renditions and setting the status *)

Lemma UpdateMediaStatus_in_progress env id st w :
  st <> MediaStatusCompleted ->
  in_progress id w -> in_progress id (snd (UpdateMediaStatus env id st w)).
Proof.
  intros Hst [Hrow Hs]. pose proof (UpdateMediaStatus_spec env id st w) as H.
  destruct (UpdateMediaStatus env id st w) as [[e|] w']; cbn [snd];
    destruct H as (_ & _ & Hsame & Hset & _).
  - unfold in_progress, status_of, row in *. rewrite Hsame by discriminate. auto.
  - destruct (Hset eq_refl) as (now & processed & Ht).
    unfold in_progress, status_of, row in *. rewrite Ht, lookup_upsert. cbn.
    split; [discriminate|congruence].
Qed.

Lemma markFailed_in_progress env id w :
  in_progress id w -> in_progress id (snd (markFailed env id w)).
Proof.
  intros H. unfold markFailed, bind, ret.
  pose proof (UpdateMediaStatus_in_progress env id MediaStatusFailed w) as HU.
  destruct (UpdateMediaStatus env id MediaStatusFailed w) as [e w']. cbn [snd] in *.
  apply HU; [discriminate|exact H].
Qed.

Lemma UpdateMediaStatus_renditions env id st w :
  row id w <> None ->
  renditions_of id (snd (UpdateMediaStatus env id st w)) = renditions_of id w.
Proof.
  intros Hrow. pose proof (UpdateMediaStatus_spec env id st w) as H.
  destruct (UpdateMediaStatus env id st w) as [[e|] w']; cbn [snd];
    destruct H as (_ & _ & Hsame & Hset & _).
  - unfold renditions_of, row. now rewrite Hsame by discriminate.
  - destruct (Hset eq_refl) as (now & processed & Ht).
    unfold renditions_of, row in *. rewrite Ht, lookup_upsert.
    destruct (lookup id (table w)); [reflexivity|congruence].
Qed.

Lemma recordRenditions_spec env id renditions : forall w m,
  row id w = Some m ->
  let w' := snd (recordRenditions env id renditions w) in
  same_queue w w' /\ objects w' = objects w /\
  exists m',
    row id w' = Some m' /\ Status m' = Status m /\
    ((forall n name, fails env n (CAddRendition id name) = false) ->
     Renditions m' = (Renditions m ++ map (to_rendition id) renditions)%list).
Proof.
  induction renditions as [|r rest IH]; intros w m Hrow; cbv zeta; cbn [recordRenditions].
  - unfold ret, same_queue. cbn. repeat split; try reflexivity.
    exists m. repeat split; [exact Hrow|]. intros _. now rewrite app_nil_r.
  - unfold bind.
    pose proof (AddRendition_spec env id (to_rendition id r) w) as HA.
    destruct (AddRendition env id (to_rendition id r) w) as [err w1].
    destruct HA as (Hq & Ho & Hsame & Hadd & Hok).
    assert (Hrow1 : exists m1,
              row id w1 = Some m1 /\ Status m1 = Status m /\
              ((forall n name, fails env n (CAddRendition id name) = false) ->
               Renditions m1 = (Renditions m ++ [to_rendition id r])%list)).
    { destruct err as [e|].
      - exists m. unfold row in *. rewrite Hsame by discriminate.
        repeat split; [exact Hrow|]. intros Hf.
        exfalso. assert (Some e = None); [|discriminate].
        apply Hok; [intros n; apply Hf|unfold row; congruence].
      - destruct (Hadd eq_refl) as (now & Ht). unfold row in *.
        rewrite Ht, lookup_upsert, Hrow. eexists. split; [reflexivity|]. cbn. auto. }
    destruct Hrow1 as (m1 & Hr1 & Hs1 & Hrs1).
    specialize (IH w1 m1 Hr1). cbv zeta in IH.
    destruct (recordRenditions env id rest w1) as [u w2]. cbn [snd] in *.
    destruct IH as (Hq2 & Ho2 & m2 & Hr2 & Hs2 & Hrs2).
    unfold same_queue in *. repeat split; try (intuition congruence).
    exists m2. repeat split; [exact Hr2|congruence|].
    intros Hf. rewrite (Hrs2 Hf), (Hrs1 Hf). cbn [map]. now rewrite <- app_assoc.
Qed.

(** ** The FFMPEG processor *)

Lemma Execute_from_length env strategies input outputDir : forall results n rs n',
  Execute_from env strategies input outputDir results n = (inl rs, n') ->
  List.length rs = (List.length results + List.length strategies)%nat.
Proof.
  induction strategies as [|st rest IH]; intros results n rs n'; cbn [Execute_from].
  - unfold ret. intros H. injection H as <- _. cbn. lia.
  - unfold ctxDone, ecall, tick, bind, ret.
    destruct (cancelled env n); [discriminate|].
    destruct (fails env (S n) _); [discriminate|].
    intros H. apply IH in H. rewrite H, length_app. cbn. lia.
Qed.

Lemma Execute_from_run env segDur input outputDir profs : forall results n,
  never_cancelled env ->
  (forall n args, fails env n (CFFmpeg args) = false) ->
  exists n',
    Execute_from env (map (fun p => HLSTranscodeStrategy p segDur) profs)
                 input outputDir results n =
      (inl (results ++ map (rendition_output outputDir) profs)%list, n').
Proof.
  induction profs as [|p rest IH]; intros results n Hc Hf; cbn [map Execute_from].
  - exists n. unfold ret. now rewrite app_nil_r.
  - unfold ctxDone, ecall, tick, bind, ret. rewrite Hc, Hf.
    destruct (IH (results ++ [rendition_output outputDir p])%list (S (S n)) Hc Hf) as (n' & HE).
    exists n'. cbn [GetProfile]. unfold rendition_output in HE |- *.
    rewrite HE. now rewrite <- app_assoc.
Qed.

Lemma FFmpeg_Process_nonempty env cfg input n out n' :
  Profiles input <> [] ->
  Process (FFmpegProcessor env cfg) input n = (inl out, n') ->
  OutRenditions out <> [].
Proof.
  intros Hp. cbn [Process FFmpegProcessor]. unfold FFmpeg_Process, Execute, generateMasterPlaylist.
  cbv zeta. unfold ecall, tick, bind, ret.
  destruct (fails env n _); [discriminate|].
  destruct (fails env (S n) _); [discriminate|].
  destruct (Execute_from env _ _ _ [] (S (S n))) as [[rs|e] n1] eqn:HE; [|discriminate].
  destruct (fails env n1 _); [discriminate|].
  intros H. injection H as <- _. cbn [OutRenditions].
  apply Execute_from_length in HE. rewrite length_map in HE. cbn in HE.
  intros ->. cbn in HE. destruct (Profiles input); [congruence|discriminate].
Qed.

(** ** ProcessMedia *)

(** The paths of [ProcessMedia] that end in [markFailed]. *)
Ltac failed_path Hip Hdone :=
  match goal with
  | |- context [markFailed ?env ?i ?w0] =>
      let HM := fresh "HM" in
      pose proof (markFailed_in_progress env i w0 Hip) as HM;
      destruct (markFailed env i w0) as [? ?]; cbn [snd] in *;
      apply Hdone; exact HM
  end.

(** C1 (amended): when the metadata store accepts the rendition appends and
    the processor returns at least one rendition for the four profiles, a
    run of [ProcessMedia] on a WorkItem that was not completed leaves it
    completed only together with a non-empty rendition list. *)
Theorem completed_with_renditions env s mediaID w :
  (forall n name, fails env n (CAddRendition mediaID name) = false) ->
  (forall input n out n',
     Profiles input = profiles ->
     Process (processor s) input n = (inl out, n') -> OutRenditions out <> []) ->
  status_of mediaID w <> Some MediaStatusCompleted ->
  status_of mediaID (snd (ProcessMedia env s mediaID w)) = Some MediaStatusCompleted ->
  renditions_of mediaID (snd (ProcessMedia env s mediaID w)) <> [].
Proof.
  intros HAdd Hproc Hst.
  assert (Hdone : forall w', in_progress mediaID w' ->
            status_of mediaID w' = Some MediaStatusCompleted ->
            renditions_of mediaID w' <> []).
  { intros w' [_ H] H'. contradiction. }
  unfold ProcessMedia, GetMedia, Download, bind, ret, get. cbv zeta.
  rewrite call_run.
  destruct (fails env (steps w) (CGetItem mediaID)); [cbn [snd]; intros H; now elim Hst|].
  cbn [table with_steps].
  destruct (lookup mediaID (table w)) as [media|] eqn:Hrow;
    [|cbn [snd]; intros H; now elim Hst].
  assert (H0 : in_progress mediaID w).
  { split; [unfold row; congruence|exact Hst]. }
  match goal with |- context [UpdateMediaStatus env mediaID MediaStatusProcessing ?w0] =>
    pose proof (UpdateMediaStatus_in_progress env mediaID MediaStatusProcessing w0
                  ltac:(discriminate) H0) as H1;
    destruct (UpdateMediaStatus env mediaID MediaStatusProcessing w0) as [e1 w1] end.
  cbn [snd] in H1.
  rewrite call_run. destruct (fails env (steps w1) _); [failed_path H1 Hdone|].
  rewrite call_run. cbn [steps with_steps].
  destruct (fails env (S (steps w1)) _); [failed_path H1 Hdone|].
  rewrite call_run. cbn [steps with_steps].
  destruct (fails env (S (S (steps w1))) _); [failed_path H1 Hdone|].
  rewrite call_run. cbn [steps with_steps].
  destruct (fails env (S (S (S (steps w1)))) _).
  { rewrite call_run. failed_path H1 Hdone. }
  rewrite lift_run. cbn [steps with_steps].
  match goal with |- context [Process (processor s) ?input ?n] =>
    pose proof (Hproc input n) as Hout;
    destruct (Process (processor s) input n) as [[output|e] n1] end; cbn [fst snd].
  2: { failed_path H1 Hdone. }
  specialize (Hout output n1 eq_refl eq_refl).
  match goal with |- context [uploadProcessedFiles env s mediaID output ?w0] =>
    pose proof (uploadProcessedFiles_spec env s mediaID output w0) as HU;
    destruct (uploadProcessedFiles env s mediaID output w0) as [eu w2] end.
  destruct HU as (_ & Ht2 & _).
  assert (H2 : in_progress mediaID w2).
  { revert H1. unfold in_progress, status_of, row. now rewrite Ht2. }
  destruct eu as [e|]; [failed_path H2 Hdone|].
  destruct (row mediaID w2) as [m2|] eqn:Hrow2; [|now destruct H2].
  pose proof (recordRenditions_spec env mediaID (OutRenditions output) w2 m2 Hrow2) as HR.
  cbv zeta in HR.
  destruct (recordRenditions env mediaID (OutRenditions output) w2) as [u w3].
  cbn [snd] in HR. destruct HR as (_ & _ & m3 & Hrow3 & _ & Hrs3).
  specialize (Hrs3 HAdd).
  pose proof (UpdateMediaStatus_renditions env mediaID MediaStatusCompleted w3) as H4.
  destruct (UpdateMediaStatus env mediaID MediaStatusCompleted w3) as [e4 w4].
  cbn [snd] in H4. rewrite !call_run. cbn [snd]. intros _.
  change (renditions_of mediaID w4 <> []).
  rewrite H4 by congruence.
  unfold renditions_of. rewrite Hrow3, Hrs3.
  destruct (OutRenditions output); [congruence|].
  intros H. apply app_eq_nil in H. destruct H as [_ H]. discriminate.
Qed.

Lemma FFmpeg_Process_run env cfg input n :
  never_cancelled env ->
  (forall n c, (forall b k, c <> CPutObject b k) -> fails env n c = false) ->
  exists n',
    Process (FFmpegProcessor env cfg) input n =
      (inl (mkProcessOutput (InMediaID input)
              (map (rendition_output (Join (tempDir cfg) (InMediaID input))) (Profiles input))
              (Join (Join (tempDir cfg) (InMediaID input)) "master.m3u8")), n').
Proof.
  intros Hc Hok. cbn [Process FFmpegProcessor].
  unfold FFmpeg_Process, Execute, generateMasterPlaylist. cbv zeta.
  unfold ecall, tick, bind, ret.
  rewrite !Hok by discriminate.
  destruct (Execute_from_run env (segmentDuration cfg) (SourcePath input)
              (Join (tempDir cfg) (InMediaID input)) (Profiles input) [] (S (S n)) Hc)
    as (n1 & HE).
  { intros m args. apply Hok. discriminate. }
  rewrite HE. cbn [app]. rewrite Hok by discriminate. eauto.
Qed.

Lemma append_cancel_l (s a b : string) : (s ++ a = s ++ b)%string -> a = b.
Proof.
  induction s as [|c s IH]; cbn; [auto|]. intros H. injection H as H. auto.
Qed.

Lemma length_append (a b : string) :
  String.length (a ++ b) = (String.length a + String.length b)%nat.
Proof. induction a as [|c a IH]; cbn; [reflexivity|now rewrite IH]. Qed.

Lemma masterKey_not_playlistKey mediaID name : masterKey mediaID <> playlistKey mediaID name.
Proof.
  unfold masterKey, playlistKey. intros H. apply append_cancel_l in H.
  apply (f_equal String.length) in H. rewrite !length_append in H. cbn in H. lia.
Qed.

(** C4 (amended): when the upload of the playlist of the second of the four
    video profiles fails and nothing else does, the run returns no error,
    the WorkItem is marked completed, the four renditions are recorded, and
    the master manifest is in the bucket (it was uploaded first); the playlist
    that failed is not. *)
Theorem failed_playlist_upload_still_completes env cfg s mediaID media w :
  processor s = FFmpegProcessor env cfg ->
  never_cancelled env ->
  only_fails env (CPutObject (processedBucket s) (playlistKey mediaID "720p")) ->
  row mediaID w = Some media ->
  let '(err, w') := ProcessMedia env s mediaID w in
  err = None /\
  status_of mediaID w' = Some MediaStatusCompleted /\
  map RName (renditions_of mediaID w') =
    (map RName (Renditions media) ++ ["1080p"; "720p"; "480p"; "360p"])%list /\
  In (processedBucket s, masterKey mediaID) (objects w') /\
  (~ In (processedBucket s, playlistKey mediaID "720p") (objects w) ->
   ~ In (processedBucket s, playlistKey mediaID "720p") (objects w')).
Proof.
  intros Hp Hc Honly Hrow.
  assert (Hok : forall n c,
            c <> CPutObject (processedBucket s) (playlistKey mediaID "720p") ->
            fails env n c = false).
  { intros n c Hne. destruct (fails env n c) eqn:E; [|reflexivity].
    apply Honly in E. contradiction. }
  assert (Hok' : forall n c, (forall b k, c <> CPutObject b k) -> fails env n c = false).
  { intros n c Hne. apply Hok. apply Hne. }
  unfold ProcessMedia, GetMedia, Download, bind, ret, get. cbv zeta.
  rewrite call_run. rewrite Hok by discriminate. cbn [table with_steps].
  unfold row in Hrow. rewrite Hrow.
  match goal with |- context [UpdateMediaStatus env mediaID MediaStatusProcessing ?w0] =>
    pose proof (UpdateMediaStatus_spec env mediaID MediaStatusProcessing w0) as H1;
    destruct (UpdateMediaStatus env mediaID MediaStatusProcessing w0) as [e1 w1] end.
  destruct H1 as (_ & Ho1 & _ & Hset1 & Hnone1).
  specialize (Hnone1 (fun n => Hok n (CUpdateStatus mediaID MediaStatusProcessing)
                                   ltac:(discriminate))). subst e1.
  destruct (Hset1 eq_refl) as (now1 & pr1 & Ht1). clear Hset1.
  cbn [table objects with_steps] in Ht1, Ho1.
  do 4 (rewrite call_run; rewrite Hok by discriminate; cbn [steps with_steps]).
  rewrite lift_run. cbn [steps with_steps]. rewrite Hp.
  match goal with |- context [Process (FFmpegProcessor env cfg) ?input ?n] =>
    destruct (FFmpeg_Process_run env cfg input n Hc Hok') as (n1 & HP) end.
  rewrite HP. cbn [fst snd InMediaID Profiles].
  match goal with |- context [uploadProcessedFiles env s mediaID ?output ?w0] =>
    pose proof (uploadProcessedFiles_spec env s mediaID output w0) as HU;
    destruct (uploadProcessedFiles env s mediaID output w0) as [eu w2] end.
  destruct HU as (_ & Ht2 & Hobj2 & Hnone2).
  cbn [steps with_steps table objects MasterPath] in Ht2, Hobj2, Hnone2.
  rewrite Hnone2 in * by
    (apply Hok; try discriminate;
     intros E; injection E as E; now apply masterKey_not_playlistKey in E).
  clear Hnone2. destruct Hobj2 as (others & Hobj2 & Hacc).
  assert (Hrow2 : row mediaID w2 =
                    Some (set_status MediaStatusProcessing now1 pr1 media)).
  { unfold row. now rewrite Ht2, Ht1, lookup_upsert, Hrow. }
  pose proof (recordRenditions_spec env mediaID
                (map (rendition_output (Join (tempDir cfg) mediaID)) profiles)
                w2 _ Hrow2) as HR.
  cbv zeta in HR. cbn [OutRenditions].
  destruct (recordRenditions env mediaID _ w2) as [u w3].
  cbn [snd] in HR. destruct HR as (_ & Ho3 & m3 & Hrow3 & _ & Hrs3).
  specialize (Hrs3 (fun n name => Hok n (CAddRendition mediaID name) ltac:(discriminate))).
  pose proof (UpdateMediaStatus_spec env mediaID MediaStatusCompleted w3) as H4.
  destruct (UpdateMediaStatus env mediaID MediaStatusCompleted w3) as [e4 w4].
  destruct H4 as (_ & Ho4 & _ & Hset4 & Hnone4).
  specialize (Hnone4 (fun n => Hok n (CUpdateStatus mediaID MediaStatusCompleted)
                                   ltac:(discriminate))). subst e4.
  destruct (Hset4 eq_refl) as (now4 & pr4 & Ht4). clear Hset4.
  rewrite !call_run. cbn [steps with_steps].
  unfold status_of, renditions_of, row. cbn [table objects with_steps].
  unfold row in Hrow3. rewrite Ht4, lookup_upsert, Hrow3. cbn [option_map Status set_status Renditions].
  rewrite Ho4, Ho3, Hobj2, Ho1.
  split; [reflexivity|]. split; [reflexivity|]. split; [|split].
  - rewrite Hrs3. cbn [set_status Renditions]. rewrite map_app. reflexivity.
  - apply in_or_app. right. now left.
  - intros Hn Hin. apply in_app_or in Hin. destruct Hin as [Hin|[Hin|Hin]].
    + now apply Hn.
    + injection Hin as Hin. now apply masterKey_not_playlistKey in Hin.
    + rewrite Forall_forall in Hacc. destruct (Hacc _ Hin) as [_ [n Hn']].
      cbn [fst snd] in Hn'.
      assert (fails env n (CPutObject (processedBucket s) (playlistKey mediaID "720p")) = true)
        by now apply Honly.
      congruence.
Qed.

(** ** The pipeline on the examples *)

Lemma exactly_only_fails clk c tie_le files done :
  only_fails (mkEnv clk (exactly c) tie_le files done) c.
Proof.
  intros n c'. cbn [fails]. unfold exactly.
  destruct (Call_eq_dec c' c); split; congruence.
Qed.

(** C1, as stated, fails: when the metadata store rejects every rendition
    the failures are logged and the WorkItem is marked completed with no
    rendition recorded. *)
Lemma completed_without_renditions :
  status_of "m1" (snd (ProcessMedia env_rejects_renditions
                         (example_service env_rejects_renditions) "m1" w_m1))
    = Some MediaStatusCompleted /\
  renditions_of "m1" (snd (ProcessMedia env_rejects_renditions
                             (example_service env_rejects_renditions) "m1" w_m1)) = [].
Proof. split; vm_compute; reflexivity. Qed.

(** C1 (amended) on the example: everything works, and the completed
    WorkItem has renditions. *)
Lemma completed_with_renditions_witness :
  renditions_of "m1" (snd (ProcessMedia env_segments (example_service env_segments) "m1" w_m1))
    <> [].
Proof.
  apply (completed_with_renditions env_segments (example_service env_segments) "m1" w_m1).
  - intros n name. reflexivity.
  - intros input n out n' Hprofiles.
    apply FFmpeg_Process_nonempty. rewrite Hprofiles. discriminate.
  - vm_compute. discriminate.
  - vm_compute. reflexivity.
Defined.

(** C3, as stated, fails: the master manifest is the first object in the
    bucket, and the last one is a segment. *)
Lemma master_manifest_not_last :
  objects (snd (uploadProcessedFiles env_segments (example_service env_segments)
                  "m1" example_output w_m1)) =
    [ ("processed-media", "m1/master.m3u8");
      ("processed-media", "m1/1080p/playlist.m3u8");
      ("processed-media", "m1/1080p/segment_0000.ts");
      ("processed-media", "m1/1080p/segment_0001.ts");
      ("processed-media", "m1/720p/playlist.m3u8");
      ("processed-media", "m1/720p/segment_0000.ts");
      ("processed-media", "m1/720p/segment_0001.ts") ]
  /\
  ~ uploaded_last ("processed-media", masterKey "m1")
      (objects (snd (uploadProcessedFiles env_segments (example_service env_segments)
                       "m1" example_output w_m1))).
Proof.
  split; [vm_compute; reflexivity|].
  intros [earlier H].
  apply (f_equal (fun l => last l ("", ""))) in H.
  rewrite last_last in H. vm_compute in H. discriminate.
Qed.

(** C4, as stated, fails: with the upload of the second playlist failing the
    WorkItem ends completed, with four renditions, and the master manifest
    is in the bucket. *)
Lemma failed_publish_ends_completed :
  status_of "m1" (snd (ProcessMedia env_publish_fails
                         (example_service env_publish_fails) "m1" w_m1))
    = Some MediaStatusCompleted /\
  List.length (renditions_of "m1" (snd (ProcessMedia env_publish_fails
                                          (example_service env_publish_fails) "m1" w_m1)))
    = 4%nat /\
  In ("processed-media", masterKey "m1")
     (objects (snd (ProcessMedia env_publish_fails
                      (example_service env_publish_fails) "m1" w_m1))).
Proof.
  split; [vm_compute; reflexivity|].
  split; [vm_compute; reflexivity|].
  vm_compute. left. reflexivity.
Qed.

(** C4 (amended) on the example. *)
Lemma failed_playlist_upload_witness :
  let '(err, w') := ProcessMedia env_publish_fails (example_service env_publish_fails)
                                 "m1" w_m1 in
  err = None /\
  status_of "m1" w' = Some MediaStatusCompleted /\
  map RName (renditions_of "m1" w') = ["1080p"; "720p"; "480p"; "360p"] /\
  In ("processed-media", masterKey "m1") (objects w') /\
  (~ In ("processed-media", playlistKey "m1" "720p") (objects w_m1) ->
   ~ In ("processed-media", playlistKey "m1" "720p") (objects w')).
Proof.
  apply (failed_playlist_upload_still_completes env_publish_fails example_config
           (example_service env_publish_fails) "m1" media_m1 w_m1).
  - reflexivity.
  - intros n. reflexivity.
  - apply exactly_only_fails.
  - reflexivity.
Defined.

(* ------------------------------------------------------------------ *)
(** * Properties of the worker *)

Ltac not_in_events :=
  cbn in *; let H := fresh in
  intro H; repeat (destruct H as [H|H]; [discriminate|]); auto.

Lemma Dequeue_returns env timeout w :
  let r := fst (Dequeue env timeout w) in
  fst r <> None <-> snd r = None.
Proof.
  unfold Dequeue, BZPopMin, SAddProcessing, Enqueue, ZAdd. run_monad.
  repeat (break_match; run_monad); split; intro; congruence.
Qed.

Lemma processLoop_no_nil_job env s fuel : forall w,
  ~ In EvNoJob (fst (fst (processLoop env s (RedisQueue env) fuel w))).
Proof.
  induction fuel as [|fuel IH]; intros w; [cbn; tauto|].
  cbn [processLoop]. run_monad.
  destruct (cancelled env (steps w)); [cbn; tauto|].
  cbn [QDequeue QNack QAck RedisQueue].
  match goal with |- context [Dequeue env ?t ?w0] =>
    pose proof (Dequeue_returns env t w0) as HD;
    destruct (Dequeue env t w0) as [[oj oe] w1] end.
  cbn [fst snd] in HD.
  destruct oj as [job|], oe as [e|].
  - specialize (IH w1). destruct (processLoop env s (RedisQueue env) fuel w1) as [[evs b] w2].
    not_in_events.
  - destruct (ProcessMedia env s (MediaID job) w1) as [[e|] w2].
    + destruct (Nack env job w2) as [r w3].
      specialize (IH w3). destruct (processLoop env s (RedisQueue env) fuel w3) as [[evs b] w4].
      not_in_events.
    + destruct (Ack env job w2) as [r w3].
      specialize (IH w3). destruct (processLoop env s (RedisQueue env) fuel w3) as [[evs b] w4].
      not_in_events.
  - specialize (IH w1). destruct (processLoop env s (RedisQueue env) fuel w1) as [[evs b] w2].
    not_in_events.
  - exfalso. apply (proj2 HD); [reflexivity|reflexivity].
Qed.

(** C10: every return of [Dequeue] carries a job exactly when it carries no
    error; the poll of an empty queue returns no job and the error
    [ErrNoJobAvailable]; and the worker's branch for a nil job without an
    error is never taken with the Redis queue. *)
Theorem Dequeue_job_iff_no_error :
  (forall env timeout w,
     fst (fst (Dequeue env timeout w)) <> None <-> snd (fst (Dequeue env timeout w)) = None)
  /\
  (forall env timeout w,
     fails env (steps w) (CBZPopMin defaultQueueKey timeout) = false ->
     pending w = [] ->
     fst (Dequeue env timeout w) = (None, Some ErrNoJobAvailable))
  /\
  (forall env s fuel w,
     ~ In EvNoJob (fst (fst (processLoop env s (RedisQueue env) fuel w)))).
Proof.
  split; [|split].
  - intros env timeout w. apply Dequeue_returns.
  - intros env timeout w Hf Hp. unfold Dequeue, BZPopMin. run_monad.
    rewrite Hf. run_monad. rewrite Hp. reflexivity.
  - intros env s fuel w. apply processLoop_no_nil_job.
Qed.

(** C10 on an empty queue: the poll ends with no job and the error
    [ErrNoJobAvailable]. *)
Lemma Dequeue_timeout_witness :
  fst (Dequeue env_ok 5 w_empty) = (None, Some ErrNoJobAvailable).
Proof.
  apply (proj1 (proj2 Dequeue_job_iff_no_error) env_ok 5 w_empty); reflexivity.
Defined.

(** C9: on every pass the loop calls [Dequeue] with the same timeout, and
    that timeout is 5 nanoseconds, not 5 seconds. *)
Theorem processLoop_poll_timeout env s q fuel : forall w,
  Forall poll_timeout_of (fst (fst (processLoop env s q fuel w))).
Proof.
  assert (H5 : poll_timeout_of (EvDequeue 5)).
  { cbn. unfold Go.Nanosecond, Go.Second. lia. }
  induction fuel as [|fuel IH]; intros w; [constructor|].
  cbn [processLoop]. run_monad.
  destruct (cancelled env (steps w)); [constructor|].
  destruct (QDequeue q 5 _) as [[oj oe] w1].
  destruct oj as [job|], oe as [e|].
  - specialize (IH w1). destruct (processLoop env s q fuel w1) as [[evs b] w2].
    cbn [fst snd] in *. repeat (constructor; [first [exact H5 | exact I]|]). exact IH.
  - destruct (ProcessMedia env s (MediaID job) w1) as [[e|] w2].
    + destruct (QNack q job w2) as [r w3].
      specialize (IH w3). destruct (processLoop env s q fuel w3) as [[evs b] w4].
      cbn [fst snd] in *. repeat (constructor; [first [exact H5 | exact I]|]). exact IH.
    + destruct (QAck q job w2) as [r w3].
      specialize (IH w3). destruct (processLoop env s q fuel w3) as [[evs b] w4].
      cbn [fst snd] in *. repeat (constructor; [first [exact H5 | exact I]|]). exact IH.
  - specialize (IH w1). destruct (processLoop env s q fuel w1) as [[evs b] w2].
    cbn [fst snd] in *. repeat (constructor; [first [exact H5 | exact I]|]). exact IH.
  - specialize (IH w1). destruct (processLoop env s q fuel w1) as [[evs b] w2].
    cbn [fst snd] in *. repeat (constructor; [first [exact H5 | exact I]|]). exact IH.
Qed.

(* ------------------------------------------------------------------ *)
(** * Further properties of the queue *)

Lemma In_srem x m s : In x (Redis.srem m s) <-> In x s /\ x <> m.
Proof.
  unfold Redis.srem. rewrite filter_In. split; intros [H1 H2]; split; auto.
  - intros ->. rewrite Member_eqb_refl in H2. discriminate.
  - rewrite Member_eqb_neq; auto.
Qed.

Lemma smember_false m s : Redis.smember m s = false <-> ~ In m s.
Proof.
  unfold Redis.smember. split.
  - intros H Hin. assert (existsb (Member_eqb m) s = true); [|congruence].
    apply existsb_exists. exists m. split; [exact Hin|apply Member_eqb_refl].
  - intros H. destruct (existsb (Member_eqb m) s) eqn:E; [|reflexivity].
    apply existsb_exists in E. destruct E as (x & Hx & E).
    apply Member_eqb_eq in E. subst x. contradiction.
Qed.

Lemma srem_sadd_fresh m s : ~ In m s -> Redis.srem m (Redis.sadd m s) = s.
Proof.
  intros H. unfold Redis.sadd. rewrite (proj2 (smember_false m s) H).
  unfold Redis.srem. rewrite filter_app. cbn. rewrite Member_eqb_refl. cbn.
  rewrite app_nil_r. apply (srem_absent m s). now apply smember_false.
Qed.

Lemma Ack_run env job w :
  Go.year_in_range (CreatedAt job) = true ->
  fails env (steps w) (CSRem defaultProcessingKey (Encoded job)) = false ->
  Ack env job w =
    (None, with_processing (Redis.srem (Encoded job) (processing w))
             (with_steps (S (steps w)) w)).
Proof.
  intros Hy Hf. unfold Ack, SRemProcessing. rewrite (Marshal_ok _ Hy).
  run_monad. rewrite Hf. reflexivity.
Qed.

(** X1: [Ack] finds the entry to remove by the bytes of the job it is given.
    Handed a job that differs in any field from the one that is tracked, it
    returns no error and the tracked entry stays; in general it removes the
    entry of its argument and no other, and touches no other key. *)
Theorem Ack_matches_by_value env job w :
  reliable env ->
  Go.year_in_range (CreatedAt job) = true ->
  let '(err, w') := Ack env job w in
  err = None /\
  ~ In (Encoded job) (processing w') /\
  (forall tracked, tracked <> job ->
     (In (Encoded tracked) (processing w') <-> In (Encoded tracked) (processing w))) /\
  pending w' = pending w /\ dead w' = dead w.
Proof.
  intros Hrel Hy. rewrite Ack_run by auto. cbn.
  split; [reflexivity|]. split; [|split; [|split; reflexivity]].
  - rewrite In_srem. tauto.
  - intros tracked Hne. rewrite In_srem. split; [tauto|].
    intros H. split; [exact H|]. intros E. injection E as E. contradiction.
Qed.

(** X2: [Dequeue] followed by [Ack] of the job it returned: the job has left the
    pending set and the processing set is what it was before. *)
Theorem Dequeue_then_Ack env timeout w job w1 :
  reliable env ->
  Dequeue env timeout w = (Some job, None, w1) ->
  Go.year_in_range (CreatedAt job) = true ->
  ~ In (Encoded job) (processing w) ->
  let '(err, w2) := Ack env job w1 in
  err = None /\
  processing w2 = processing w /\
  pending w2 = Redis.zrem (Encoded job) (pending w) /\
  dead w2 = dead w /\ table w2 = table w /\ objects w2 = objects w.
Proof.
  intros Hrel HD Hy Hfresh.
  destruct (Dequeue_takes_lowest_score env timeout w job w1 HD) as (sc & _ & _ & Hp & Hpr).
  assert (Hothers : dead w1 = dead w /\ table w1 = table w /\ objects w1 = objects w).
  { revert HD. unfold Dequeue, BZPopMin, SAddProcessing, Enqueue, ZAdd. run_monad.
    repeat (break_match; run_monad); intros H; try discriminate;
      injection H as _ <-; cbn; auto. }
  rewrite Ack_run by auto. cbn. rewrite Hpr, Hp, srem_sadd_fresh by assumption.
  tauto.
Qed.

(** X3: When the popped job cannot be added to the processing set, [Dequeue]
    returns no job and an error, and the processing and dead-letter sets are
    as before.  The job goes back to the pending set, stamped with the time of
    the retry, when the compensating [Enqueue] succeeds; when that fails too
    the job is in no key any more. *)
Theorem Dequeue_tracking_failure env timeout w job sc rest :
  fails env (steps w) (CBZPopMin defaultQueueKey timeout) = false ->
  Redis.zpopmin (tie env) (pending w) = Some ((Encoded job, sc), rest) ->
  fails env (S (steps w)) (CSAdd defaultProcessingKey (Encoded job)) = true ->
  let '(r, w') := Dequeue env timeout w in
  let n := S (S (steps w)) in
  let job' := stamped env job n in
  fst r = None /\ snd r <> None /\
  processing w' = processing w /\ dead w' = dead w /\
  (Go.year_in_range (clock env n) = true ->
   fails env (S (S n)) (CZAdd defaultQueueKey (Encoded job')) = false ->
   pending w' = Redis.zadd (Encoded job') (score_of (clock env (S n)) (Priority job)) rest) /\
  (Go.year_in_range (clock env n) = false \/
   fails env (S (S n)) (CZAdd defaultQueueKey (Encoded job')) = true ->
   pending w' = rest).
Proof.
  intros H1 Hpop H2. unfold Dequeue, BZPopMin, SAddProcessing. run_monad.
  rewrite H1. run_monad. rewrite Hpop. run_monad. cbn [Unmarshal]. run_monad.
  rewrite H2. run_monad. rewrite Enqueue_run. cbv zeta. cbn [steps with_steps with_pending].
  unfold stamped.
  destruct (Go.year_in_range (clock env (S (S (steps w))))) eqn:Ey;
    [destruct (fails env (S (S (S (S (steps w))))) _) eqn:Ef|];
    cbn [fst snd pending processing dead with_steps with_pending];
    (split; [reflexivity|]); (split; [discriminate|]);
    (split; [reflexivity|]); (split; [reflexivity|]);
    (split; [intros; try reflexivity; try discriminate|intros [?|?]; try reflexivity; try discriminate]).
Qed.

(** X4: A pending member that does not decode as a job is taken out of the
    pending set by [Dequeue], which returns an error; the member is put in
    no other key. *)
Theorem Dequeue_drops_undecodable env timeout w bytes sc rest :
  fails env (steps w) (CBZPopMin defaultQueueKey timeout) = false ->
  Redis.zpopmin (tie env) (pending w) = Some ((Opaque bytes, sc), rest) ->
  let '(r, w') := Dequeue env timeout w in
  r = (None, Some (Errorw "failed to unmarshal job" UnmarshalError)) /\
  pending w' = Redis.zrem (Opaque bytes) (pending w) /\
  processing w' = processing w /\ dead w' = dead w.
Proof.
  intros H1 Hpop. unfold Dequeue, BZPopMin. run_monad.
  rewrite H1. run_monad. rewrite Hpop. run_monad. cbn [Unmarshal]. run_monad.
  apply zpopmin_spec in Hpop. destruct Hpop as (_ & _ & ->).
  repeat split; reflexivity.
Qed.

Lemma zmember_false m z : Redis.zmember m z = false <-> ~ In m (map fst z).
Proof.
  unfold Redis.zmember. split.
  - intros H Hin. apply in_map_iff in Hin. destruct Hin as (x & <- & Hx).
    assert (existsb (fun x0 => Member_eqb (fst x) (fst x0)) z = true); [|congruence].
    apply existsb_exists. exists x. split; [exact Hx|apply Member_eqb_refl].
  - intros H. destruct (existsb _ z) eqn:E; [|reflexivity].
    apply existsb_exists in E. destruct E as (x & Hx & E).
    apply Member_eqb_eq in E. subst m. exfalso. apply H. now apply in_map.
Qed.

Lemma zrem_cons m x z :
  Redis.zrem m (x :: z) =
    if negb (Member_eqb m (fst x)) then x :: Redis.zrem m z else Redis.zrem m z.
Proof. reflexivity. Qed.

Lemma zrem_absent m z : ~ In m (map fst z) -> Redis.zrem m z = z.
Proof.
  induction z as [|x z IH]; [reflexivity|]. cbn [map In]. intros H.
  rewrite zrem_cons, Member_eqb_neq by (intros E; apply H; left; now rewrite E).
  cbn [negb]. f_equal. apply IH. tauto.
Qed.

Lemma zrem_present m z :
  NoDup (map fst z) -> In m (map fst z) ->
  S (List.length (Redis.zrem m z)) = List.length z.
Proof.
  induction z as [|x z IH]; cbn [map In List.length]; [tauto|]. intros Hnd Hin.
  apply NoDup_cons_iff in Hnd. destruct Hnd as [Hx Hnd]. rewrite zrem_cons.
  destruct (Member_eq_dec m (fst x)) as [->|Hne].
  - rewrite Member_eqb_refl. cbn [negb]. now rewrite zrem_absent.
  - rewrite Member_eqb_neq by assumption. cbn [negb List.length]. f_equal.
    apply IH; [assumption|].
    destruct Hin as [E|Hin]; [congruence|assumption].
Qed.

Lemma In_map_zrem x m z :
  In x (map fst (Redis.zrem m z)) <-> In x (map fst z) /\ x <> m.
Proof.
  unfold Redis.zrem. rewrite !in_map_iff. split.
  - intros (y & <- & Hy). apply filter_In in Hy. destruct Hy as [Hy Hb]. split.
    + now exists y.
    + intros E. rewrite E, Member_eqb_refl in Hb. discriminate.
  - intros [(y & <- & Hy) Hne]. exists y. split; [reflexivity|].
    apply filter_In. split; [assumption|]. rewrite Member_eqb_neq; auto.
Qed.

Lemma NoDup_zrem m z : NoDup (map fst z) -> NoDup (map fst (Redis.zrem m z)).
Proof.
  induction z as [|x z IH]; [auto|]. cbn [map]. intros Hnd.
  apply NoDup_cons_iff in Hnd. destruct Hnd as [Hx Hnd]. rewrite zrem_cons.
  destruct (negb (Member_eqb m (fst x))); cbn [map]; [|auto].
  constructor; [|auto]. intros H. apply In_map_zrem in H. tauto.
Qed.

Lemma NoDup_zadd m sc z : NoDup (map fst z) -> NoDup (map fst (Redis.zadd m sc z)).
Proof.
  intros H. unfold Redis.zadd. rewrite map_app. cbn.
  apply NoDup_app; [now apply NoDup_zrem|repeat constructor; auto|].
  intros x Hx [<-|[]]. apply In_map_zrem in Hx. tauto.
Qed.

(** X5: [Len] counts the pending members, and the pending set stays a set.
    A successful [Enqueue] raises the count by one, unless a member equal to
    the stamped job, byte for byte, is already pending: then it only
    replaces that member's score.  A successful [Dequeue] lowers the count
    by one. *)
Theorem Len_counts_pending env w :
  reliable env -> sane_clock env -> pending_is_set w ->
  let len w := fst (fst (Len env w)) in
  len w = Z.of_nat (List.length (pending w)) /\
  (forall job,
     let w' := snd (Enqueue env job w) in
     pending_is_set w' /\
     len w' = if Redis.zmember (Encoded (stamped env job (steps w))) (pending w)
              then len w else len w + 1) /\
  (forall timeout job w',
     Dequeue env timeout w = (Some job, None, w') ->
     pending_is_set w' /\ len w' = len w - 1).
Proof.
  intros Hrel Hsane Hset len.
  assert (Hlen : forall v, len v = Z.of_nat (List.length (pending v))).
  { intros v. unfold len, Len, ZCard. run_monad. now rewrite Hrel. }
  split; [apply Hlen|]. split.
  - intros job. rewrite Enqueue_run. cbv zeta. rewrite Hsane, Hrel.
    cbn [snd]. rewrite !Hlen. unfold pending_is_set. cbn [pending with_pending with_steps].
    split; [now apply NoDup_zadd|].
    unfold stamped, Redis.zadd. rewrite length_app. cbn [List.length].
    destruct (Redis.zmember _ (pending w)) eqn:E.
    + assert (Hin : In (Encoded (set_CreatedAt job (clock env (steps w)))) (map fst (pending w))).
      { destruct (in_dec Member_eq_dec (Encoded (set_CreatedAt job (clock env (steps w))))
                    (map fst (pending w))) as [H|H]; [exact H|].
        apply zmember_false in H. congruence. }
      pose proof (zrem_present _ _ Hset Hin). lia.
    + apply zmember_false in E. rewrite zrem_absent by exact E. lia.
  - intros timeout job w' HD.
    destruct (Dequeue_takes_lowest_score env timeout w job w' HD) as (sc & Hin & _ & Hp & _).
    rewrite !Hlen. unfold pending_is_set. rewrite Hp. split; [now apply NoDup_zrem|].
    assert (Hin' : In (Encoded job) (map fst (pending w))).
    { apply in_map_iff. now exists (Encoded job, sc). }
    pose proof (zrem_present _ _ Hset Hin'). lia.
Qed.

(** X6: [Nack] is two Redis commands, not one transaction: when the second one
    fails (the [ZADD] of the retry, or the [SADD] to the dead-letter set)
    the job has already left the processing set, and it is in the pending set
    and the dead-letter set only if it was there before. *)
Theorem Nack_second_command_fails env job w :
  Go.year_in_range (CreatedAt job) = true ->
  is_int (Attempts job + 1) ->
  fails env (steps w) (CSRem defaultProcessingKey (Encoded job)) = false ->
  (if Attempts job + 1 <? maxAttempts
   then fails env (S (S (S (steps w))))
          (CZAdd defaultQueueKey
             (Encoded (stamped env (set_Attempts job (Attempts job + 1)) (S (steps w))))) = true
   else fails env (S (steps w)) (CSAdd deadLetterKey (Encoded job)) = true) ->
  let '(_, err, w') := Nack env job w in
  err <> None /\
  ~ In (Encoded job) (processing w') /\
  pending w' = pending w /\ dead w' = dead w.
Proof.
  unfold maxAttempts, stamped. intros Hy Hint Hrem Hfail.
  rewrite Nack_run by assumption. cbv zeta. cbn [Attempts set_Attempts].
  rewrite wrap64_int in * by exact Hint.
  destruct (Attempts job + 1 <? 3).
  - rewrite Enqueue_run. cbv zeta. cbn [steps with_steps with_processing].
    destruct (Go.year_in_range (clock env (S (steps w)))).
    + rewrite Hfail. cbn. split; [discriminate|]. rewrite In_srem. tauto.
    + cbn. split; [discriminate|]. rewrite In_srem. tauto.
  - rewrite Hfail. cbn. split; [discriminate|]. rewrite In_srem. tauto.
Qed.

(** X7: Two jobs [a], [b] enqueued in that order into an empty queue, at the
    seconds [ta] and [tb]: the later job [b] is dequeued first when its
    priority exceeds that of [a] by more than [(tb - ta) / 1000], and [a] is
    dequeued first when it does not reach that.  So a step of priority is
    worth 1000 seconds of waiting, and jobs of equal priority enqueued in
    different seconds leave in the order of arrival. *)
Theorem two_jobs_order env timeout a b w :
  reliable env -> sane_clock env -> pending w = [] ->
  - 2 ^ 40 <= Priority a <= 2 ^ 40 -> - 2 ^ 40 <= Priority b <= 2 ^ 40 ->
  ID a <> ID b ->
  let ta := enqueue_second env w 0 in
  let tb := enqueue_second env w 1 in
  let first := fst (enqueue2_dequeue env timeout a b w) in
  (tb - ta < 1000 * (Priority b - Priority a) ->
   first = (Some (set_CreatedAt b (enqueue_stamp env w 1)), None)) /\
  (1000 * (Priority b - Priority a) < tb - ta ->
   first = (Some (set_CreatedAt a (enqueue_stamp env w 0)), None)).
Proof.
  unfold enqueue_second, enqueue_stamp. cbn [Nat.mul Nat.add].
  intros Hrel Hclk Hw Pa Pb Hid. cbv zeta.
  set (ma := Encoded (set_CreatedAt a (clock env (steps w)))).
  set (mb := Encoded (set_CreatedAt b (clock env (S (S (S (steps w))))))).
  assert (Nba : Member_eqb mb ma = false).
  { apply Member_eqb_neq, Encoded_neq_ID. cbn. congruence. }
  assert (Nab : Member_eqb ma mb = false).
  { apply Member_eqb_neq, Encoded_neq_ID. cbn. congruence. }
  assert (Hrun : enqueue2_dequeue env timeout a b w =
            Dequeue env timeout
              (with_pending
                 [(ma, Go.Unix (clock env (S (steps w))) - 1000 * Priority a);
                  (mb, Go.Unix (clock env (S (S (S (S (steps w)))))) - 1000 * Priority b)]
                 (with_steps (S (S (S (S (S (S (steps w)))))))
                    (with_pending
                       [(ma, Go.Unix (clock env (S (steps w))) - 1000 * Priority a)]
                       (with_steps (S (S (S (steps w)))) w))))).
  { unfold enqueue2_dequeue. unfold bind at 1 2.
    rewrite Enqueue_run. cbv zeta. rewrite Hclk, Hrel.
    cbn [steps with_steps with_pending pending].
    rewrite Enqueue_run. cbv zeta. rewrite Hclk, Hrel.
    cbn [steps with_steps with_pending pending].
    rewrite Hw. rewrite !score_exact by (auto; lia). fold ma mb.
    unfold Redis.zadd, Redis.zrem. cbn [filter app fst]. rewrite Nba. reflexivity. }
  rewrite Hrun. clear Hrun.
  split; intros Hlt.
  - erewrite Dequeue_run; [reflexivity|apply Hrel|apply Hrel|
      cbn [pending with_pending with_steps Redis.zpopmin Redis.zmin];
      decide_before;
      cbn [Redis.zrem filter fst]; rewrite Member_eqb_refl, Nba; cbn [negb]; reflexivity].
  - erewrite Dequeue_run; [reflexivity|apply Hrel|apply Hrel|
      cbn [pending with_pending with_steps Redis.zpopmin Redis.zmin];
      decide_before;
      cbn [Redis.zrem filter fst]; rewrite Member_eqb_refl, Nab; cbn [negb]; reflexivity].
Qed.

(** X8: The retry cycle: [Nack] of a job with attempts to spare, then [Dequeue]
    on an otherwise empty queue, hands the job back with one more attempt
    and the time of the retry; that is the entry now tracked, the entry of
    the failed try is gone, and nothing is dead-lettered. *)
Theorem Nack_then_Dequeue env timeout job w :
  reliable env -> sane_clock env ->
  Go.year_in_range (CreatedAt job) = true ->
  is_int (Attempts job) -> Attempts job < maxAttempts - 1 ->
  pending w = [] ->
  let '(r, w') := nack_then_dequeue env timeout job w in
  let job' := set_CreatedAt (set_Attempts job (Attempts job + 1)) (clock env (S (steps w))) in
  r = (Some job', None) /\
  In (Encoded job') (processing w') /\
  ~ In (Encoded job) (processing w') /\
  pending w' = [] /\ dead w' = dead w.
Proof.
  unfold maxAttempts, is_int. intros Hrel Hclk Hy Hint Hlt Hw.
  unfold nack_then_dequeue, bind.
  rewrite Nack_run by auto. cbv zeta. cbn [Attempts set_Attempts].
  rewrite wrap64_int by (unfold is_int; lia).
  destruct (Z.ltb_spec (Attempts job + 1) 3) as [_|]; [|lia].
  rewrite Enqueue_run. cbv zeta. rewrite Hclk, Hrel.
  cbn [steps with_steps with_pending with_processing pending]. rewrite Hw.
  set (job' := set_CreatedAt _ _).
  erewrite Dequeue_run; [|apply Hrel|apply Hrel|
    cbn [pending with_pending with_steps with_processing Redis.zadd Redis.zrem filter app
         Redis.zpopmin Redis.zmin fst];
    rewrite Member_eqb_refl; cbn [negb]; reflexivity].
  cbn [processing pending dead with_processing with_pending with_steps].
  split; [reflexivity|]. split; [apply In_sadd|]. split; [|split; reflexivity].
  intros H. apply In_sadd_inv in H. destruct H as [H|H].
  - assert (E : Attempts job = Attempts job') by (injection H as H; now rewrite H).
    subst job'. cbn in E. lia.
  - apply In_srem in H. tauto.
Qed.

(* ------------------------------------------------------------------ *)
(** * Further properties of the executor and the processors *)

Lemma Execute_from_app env pre rest input outputDir : forall results n,
  Execute_from env (pre ++ rest) input outputDir results n =
    match Execute_from env pre input outputDir results n with
    | (inl rs, n0) => Execute_from env rest input outputDir rs n0
    | (inr e, n0) => (inr e, n0)
    end.
Proof.
  induction pre as [|st pre IH]; intros results n; cbn [app Execute_from].
  - reflexivity.
  - unfold ctxDone, ecall, tick, bind, ret.
    destruct (cancelled env n); [reflexivity|].
    destruct (fails env (S n) _); [reflexivity|]. apply IH.
Qed.

Lemma Execute_from_results env strategies input outputDir : forall results n rs n',
  Execute_from env strategies input outputDir results n = (inl rs, n') ->
  rs = (results ++ map (fun st => rendition_output outputDir (GetProfile st)) strategies)%list /\
  n' = (n + 2 * List.length strategies)%nat /\
  (forall i st, nth_error strategies i = Some st ->
     cancelled env (n + 2 * i) = false /\
     fails env (S (n + 2 * i)) (CFFmpeg (BuildCommand st input outputDir)) = false).
Proof.
  induction strategies as [|st rest IH]; intros results n rs n'; cbn [Execute_from].
  - unfold ret. intros H. injection H as <- <-. cbn [map List.length].
    rewrite app_nil_r. split; [reflexivity|]. split; [lia|].
    intros [|i] st' H; discriminate.
  - unfold ctxDone, ecall, tick, bind, ret.
    destruct (cancelled env n) eqn:Ec; [discriminate|].
    destruct (fails env (S n) _) eqn:Ef; [discriminate|].
    intros H. apply IH in H. destruct H as (-> & -> & Hall).
    split; [|split].
    + cbn [map]. rewrite <- app_assoc. reflexivity.
    + cbn [List.length]. lia.
    + intros [|i] st' Hnth; cbn [nth_error] in Hnth.
      * injection Hnth as <-. rewrite Nat.mul_0_r, Nat.add_0_r. auto.
      * specialize (Hall i st' Hnth).
        replace (n + 2 * S i)%nat with (S (S n) + 2 * i)%nat by lia. exact Hall.
Qed.

(** X9: When [Execute] returns renditions, every strategy's command was run,
    one after the other, with the context not cancelled before it, and
    succeeded; the renditions are those of the strategies' profiles, in the
    order of the strategies, each with bit rate 0 and no segment paths. *)
Theorem Execute_success env strategies input outputDir n rs n' :
  Execute env strategies input outputDir n = (inl rs, n') ->
  rs = map (fun st => rendition_output outputDir (GetProfile st)) strategies /\
  n' = (n + 2 * List.length strategies)%nat /\
  (forall i st, nth_error strategies i = Some st ->
     cancelled env (n + 2 * i) = false /\
     fails env (S (n + 2 * i)) (CFFmpeg (BuildCommand st input outputDir)) = false) /\
  (forall r, In r rs -> OBitrate r = 0 /\ SegmentPaths r = []).
Proof.
  unfold Execute. intros H. apply Execute_from_results in H.
  destruct H as (-> & -> & Hall). cbn [app].
  split; [reflexivity|]. split; [reflexivity|]. split; [exact Hall|].
  intros r Hr. apply in_map_iff in Hr. destruct Hr as (st & <- & _). split; reflexivity.
Qed.

(** X10: [Execute] stops at the first strategy that cannot run.  After the
    strategies [pre] have run, a cancelled context ends it with the
    context's error and a failing command with an error that names the
    strategy; in both cases the renditions gathered so far are not returned
    and no command of a later strategy is run. *)
Theorem Execute_stops_at_first_failure env pre st post input outputDir n rs n0 :
  Execute env pre input outputDir n = (inl rs, n0) ->
  let r := Execute env (pre ++ st :: post) input outputDir n in
  let args := BuildCommand st input outputDir in
  (cancelled env n0 = true -> r = (inr ContextCanceled, S n0)) /\
  (cancelled env n0 = false -> fails env (S n0) (CFFmpeg args) = true ->
   r = (inr (Errorw ("strategy " ++ GetName st ++ " failed")
                    (Errorw "ffmpeg command failed" (Failure (CFFmpeg args)))),
        S (S n0))).
Proof.
  unfold Execute. intros Hpre. cbv zeta. rewrite Execute_from_app, Hpre.
  cbn [Execute_from]. unfold ctxDone, ecall, tick, bind, ret.
  split.
  - intros ->. reflexivity.
  - intros -> ->. reflexivity.
Qed.

Lemma string_app_assoc (a b c : string) : ((a ++ b) ++ c = a ++ (b ++ c))%string.
Proof. induction a as [|x a IH]; cbn; [reflexivity|]. now rewrite IH. Qed.

(** X11: The playlist path [Execute] reports for a rendition is the file its
    command writes for the two HLS strategies.  For [AudioTranscodeStrategy]
    it is not: the command writes [audio.m4a] in the rendition's directory
    and the reported path is [playlist.m3u8] there. *)
Theorem PlaylistPath_is_command_output st input outputDir :
  let reported := PlaylistPath (rendition_output outputDir (GetProfile st)) in
  let written := last (BuildCommand st input outputDir) EmptyString in
  match st with
  | AudioTranscodeStrategy profile =>
      written = (outputDir ++ "/" ++ PName profile ++ "/audio.m4a")%string /\
      reported = (outputDir ++ "/" ++ PName profile ++ "/playlist.m3u8")%string /\
      reported <> written
  | _ => reported = written
  end.
Proof.
  destruct st as [p d|p|p d]; cbn; try reflexivity.
  split; [reflexivity|]. split; [reflexivity|].
  intros H. apply append_cancel_l in H. cbn in H. injection H as H.
  apply append_cancel_l in H. discriminate.
Qed.

Lemma FFmpeg_Process_shape env cfg input n out n' :
  Process (FFmpegProcessor env cfg) input n = (inl out, n') ->
  out = mkProcessOutput (InMediaID input)
          (map (rendition_output (Join (tempDir cfg) (InMediaID input))) (Profiles input))
          (Join (Join (tempDir cfg) (InMediaID input)) "master.m3u8").
Proof.
  cbn [Process FFmpegProcessor]. unfold FFmpeg_Process, generateMasterPlaylist.
  cbv zeta. unfold ecall, tick, bind, ret.
  destruct (fails env n _); [discriminate|].
  destruct (fails env (S n) _); [discriminate|].
  destruct (Execute env _ _ _ (S (S n))) as [[rs|e] n1] eqn:HE; [|discriminate].
  destruct (fails env n1 _); [discriminate|].
  intros H. injection H as <- _.
  unfold Execute in HE. apply Execute_from_results in HE. destruct HE as (-> & _ & _).
  cbn [app]. rewrite map_map. reflexivity.
Qed.

(** X12: A successful [Process] of the video processor: one rendition per
    profile of the input, in the input's order, under the processor's own
    temporary directory (the input's [OutputDir] is not used), each with
    its playlist in a directory of its name, and the aggregate manifest next
    to those directories. *)
Theorem FFmpeg_Process_success env cfg input n out n' :
  Process (FFmpegProcessor env cfg) input n = (inl out, n') ->
  let outputDir := Join (tempDir cfg) (InMediaID input) in
  OutMediaID out = InMediaID input /\
  OutRenditions out = map (rendition_output outputDir) (Profiles input) /\
  MasterPath out = Join outputDir "master.m3u8" /\
  (forall r, In r (OutRenditions out) ->
     PlaylistPath r = Join (Join outputDir (OName r)) "playlist.m3u8").
Proof.
  intros H. apply FFmpeg_Process_shape in H. subst out.
  cbn [OutMediaID OutRenditions MasterPath].
  split; [reflexivity|]. split; [reflexivity|]. split; [reflexivity|].
  intros r Hr. apply in_map_iff in Hr. destruct Hr as (p & <- & _).
  unfold rendition_output, Join. cbn [PlaylistPath OName].
  rewrite !string_app_assoc. reflexivity.
Qed.

(** X30: The bit rate of a rendition is never measured: every rendition a
    successful [Process] of the video processor returns has bit rate 0, so
    the item records bit rate 0 for it, and the bandwidth written to the
    aggregate manifest is the estimate by the rendition's name, 1000000 for
    a name that is not one of the four known ones, whatever video bit rate
    the profile asks for. *)
Theorem bandwidth_is_estimated_from_name env cfg input n out n' :
  Process (FFmpegProcessor env cfg) input n = (inl out, n') ->
  forall r, In r (OutRenditions out) ->
    OBitrate r = 0 /\
    RBitrate (to_rendition (InMediaID input) r) = 0 /\
    bandwidth r =
      (if String.eqb (OName r) "1080p" then 5000000
       else if String.eqb (OName r) "720p" then 2500000
       else if String.eqb (OName r) "480p" then 1000000
       else if String.eqb (OName r) "360p" then 500000
       else 1000000).
Proof.
  intros H. apply FFmpeg_Process_shape in H. subst out. cbn [OutRenditions].
  intros r Hr. apply in_map_iff in Hr. destruct Hr as (p & <- & _).
  split; [reflexivity|]. split; reflexivity.
Qed.

(** X13: A successful [Process] of the audio processor returns the renditions
    high, medium and low, whatever profiles the input names, and its
    aggregate manifest lists them with the bandwidths 320000, 192000 and
    96000. *)
Theorem Audio_Process_success env cfg input n out n' :
  Process (Audio.Processor env cfg) input n = (inl out, n') ->
  let outputDir := Join (Audio.tempDir cfg) (InMediaID input) in
  OutMediaID out = InMediaID input /\
  OutRenditions out = map (rendition_output outputDir) Audio.audioProfiles /\
  map OName (OutRenditions out) = ["high"; "medium"; "low"] /\
  map Audio.bandwidth (OutRenditions out) = [320000; 192000; 96000] /\
  MasterPath out = Join outputDir "master.m3u8".
Proof.
  cbn [Process Audio.Processor]. unfold Audio.Process, Audio.generateAudioMasterPlaylist.
  cbv zeta. unfold ecall, tick, bind, ret.
  destruct (fails env n _); [discriminate|].
  destruct (Execute env _ _ _ (S n)) as [[rs|e] n1] eqn:HE; [|discriminate].
  destruct (fails env n1 _); [discriminate|].
  intros H. injection H as <- _. cbn [OutMediaID OutRenditions MasterPath].
  unfold Execute in HE. apply Execute_from_results in HE. destruct HE as (-> & _ & _).
  cbn [app]. rewrite map_map. cbn [GetProfile].
  repeat split; reflexivity.
Qed.

(* ------------------------------------------------------------------ *)
(** * Further properties of the pipeline *)

(** ** The three ways a run of [ProcessMedia] can go *)

Lemma same_stores_refl w : same_stores w w.
Proof. unfold same_stores. auto. Qed.

Lemma same_stores_steps n w : same_stores w (with_steps n w).
Proof. unfold same_stores. auto. Qed.

Lemma same_stores_trans w1 w2 w3 :
  same_stores w1 w2 -> same_stores w2 w3 -> same_stores w1 w3.
Proof. unfold same_stores. intuition congruence. Qed.

Ltac same_steps :=
  unfold same_stores;
  cbn [pending processing dead table objects with_steps]; auto.

(** A run either stops before it has read the item; or fails after the item
    was marked as processing, and marks it as failed; or goes through the
    processor, the upload, the recording of the renditions and the final
    update of the status. *)
Lemma ProcessMedia_cases env s id w err w' :
  ProcessMedia env s id w = (err, w') ->
  (err <> None /\ same_stores w w' /\
   (fails env (steps w) (CGetItem id) = true \/ row id w = None))
  \/
  exists media w1,
    fails env (steps w) (CGetItem id) = false /\ row id w = Some media /\
    w1 = snd (UpdateMediaStatus env id MediaStatusProcessing (with_steps (S (steps w)) w)) /\
    ((exists w2, err <> None /\ same_stores w1 w2 /\
                 same_stores (snd (markFailed env id w2)) w')
     \/
     (exists w2 input n output n' w3,
        err = None /\ same_stores w1 w2 /\
        InMediaID input = id /\ Profiles input = profiles /\
        Process (processor s) input n = (inl output, n') /\
        uploadProcessedFiles env s id output w2 = (None, w3) /\
        same_stores
          (snd (UpdateMediaStatus env id MediaStatusCompleted
                  (snd (recordRenditions env id (OutRenditions output) w3)))) w')).
Proof.
  unfold ProcessMedia, GetMedia, Download, bind, ret, get. cbv zeta.
  rewrite call_run.
  destruct (fails env (steps w) (CGetItem id)) eqn:EG.
  { intros H. injection H as <- <-. left. split; [discriminate|].
    split; [apply same_stores_steps|now left]. }
  cbn [table with_steps].
  destruct (lookup id (table w)) as [media|] eqn:Hrow.
  2: { intros H. injection H as <- <-. left. split; [discriminate|].
       split; [apply same_stores_steps|now right]. }
  intros H. right. exists media.
  exists (snd (UpdateMediaStatus env id MediaStatusProcessing (with_steps (S (steps w)) w))).
  split; [reflexivity|]. split; [exact Hrow|]. split; [reflexivity|].
  revert H.
  destruct (UpdateMediaStatus env id MediaStatusProcessing (with_steps (S (steps w)) w))
    as [e1 w1]. cbn [snd].
  assert (Hfail0 : forall (W : World) (e : error),
            same_stores w1 W ->
            (let (_, s') := markFailed env id W in (Some e, s')) = (err, w') ->
            exists w2, err <> None /\ same_stores w1 w2 /\
                       same_stores (snd (markFailed env id w2)) w').
  { intros W e HW H. exists W. destruct (markFailed env id W) as [u wf].
    injection H as <- <-. split; [discriminate|]. split; [exact HW|].
    cbn [snd]. apply same_stores_refl. }
  rewrite call_run. destruct (fails env (steps w1) _).
  { intros H. left. eapply Hfail0; [|exact H]. same_steps. }
  rewrite call_run. cbn [steps with_steps].
  destruct (fails env (S (steps w1)) _).
  { intros H. left. eapply Hfail0; [|exact H]. same_steps. }
  rewrite call_run. cbn [steps with_steps].
  destruct (fails env (S (S (steps w1))) _).
  { intros H. left. eapply Hfail0; [|exact H]. same_steps. }
  rewrite call_run. cbn [steps with_steps].
  destruct (fails env (S (S (S (steps w1)))) _).
  { rewrite call_run. intros H. left. eapply Hfail0; [|exact H]. same_steps. }
  rewrite lift_run. cbn [steps with_steps].
  match goal with |- context [Process (processor s) ?input ?n] =>
    set (input0 := input); set (n0 := n);
    destruct (Process (processor s) input0 n0) as [[output|e] n1] eqn:HP end; cbn [fst snd].
  2: { intros H. left.
       match type of H with context [markFailed env id ?W] =>
         exists W; destruct (markFailed env id W) as [u wf] eqn:EM end.
       rewrite call_run in H. injection H as <- <-.
       split; [discriminate|]. split; [same_steps|].
       cbn [snd]. same_steps. }
  match goal with |- context [uploadProcessedFiles env s id output ?w0] =>
    pose proof (uploadProcessedFiles_spec env s id output w0) as HU;
    destruct (uploadProcessedFiles env s id output w0) as [eu w2] eqn:EU end.
  destruct HU as ((Hq1 & Hq2 & Hq3) & Ht2 & Hobj & _).
  cbn [pending processing dead table objects with_steps] in Hq1, Hq2, Hq3, Ht2, Hobj.
  destruct eu as [e|].
  { intros H. left. exists w2.
    destruct (markFailed env id w2) as [u wf] eqn:EM.
    rewrite call_run in H. injection H as <- <-.
    split; [discriminate|]. split; [unfold same_stores; auto|].
    cbn [snd]. apply same_stores_steps. }
  intros H.
  destruct (recordRenditions env id (OutRenditions output) w2) as [u w3] eqn:ER.
  destruct (UpdateMediaStatus env id MediaStatusCompleted w3) as [e4 w4] eqn:E4.
  rewrite !call_run in H. cbn [steps with_steps] in H. injection H as <- <-.
  right. exists (with_steps n1 w1), input0, n0, output, n1, w2.
  split; [reflexivity|]. split; [same_steps|].
  split; [reflexivity|]. split; [reflexivity|]. split; [exact HP|]. split; [exact EU|].
  rewrite ER. cbn [snd]. rewrite E4. cbn [snd]. same_steps.
Qed.

(** ** What the updates of the metadata store leave alone *)

Lemma lookup_upsert_other id id' f t :
  id' <> id -> lookup id' (upsert id f t) = lookup id' t.
Proof.
  intros Hne. induction t as [|[k m] t IH]; cbn.
  - destruct (String.eqb_spec id id'); [congruence|reflexivity].
  - destruct (String.eqb_spec k id) as [->|Hk]; cbn.
    + destruct (String.eqb_spec id id'); [congruence|reflexivity].
    + destruct (String.eqb k id'); [reflexivity|exact IH].
Qed.

Lemma UpdateMediaStatus_frame env id st w :
  let w' := snd (UpdateMediaStatus env id st w) in
  same_queue w w' /\ objects w' = objects w /\ other_rows_kept id w w' /\
  renditions_of id w' = renditions_of id w /\
  (st <> MediaStatusCompleted -> processed_at id w' = processed_at id w) /\
  match fst (UpdateMediaStatus env id st w) with
  | None =>
      status_of id w' = Some st /\
      (st = MediaStatusCompleted -> processed_at id w' <> None)
  | Some _ =>
      status_of id w' = status_of id w /\ processed_at id w' = processed_at id w
  end /\
  ((forall n, fails env n (CUpdateStatus id st) = false) ->
   fst (UpdateMediaStatus env id st w) = None) /\
  ((forall n, fails env n (CUpdateStatus id st) = true) ->
   fst (UpdateMediaStatus env id st w) <> None).
Proof.
  cbv zeta. unfold UpdateMediaStatus, same_queue, other_rows_kept. run_monad.
  destruct (MediaStatus_eqb st MediaStatusCompleted) eqn:Est; run_monad;
    match goal with |- context [fails env ?n ?c] => destruct (fails env n c) eqn:E end;
    run_monad;
    (split; [auto|]); (split; [reflexivity|]).
  all: unfold renditions_of, processed_at, status_of, row;
    cbn [table with_table with_steps].
  all: try (split; [reflexivity|]; split; [reflexivity|]; split; [reflexivity|];
            split; [auto|]; split; [intros H; rewrite H in E; discriminate|discriminate]).
  all: split; [intros id' Hne; now apply lookup_upsert_other|].
  all: rewrite !lookup_upsert; cbn [option_map Status Renditions ProcessedAt set_status].
  all: split; [destruct (lookup id (table w)); reflexivity|].
  - split; [intros H; destruct st; cbn in Est; congruence|].
    split; [split; [reflexivity|discriminate]|].
    split; [reflexivity|]. intros H. rewrite H in E. discriminate.
  - split; [intros _; destruct (lookup id (table w)); reflexivity|].
    split; [split; [reflexivity|intros ->; discriminate]|].
    split; [reflexivity|]. intros H. rewrite H in E. discriminate.
Qed.

Lemma AddRendition_frame env id r w :
  let w' := snd (AddRendition env id r w) in
  same_queue w w' /\ objects w' = objects w /\ other_rows_kept id w w' /\
  status_of id w' = status_of id w /\ processed_at id w' = processed_at id w /\
  (renditions_of id w' = renditions_of id w \/
   renditions_of id w' = (renditions_of id w ++ [r])%list).
Proof.
  cbv zeta. unfold AddRendition, same_queue, other_rows_kept. run_monad.
  match goal with |- context [fails env ?n ?c] => destruct (fails env n c) eqn:E end;
    run_monad.
  - repeat split; auto.
  - destruct (lookup id (table w)) as [m|] eqn:El; run_monad.
    + split; [auto|]. split; [reflexivity|].
      split; [intros id' Hne; unfold row; cbn [table with_table with_steps];
              now apply lookup_upsert_other|].
      unfold status_of, processed_at, renditions_of, row.
      cbn [table with_table with_steps]. rewrite !lookup_upsert, El. cbn. auto.
    + repeat split; auto.
Qed.

Lemma recordRenditions_frame env id renditions : forall w,
  let w' := snd (recordRenditions env id renditions w) in
  same_queue w w' /\ objects w' = objects w /\ other_rows_kept id w w' /\
  status_of id w' = status_of id w /\ processed_at id w' = processed_at id w /\
  exists added,
    renditions_of id w' = (renditions_of id w ++ added)%list /\
    incl added (map (to_rendition id) renditions).
Proof.
  induction renditions as [|r rest IH]; intros w; cbv zeta; cbn [recordRenditions].
  - unfold ret, same_queue, other_rows_kept. cbn [snd]. repeat split; auto.
    exists []. split; [now rewrite app_nil_r|apply incl_nil_l].
  - unfold bind.
    pose proof (AddRendition_frame env id (to_rendition id r) w) as HA. cbv zeta in HA.
    destruct (AddRendition env id (to_rendition id r) w) as [err w1]. cbn [snd] in HA.
    destruct HA as ((Hq1 & Hq2 & Hq3) & Ho & Hother & Hs & Hp & Hr).
    specialize (IH w1). cbv zeta in IH.
    destruct (recordRenditions env id rest w1) as [u w2]. cbn [snd] in *.
    destruct IH as ((Hq1' & Hq2' & Hq3') & Ho' & Hother' & Hs' & Hp' & added & Hr' & Hincl).
    unfold same_queue, other_rows_kept in *.
    split; [repeat split; congruence|]. split; [congruence|].
    split; [intros id' Hne; rewrite Hother', Hother by exact Hne; reflexivity|].
    split; [congruence|]. split; [congruence|].
    destruct Hr as [Hr|Hr]; rewrite Hr in Hr'.
    + exists added. split; [exact Hr'|]. now apply incl_tl.
    + exists (to_rendition id r :: added). split.
      * rewrite Hr', <- app_assoc. reflexivity.
      * cbn [map]. apply incl_cons; [now left|now apply incl_tl].
Qed.

Lemma markFailed_frame env id w :
  let w' := snd (markFailed env id w) in
  same_queue w w' /\ objects w' = objects w /\ other_rows_kept id w w' /\
  renditions_of id w' = renditions_of id w /\
  processed_at id w' = processed_at id w /\
  (status_of id w' = status_of id w \/ status_of id w' = Some MediaStatusFailed) /\
  ((forall n, fails env n (CUpdateStatus id MediaStatusFailed) = false) ->
   status_of id w' = Some MediaStatusFailed).
Proof.
  cbv zeta. unfold markFailed, bind, ret.
  pose proof (UpdateMediaStatus_frame env id MediaStatusFailed w) as H. cbv zeta in H.
  destruct (UpdateMediaStatus env id MediaStatusFailed w) as [e w']. cbn [fst snd] in *.
  destruct H as (Hq & Ho & Hother & Hr & Hp & Hs & Hok & _).
  split; [exact Hq|]. split; [exact Ho|]. split; [exact Hother|]. split; [exact Hr|].
  split; [apply Hp; discriminate|]. split.
  - destruct e; [left|right]; tauto.
  - intros Hf. rewrite (Hok Hf) in Hs. tauto.
Qed.

(** ** The runs of [ProcessMedia] that fail *)

Ltac views :=
  unfold same_stores, same_queue, other_rows_kept, status_of, renditions_of,
         processed_at, row in *;
  cbn [pending processing dead table objects with_steps] in *.

Lemma ProcessMedia_failure env s id w e w' :
  ProcessMedia env s id w = (Some e, w') ->
  same_queue w w' /\ objects w' = objects w /\ other_rows_kept id w w' /\
  renditions_of id w' = renditions_of id w /\
  processed_at id w' = processed_at id w /\
  (status_of id w' = status_of id w \/
   status_of id w' = Some MediaStatusProcessing \/
   status_of id w' = Some MediaStatusFailed) /\
  (fails env (steps w) (CGetItem id) = true \/ row id w = None -> same_stores w w') /\
  (fails env (steps w) (CGetItem id) = false -> row id w <> None ->
   (forall n, fails env n (CUpdateStatus id MediaStatusFailed) = false) ->
   status_of id w' = Some MediaStatusFailed).
Proof.
  intros H. apply ProcessMedia_cases in H.
  destruct H as [(_ & Hsame & Hwhy)|(media & w1 & HG & Hrow & Hw1 & H)].
  - split; [views; tauto|]. split; [views; tauto|].
    split; [views; intros id' _; destruct Hsame as (_ & _ & _ & -> & _); reflexivity|].
    assert (Ht : table w' = table w) by (views; tauto).
    split; [views; now rewrite Ht|]. split; [views; now rewrite Ht|].
    split; [left; views; now rewrite Ht|]. split; [auto|].
    intros HG Hrow. destruct Hwhy as [Hwhy|Hwhy]; congruence.
  - destruct H as [(w2 & _ & H12 & H2')|(w2 & input & n & output & n' & w3 & Herr & _)];
      [|discriminate].
    pose proof (UpdateMediaStatus_frame env id MediaStatusProcessing
                  (with_steps (S (steps w)) w)) as F1.
    cbv zeta in F1. rewrite <- Hw1 in F1.
    destruct F1 as (Q1 & O1 & R1 & N1 & P1 & S1 & _).
    specialize (P1 ltac:(discriminate)).
    pose proof (markFailed_frame env id w2) as F2. cbv zeta in F2.
    destruct F2 as (Q2 & O2 & R2 & N2 & P2 & S2 & K2).
    set (wf := snd (markFailed env id w2)) in *.
    assert (T12 : table w2 = table w1) by (views; tauto).
    assert (Tf' : table w' = table wf) by (views; tauto).
    assert (Hst1 : status_of id w1 = status_of id w \/
                   status_of id w1 = Some MediaStatusProcessing).
    { destruct (fst (UpdateMediaStatus env id MediaStatusProcessing
                       (with_steps (S (steps w)) w))); [left|right]; views; tauto. }
    split; [views; intuition congruence|].
    split; [views; intuition congruence|].
    split; [views; intros id' Hne; rewrite Tf', R2, T12, R1 by exact Hne; reflexivity|].
    split; [views; rewrite Tf', N2, T12, N1; reflexivity|].
    split; [views; rewrite Tf', P2, T12, P1; reflexivity|].
    split.
    { views. rewrite Tf'. destruct S2 as [S2|S2]; rewrite S2; [|auto].
      rewrite T12. destruct Hst1 as [->| ->]; auto. }
    split; [intros [Hc|Hc]; [congruence|unfold row in *; congruence]|].
    intros _ _ Hf. specialize (K2 Hf). views. now rewrite Tf'.
Qed.

(** X14: A run of [ProcessMedia] that returns an error has published nothing:
    the bucket, the item's list of renditions and its processing time are as
    before, no other item and no Redis key has changed, and the status is
    what it was, or processing, or failed. *)
Theorem ProcessMedia_error_publishes_nothing env s id w e w' :
  ProcessMedia env s id w = (Some e, w') ->
  objects w' = objects w /\
  renditions_of id w' = renditions_of id w /\
  processed_at id w' = processed_at id w /\
  same_queue w w' /\ other_rows_kept id w w' /\
  (status_of id w' = status_of id w \/
   status_of id w' = Some MediaStatusProcessing \/
   status_of id w' = Some MediaStatusFailed).
Proof.
  intros H. apply ProcessMedia_failure in H. tauto.
Qed.

(** X15: A run that has read the item and then fails leaves the item marked as
    failed, provided the store takes that update.  A run that could not read
    the item, because the call failed or there is no such item, changes
    nothing at all: no item is created. *)
Theorem ProcessMedia_failure_marks_failed env s id w e w' :
  ProcessMedia env s id w = (Some e, w') ->
  (fails env (steps w) (CGetItem id) = false -> row id w <> None ->
   (forall n, fails env n (CUpdateStatus id MediaStatusFailed) = false) ->
   status_of id w' = Some MediaStatusFailed) /\
  (fails env (steps w) (CGetItem id) = true \/ row id w = None ->
   same_stores w w').
Proof.
  intros H. apply ProcessMedia_failure in H. tauto.
Qed.

(** ** Uploads that all succeed *)

Lemma appended_In P w w' o : appended P w w' -> In o (objects w) -> In o (objects w').
Proof.
  intros (_ & _ & _ & _ & extra & -> & _) H. apply in_or_app. now left.
Qed.

Lemma uploadRenditions_playlists env bucket id dir rs :
  (forall n p, fails env n (COpen p) = false) ->
  (forall n k, fails env n (CPutObject bucket k) = false) ->
  forall w r, In r rs ->
    In (bucket, playlistKey id (OName r))
       (objects (snd (uploadRenditions env bucket id dir rs w))).
Proof.
  intros Hopen Hput. induction rs as [|r0 rest IH]; intros w r Hin; [destruct Hin|].
  cbn [uploadRenditions]. unfold bind at 1.
  unfold uploadFile at 1. unfold bind at 1. rewrite call_run, Hopen.
  unfold Upload at 1. unfold bind at 1. rewrite call_run, Hput.
  unfold modify, bind, ret. cbn [fst snd steps with_steps objects with_objects].
  match goal with |- context [Glob env ?p ?w0] => destruct (Glob env p w0) as [[segs|e] w1] eqn:EG end.
  - pose proof (uploadSegments_spec env bucket id (OName r0) segs w1) as Hs.
    destruct (uploadSegments env bucket id (OName r0) segs w1) as [u w2]. cbn [snd] in Hs.
    destruct Hin as [<-|Hin]; [|now apply IH].
    eapply appended_In; [apply uploadRenditions_spec|].
    eapply appended_In; [exact Hs|].
    revert EG. unfold Glob. rewrite lift_run. unfold tick, bind, ret. cbn [fst snd steps with_steps].
    destruct (fails env _ _); intros E; injection E as _ <-;
      cbn [objects with_steps with_objects]; apply in_or_app; right; now left.
  - destruct Hin as [<-|Hin]; [|now apply IH].
    eapply appended_In; [apply uploadRenditions_spec|].
    revert EG. unfold Glob. rewrite lift_run. unfold tick, bind, ret. cbn [fst snd steps with_steps].
    destruct (fails env _ _); intros E; injection E as _ <-;
      cbn [objects with_steps with_objects]; apply in_or_app; right; now left.
Qed.

Lemma uploadProcessedFiles_playlists env s id output w w' :
  (forall n p, fails env n (COpen p) = false) ->
  (forall n k, fails env n (CPutObject (processedBucket s) k) = false) ->
  uploadProcessedFiles env s id output w = (None, w') ->
  forall r, In r (OutRenditions output) ->
    In (processedBucket s, playlistKey id (OName r)) (objects w').
Proof.
  intros Hopen Hput. unfold uploadProcessedFiles. cbv zeta. unfold bind at 1.
  rewrite call_run, Hopen. unfold bind at 1. unfold Upload at 1. unfold bind at 1.
  rewrite call_run, Hput. unfold modify, bind, ret.
  cbn [fst snd steps with_steps objects with_objects].
  match goal with |- context [uploadRenditions env ?b ?i ?d ?rs ?w0] =>
    pose proof (uploadRenditions_playlists env b i d rs Hopen Hput w0) as HR;
    destruct (uploadRenditions env b i d rs w0) as [u w1] end.
  cbn [snd] in HR. intros E. injection E as <-. exact HR.
Qed.

(** ** The runs of [ProcessMedia] that succeed *)

Lemma ProcessMedia_success env s id w w' :
  ProcessMedia env s id w = (None, w') ->
  exists media input n output n',
    row id w = Some media /\
    InMediaID input = id /\ Profiles input = profiles /\
    Process (processor s) input n = (inl output, n') /\
    same_queue w w' /\ other_rows_kept id w w' /\
    (exists others,
       objects w' = (objects w ++ (processedBucket s, masterKey id) :: others)%list /\
       Forall (fun o => rendition_object (processedBucket s) id (OutRenditions output) o
                        /\ accepted env o) others) /\
    ((forall n p, fails env n (COpen p) = false) ->
     (forall n k, fails env n (CPutObject (processedBucket s) k) = false) ->
     forall r, In r (OutRenditions output) ->
       In (processedBucket s, playlistKey id (OName r)) (objects w')) /\
    (exists added,
       renditions_of id w' = (renditions_of id w ++ added)%list /\
       incl added (map (to_rendition id) (OutRenditions output)) /\
       ((forall n name, fails env n (CAddRendition id name) = false) ->
        added = map (to_rendition id) (OutRenditions output))) /\
    ((status_of id w' = Some MediaStatusCompleted /\ processed_at id w' <> None) \/
     (processed_at id w' = processed_at id w /\
      (status_of id w' = status_of id w \/
       status_of id w' = Some MediaStatusProcessing))) /\
    ((forall n, fails env n (CUpdateStatus id MediaStatusCompleted) = false) ->
     status_of id w' = Some MediaStatusCompleted /\ processed_at id w' <> None) /\
    ((forall n, fails env n (CUpdateStatus id MediaStatusCompleted) = true) ->
     (forall n, fails env n (CUpdateStatus id MediaStatusProcessing) = false) ->
     status_of id w' = Some MediaStatusProcessing /\
     processed_at id w' = processed_at id w).
Proof.
  intros H. apply ProcessMedia_cases in H.
  destruct H as [(Herr & _)|(media & w1 & HG & Hrow & Hw1 & H)]; [congruence|].
  destruct H as [(w2 & Herr & _)|(w2 & input & n & output & n' & w3 & _ & H12 & Hin & Hprof & HP & HU & H5')];
    [congruence|].
  exists media, input, n, output, n'.
  split; [exact Hrow|]. split; [exact Hin|]. split; [exact Hprof|]. split; [exact HP|].
  pose proof (UpdateMediaStatus_frame env id MediaStatusProcessing
                (with_steps (S (steps w)) w)) as F1.
  cbv zeta in F1. rewrite <- Hw1 in F1.
  destruct F1 as (Q1 & O1 & R1 & N1 & P1 & S1 & K1 & _).
  specialize (P1 ltac:(discriminate)).
  pose proof (uploadProcessedFiles_spec env s id output w2) as F2. rewrite HU in F2.
  destruct F2 as (Q2 & T2 & (others & O2 & Hothers) & _).
  pose proof (recordRenditions_frame env id (OutRenditions output) w3) as F3. cbv zeta in F3.
  pose proof (recordRenditions_spec env id (OutRenditions output) w3) as F3'.
  set (w4 := snd (recordRenditions env id (OutRenditions output) w3)) in *.
  destruct F3 as (Q3 & O3 & R3 & S3 & P3 & added & N3 & Hincl).
  pose proof (UpdateMediaStatus_frame env id MediaStatusCompleted w4) as F5. cbv zeta in F5.
  set (w5 := snd (UpdateMediaStatus env id MediaStatusCompleted w4)) in *.
  destruct F5 as (Q5 & O5 & R5 & N5 & _ & S5 & K5 & K5').
  assert (T12 : table w2 = table w1) by (views; tauto).
  assert (T5' : table w' = table w5) by (views; tauto).
  assert (Hst1 : status_of id w1 = status_of id w \/
                 status_of id w1 = Some MediaStatusProcessing).
  { destruct (fst (UpdateMediaStatus env id MediaStatusProcessing
                     (with_steps (S (steps w)) w))); [left|right]; views; tauto. }
  assert (Hrow3 : row id w3 <> None).
  { unfold row in *. rewrite T2, T12.
    destruct (fst (UpdateMediaStatus env id MediaStatusProcessing
                     (with_steps (S (steps w)) w))).
    - destruct S1 as [S1 _]. views. rewrite Hrow in S1.
      destruct (lookup id (table w1)); [discriminate|discriminate].
    - destruct S1 as [S1 _]. views.
      destruct (lookup id (table w1)); [discriminate|discriminate]. }
  split; [views; intuition congruence|].
  split; [views; intros id' Hne;
          rewrite T5', R5, R3, T2, T12, R1 by exact Hne; reflexivity|].
  split.
  { exists others. split; [|exact Hothers].
    views. destruct H5' as (_ & _ & _ & _ & ->). rewrite O5, O3, O2.
    destruct H12 as (_ & _ & _ & _ & ->). now rewrite O1. }
  split.
  { intros Hopen Hput r Hr.
    pose proof (uploadProcessedFiles_playlists env s id output w2 w3 Hopen Hput HU r Hr) as Hpl.
    views. destruct H5' as (_ & _ & _ & _ & ->). now rewrite O5, O3. }
  split.
  { exists added. split; [|split; [exact Hincl|]].
    - views. rewrite T5', N5, N3, T2, T12, N1. reflexivity.
    - intros HA. destruct (row id w3) as [m3|] eqn:E3; [|congruence].
      destruct (F3' m3 eq_refl) as (_ & _ & m4 & Hrow4 & _ & Hrs).
      specialize (Hrs HA). fold w4 in Hrow4.
      revert N3. unfold renditions_of. rewrite Hrow4, E3, Hrs.
      intros N3. now apply app_inv_head in N3. }
  assert (S13 : status_of id w4 = status_of id w1 /\ processed_at id w4 = processed_at id w).
  { views. rewrite S3, P3, T2, T12, P1. auto. }
  destruct S13 as [S14 P14].
  split.
  { destruct (fst (UpdateMediaStatus env id MediaStatusCompleted w4)).
    - right. destruct S5 as [S5 P5]. views. rewrite T5', S5, P5, S14, P14.
      split; [reflexivity|exact Hst1].
    - left. destruct S5 as [S5 P5]. views. rewrite T5'. split; [exact S5|auto]. }
  split.
  { intros Hf. rewrite (K5 Hf) in S5. destruct S5 as [S5 P5].
    views. rewrite T5'. split; [exact S5|auto]. }
  intros Hf Hp. specialize (K5' Hf).
  destruct (fst (UpdateMediaStatus env id MediaStatusCompleted w4)); [|congruence].
  destruct S5 as [S5 P5]. rewrite (K1 Hp) in S1. destruct S1 as [S1 _].
  views. rewrite T5', S5, P5, S14, P14. split; [exact S1|reflexivity].
Qed.

(** X16: [ProcessMedia] works on its own item only: whatever the outcome, the
    Redis keys and every other item are as before, and the objects it adds
    to the bucket are in the processed bucket under the prefix of the
    WorkItem's id; it removes none. *)
Theorem ProcessMedia_touches_only_its_item env s id w :
  let '(err, w') := ProcessMedia env s id w in
  same_queue w w' /\ other_rows_kept id w w' /\
  exists added,
    objects w' = (objects w ++ added)%list /\
    Forall (under_prefix (processedBucket s) id) added.
Proof.
  destruct (ProcessMedia env s id w) as [[e|] w'] eqn:E.
  - apply ProcessMedia_failure in E. destruct E as (Q & O & R & _).
    split; [exact Q|]. split; [exact R|]. exists []. split; [now rewrite app_nil_r|constructor].
  - apply ProcessMedia_success in E.
    destruct E as (media & input & n & output & n' & _ & _ & _ & _ & Q & R
                   & (others & O & Hothers) & _).
    split; [exact Q|]. split; [exact R|].
    exists ((processedBucket s, masterKey id) :: others). split; [exact O|].
    constructor.
    + split; [reflexivity|]. exists "master.m3u8". reflexivity.
    + revert Hothers. apply Forall_impl. intros o [(Hb & r & file & _ & Hk) _].
      split; [exact Hb|]. exists (OName r ++ "/" ++ file)%string. exact Hk.
Qed.

(** X17: A run of [ProcessMedia] that returns no error has read the item and
    uploaded the aggregate manifest; the renditions it added to the item are
    among those the processor returned, each under the key of its playlist;
    when the store takes every append, all of them are added; when every
    upload succeeds, the playlist of each is in the bucket; and when the
    store takes the final update the item is completed and carries a
    processing time. *)
Theorem ProcessMedia_success_publishes env s id w w' :
  ProcessMedia env s id w = (None, w') ->
  row id w <> None /\
  In (processedBucket s, masterKey id) (objects w') /\
  exists input n output n' added,
    Profiles input = profiles /\ InMediaID input = id /\
    Process (processor s) input n = (inl output, n') /\
    renditions_of id w' = (renditions_of id w ++ added)%list /\
    incl added (map (to_rendition id) (OutRenditions output)) /\
    (forall r, In r added -> PlaylistKey r = playlistKey id (RName r)) /\
    ((forall n name, fails env n (CAddRendition id name) = false) ->
     added = map (to_rendition id) (OutRenditions output)) /\
    ((forall n p, fails env n (COpen p) = false) ->
     (forall n k, fails env n (CPutObject (processedBucket s) k) = false) ->
     forall r, In r added -> In (processedBucket s, PlaylistKey r) (objects w')) /\
    ((forall n, fails env n (CUpdateStatus id MediaStatusCompleted) = false) ->
     status_of id w' = Some MediaStatusCompleted /\ processed_at id w' <> None).
Proof.
  intros E. apply ProcessMedia_success in E.
  destruct E as (media & input & n & output & n' & Hrow & Hin & Hprof & HP & _ & _
                 & (others & O & _) & Hpl & (added & N & Hincl & Hall) & _ & Hdone & _).
  split; [congruence|]. split; [rewrite O; apply in_or_app; right; now left|].
  exists input, n, output, n', added.
  split; [exact Hprof|]. split; [exact Hin|]. split; [exact HP|]. split; [exact N|].
  split; [exact Hincl|].
  assert (Hkey : forall r, In r added ->
            exists o, In o (OutRenditions output) /\ r = to_rendition id o).
  { intros r Hr. apply Hincl in Hr. apply in_map_iff in Hr.
    destruct Hr as (o & <- & Ho). now exists o. }
  split; [intros r Hr; destruct (Hkey r Hr) as (o & _ & ->); reflexivity|].
  split; [exact Hall|]. split; [|exact Hdone].
  intros Hopen Hput r Hr. destruct (Hkey r Hr) as (o & Ho & ->).
  exact (Hpl Hopen Hput o Ho).
Qed.


(** X19: The processing time of an item changes only in a run that returns no
    error and leaves the item completed. *)
Theorem processed_at_changes_only_on_completion env s id w :
  let '(err, w') := ProcessMedia env s id w in
  processed_at id w' <> processed_at id w ->
  err = None /\ status_of id w' = Some MediaStatusCompleted.
Proof.
  destruct (ProcessMedia env s id w) as [[e|] w'] eqn:E; intros Hne.
  - apply ProcessMedia_failure in E. exfalso. apply Hne. tauto.
  - apply ProcessMedia_success in E.
    destruct E as (media & input & n & output & n' & _ & _ & _ & _ & _ & _
                   & _ & _ & _ & [[Hs _]|[Hp _]] & _).
    + auto.
    + contradiction.
Qed.

(* ------------------------------------------------------------------ *)
(** * Further properties of the factory and of the streaming service *)

Lemma getExtension_nil name : contains is_dot name = false -> getExtension name = EmptyString.
Proof.
  induction name as [|c rest IH]; cbn [contains getExtension]; [reflexivity|].
  intros H. apply orb_false_iff in H. destruct H as [Hc Hrest].
  rewrite (IH Hrest), Hc. reflexivity.
Qed.

(** X20: [getExtension] returns the part of the name from its last dot on, the
    dot included, and the empty string exactly when the name has no dot. *)
Theorem getExtension_spec name :
  if contains is_dot name
  then exists stem rest,
         name = (stem ++ "." ++ rest)%string /\ contains is_dot rest = false /\
         getExtension name = ("." ++ rest)%string
  else getExtension name = EmptyString.
Proof.
  induction name as [|c rest IH]; cbn [contains]; [reflexivity|].
  destruct (contains is_dot rest) eqn:Erest.
  - rewrite orb_true_r. destruct IH as (stem & r & -> & Hr & Hext).
    exists (String c stem), r. split; [reflexivity|]. split; [exact Hr|].
    cbn [getExtension]. rewrite Hext. reflexivity.
  - rewrite orb_false_r. cbn [getExtension]. rewrite IH.
    destruct (is_dot c) eqn:Ec; [|reflexivity].
    unfold is_dot in Ec. apply Ascii.eqb_eq in Ec. subst c.
    exists EmptyString, rest. split; [reflexivity|]. split; [exact Erest|reflexivity].
Qed.

(** X21: The factory never answers a detected media type with "unsupported": a
    file whose extension is one of the eight audio extensions, in lower
    case, goes to the audio processor and every other file, also one with an
    unknown extension or with none, goes to the video processor; the only
    error is that of a processor that is not configured. *)
Theorem factory_dispatch f name :
  CreateProcessor f (DetectMediaType name) =
    if has_key (getExtension name) audioExtensions
    then match audioProcessor f with
         | Some p => inl p
         | None => inr (Errorf "audio processor not configured")
         end
    else match videoProcessor f with
         | Some p => inl p
         | None => inr (Errorf "video processor not configured")
         end.
Proof.
  unfold DetectMediaType. cbv zeta.
  destruct (has_key (getExtension name) videoExtensions) eqn:Ev.
  - assert (Ha : has_key (getExtension name) audioExtensions = false).
    { unfold has_key, videoExtensions in Ev. unfold has_key, audioExtensions.
      cbn [existsb] in *.
      repeat match type of Ev with
             | (String.eqb ?a ?b || _)%bool = true =>
                 destruct (String.eqb_spec a b) as [->|_]; [reflexivity|cbn [orb] in Ev]
             end.
      discriminate. }
    rewrite Ha. reflexivity.
  - destruct (has_key (getExtension name) audioExtensions); reflexivity.
Qed.

Lemma before_last_slash_none s : contains is_slash s = false -> before_last_slash s = None.
Proof.
  induction s as [|c rest IH]; cbn [contains before_last_slash]; [reflexivity|].
  intros H. apply orb_false_iff in H. destruct H as [Hc Hrest].
  rewrite (IH Hrest), Hc. reflexivity.
Qed.

(** X22: For a file name without a slash, the extension the upload service
    stores ([filepath.Ext]) is the one the media type is detected from
    ([getExtension]). *)
Theorem Ext_is_getExtension name :
  contains is_slash name = false -> Filepath.Ext name = getExtension name.
Proof.
  induction name as [|c rest IH]; cbn [contains Filepath.Ext getExtension]; [reflexivity|].
  intros H. apply orb_false_iff in H. destruct H as [Hc Hrest].
  rewrite (IH Hrest), (before_last_slash_none rest Hrest). reflexivity.
Qed.

(** X23: [GetPlaybackURL] changes nothing.  It returns a URL and no error
    exactly when the item can be read, is completed and has at least one
    rendition; the URL is then that of the aggregate manifest under the
    item's id, and it is empty when no CDN domain is configured.  With an
    error the URL is empty. *)
Theorem GetPlaybackURL_spec env domain id w :
  let '(url, err, w') := Stream.GetPlaybackURL env domain id w in
  same_stores w w' /\
  (err = None <->
   fails env (steps w) (CGetItem id) = false /\
   status_of id w = Some MediaStatusCompleted /\ renditions_of id w <> []) /\
  (err <> None -> url = EmptyString) /\
  (err = None ->
   exists m, row id w = Some m /\
     url = if String.eqb domain "" then EmptyString
           else ("https://" ++ domain ++ "/" ++ masterKey (MID m))%string).
Proof.
  unfold Stream.GetPlaybackURL, GetMedia, Stream.buildPlaybackURL, GetMasterPlaylistKey,
         IsProcessed, masterKey, status_of, renditions_of, row.
  unfold bind, ret, get. rewrite call_run.
  destruct (fails env (steps w) (CGetItem id)) eqn:EG.
  { split; [apply same_stores_steps|]. split; [|split; [reflexivity|discriminate]].
    split; [discriminate|]. intros (H & _). discriminate. }
  cbn [table with_steps].
  destruct (lookup id (table w)) as [m|] eqn:El.
  2: { split; [apply same_stores_steps|]. split; [|split; [reflexivity|discriminate]].
       split; [discriminate|]. intros (_ & H & _). discriminate. }
  cbn [option_map].
  destruct (Status m) eqn:Es; cbn [MediaStatus_eqb andb negb];
    try (split; [apply same_stores_steps|];
         split; [split; [discriminate|intros (_ & H & _); discriminate]|];
         split; [reflexivity|discriminate]).
  all: try (destruct (MediaStatus_eqb _ _) eqn:Eq; [discriminate Eq|]).
  destruct (Renditions m) as [|r rs] eqn:Er.
  - cbn. split; [apply same_stores_steps|].
    split; [split; [discriminate|intros (_ & _ & H); congruence]|].
    split; [reflexivity|discriminate].
  - cbn [List.length]. 
    replace (0 <? Z.of_nat (S (List.length rs))) with true
      by (symmetry; apply Z.ltb_lt; lia).
    cbn [negb andb]. split; [apply same_stores_steps|].
    split; [split; [intros _; repeat split; discriminate|reflexivity]|].
    split; [congruence|]. intros _. exists m. split; reflexivity.
Qed.

(* ------------------------------------------------------------------ *)
(** * Further properties of the upload service *)

Ltac run_service :=
  unfold UploadService.NewMedia, UploadService.CreateMedia, UploadService.Delete,
         UploadService.queue_job, UploadService.scall, UploadService.with_source;
  run_monad.

(** X24: [ConfirmUpload] on an id that already has an item, or when the store
    rejects the put, returns an error and changes nothing: the item that is
    there is not overwritten and no job is queued. *)
Theorem ConfirmUpload_rejects senv s jobID req mediaID w :
  service_fails senv (S (steps w)) (CPutItem mediaID) = true \/ row mediaID w <> None ->
  let '(r, w') := UploadService.ConfirmUpload senv s jobID req mediaID w in
  fst r = None /\ snd r <> None /\ same_stores w w'.
Proof.
  intros H. unfold UploadService.ConfirmUpload. cbv zeta. run_service.
  cbn [MID]. destruct (service_fails senv (S (steps w)) (CPutItem mediaID)).
  - run_monad. split; [reflexivity|]. split; [discriminate|]. same_steps.
  - run_monad. unfold row in H. destruct (lookup mediaID (table w)).
    + run_monad. split; [reflexivity|]. split; [discriminate|]. same_steps.
    + destruct H as [H|H]; [discriminate|congruence].
Qed.

(** X25: [ConfirmUpload] on a new id creates the item as pending, with the raw
    key, bucket and extension of the source, and answers with the id and the
    status pending, whatever becomes of the job: with the Redis queue, the
    transcoding job with priority 1 is pending afterwards when the enqueue
    succeeds, and when it fails the answer is the same and the item is left
    without a job. *)
Theorem ConfirmUpload_accepts senv s jobID req mediaID w :
  service_fails senv (S (steps w)) (CPutItem mediaID) = false ->
  row mediaID w = None ->
  UploadService.queue s = Some (RedisQueue (base senv)) ->
  let env := base senv in
  let ext := Filepath.Ext (UploadService.Filename req) in
  let s3Key := ("raw/" ++ mediaID ++ ext)%string in
  let n := S (S (steps w)) in
  let job := stamped env (UploadService.transcode_job s jobID mediaID s3Key) n in
  let '(r, w') := UploadService.ConfirmUpload senv s jobID req mediaID w in
  r = (Some (UploadService.mkUploadResponse mediaID MediaStatusPending ""), None) /\
  table w' = (table w ++
              [(mediaID, mkMedia mediaID MediaStatusPending s3Key (UploadService.rawBucket s)
                                 ext [] (Some (clock env (steps w))) None)])%list /\
  objects w' = objects w /\ processing w' = processing w /\ dead w' = dead w /\
  (Go.year_in_range (clock env n) = true ->
   fails env (S (S n)) (CZAdd defaultQueueKey (Encoded job)) = false ->
   pending w' = Redis.zadd (Encoded job) (score_of (clock env (S n)) 1) (pending w)) /\
  (Go.year_in_range (clock env n) = false \/
   fails env (S (S n)) (CZAdd defaultQueueKey (Encoded job)) = true ->
   pending w' = pending w).
Proof.
  intros Hput Hrow Hq. unfold UploadService.ConfirmUpload. cbv zeta. run_service.
  cbn [MID]. rewrite Hput. run_monad. unfold row in Hrow. rewrite Hrow. run_monad.
  rewrite Hq. cbn [QEnqueue RedisQueue]. rewrite Enqueue_run. cbv zeta.
  cbn [steps with_steps with_table Priority UploadService.transcode_job].
  unfold stamped.
  destruct (Go.year_in_range (clock (base senv) (S (S (steps w))))) eqn:Ey;
    [destruct (fails (base senv) (S (S (S (S (steps w))))) _) eqn:Ef|];
    cbn [fst snd pending processing dead table objects with_steps with_pending with_table];
    (split; [reflexivity|]); (split; [reflexivity|]); (split; [reflexivity|]);
    (split; [reflexivity|]); (split; [reflexivity|]);
    (split; [intros; try reflexivity; try discriminate
            |intros [?|?]; try reflexivity; try discriminate]).
Qed.

(** X26: [Upload] removes the raw object again when the item cannot be created:
    it returns an error, the table and the queue are as before and, when the
    delete succeeds, the bucket holds nothing under the raw key.  The result
    of the delete is not checked: when it fails the raw object stays, with
    no item that refers to it. *)
Theorem Upload_cleans_up senv s mediaID jobID req w :
  let env := base senv in
  let s3Key := ("raw/" ++ mediaID ++ Filepath.Ext (UploadService.Filename req))%string in
  fails env (steps w) (CPutObject (UploadService.rawBucket s) s3Key) = false ->
  service_fails senv (S (S (steps w))) (CPutItem mediaID) = true \/ row mediaID w <> None ->
  let '(r, w') := UploadService.Upload senv s mediaID jobID req w in
  fst r = None /\ snd r <> None /\
  table w' = table w /\ same_queue w w' /\
  (service_fails senv (S (S (S (steps w))))
     (CDeleteObject (UploadService.rawBucket s) s3Key) = false ->
   ~ In (UploadService.rawBucket s, s3Key) (objects w')) /\
  (service_fails senv (S (S (S (steps w))))
     (CDeleteObject (UploadService.rawBucket s) s3Key) = true ->
   objects w' = (objects w ++ [(UploadService.rawBucket s, s3Key)])%list).
Proof.
  cbv zeta. intros Hs3 H. unfold UploadService.Upload. cbv zeta.
  unfold Upload. run_service. rewrite Hs3. run_monad. cbn [MID].
  assert (Hnot : forall l : list (string * string),
            ~ In (UploadService.rawBucket s,
                  ("raw/" ++ mediaID ++ Filepath.Ext (UploadService.Filename req))%string)
                 (filter (fun o =>
                    negb (String.eqb (fst o) (UploadService.rawBucket s) &&
                          String.eqb (snd o)
                            ("raw/" ++ mediaID ++ Filepath.Ext (UploadService.Filename req)))) l)).
  { intros l Hin. apply filter_In in Hin. destruct Hin as [_ Hb].
    cbn [fst snd] in Hb. rewrite !String.eqb_refl in Hb. discriminate. }
  destruct (service_fails senv (S (S (steps w))) (CPutItem mediaID)).
  - run_monad.
    destruct (service_fails senv (S (S (S (steps w)))) _); run_monad;
      (split; [reflexivity|]); (split; [discriminate|]); (split; [reflexivity|]);
      (split; [unfold same_queue; auto|]); (split; [intros Hd|intros Hd]);
      try discriminate; try reflexivity.
    apply Hnot.
  - run_monad. unfold row in H. destruct (lookup mediaID (table w)).
    + run_monad.
      destruct (service_fails senv (S (S (S (steps w)))) _); run_monad;
        (split; [reflexivity|]); (split; [discriminate|]); (split; [reflexivity|]);
        (split; [unfold same_queue; auto|]); (split; [intros Hd|intros Hd]);
        try discriminate; try reflexivity.
      apply Hnot.
    + destruct H as [H|H]; [discriminate|congruence].
Qed.

(* ------------------------------------------------------------------ *)
(** * Further properties of the worker *)

Lemma Dequeue_tracks env timeout w :
  reliable env -> pending_marshalable w ->
  let '(r, w') := Dequeue env timeout w in
  pending_marshalable w' /\
  match r with
  | (Some job, None) =>
      processing w' = Redis.sadd (Encoded job) (processing w) /\
      Go.year_in_range (CreatedAt job) = true
  | (None, Some _) => processing w' = processing w
  | _ => False
  end.
Proof.
  intros Hrel Hw. unfold Dequeue, BZPopMin, SAddProcessing. run_monad.
  rewrite Hrel. run_monad.
  destruct (Redis.zpopmin (tie env) (pending w)) as [[m rest]|] eqn:Hpop; run_monad;
    [|split; [exact Hw|reflexivity]].
  apply zpopmin_spec in Hpop as (Hin & _ & ->).
  assert (Hrest : Forall (fun x => marshalable (fst x)) (Redis.zrem (fst m) (pending w)))
    by now apply Forall_zrem.
  assert (Hm : marshalable (fst m)).
  { unfold pending_marshalable in Hw. rewrite Forall_forall in Hw. now apply Hw. }
  destruct (fst m) as [job|bytes] eqn:Em; cbn [Unmarshal]; run_monad.
  - rewrite Hrel. run_monad. split; [exact Hrest|]. split; [reflexivity|exact Hm].
  - split; [exact Hrest|reflexivity].
Qed.

Lemma ProcessMedia_same_queue env s id w : same_queue w (snd (ProcessMedia env s id w)).
Proof.
  destruct (ProcessMedia env s id w) as [[e|] w'] eqn:E; cbn [snd].
  - apply ProcessMedia_failure in E. tauto.
  - apply ProcessMedia_success in E.
    destruct E as (media & input & n & output & n' & _ & _ & _ & _ & Q & _). exact Q.
Qed.

Lemma Nack_untracks env job w :
  reliable env -> sane_clock env -> Go.year_in_range (CreatedAt job) = true ->
  let w' := snd (Nack env job w) in
  processing w' = Redis.srem (Encoded job) (processing w) /\
  (pending_marshalable w -> pending_marshalable w').
Proof.
  intros Hrel Hclk Hy. cbv zeta. rewrite Nack_run by auto. cbv zeta.
  destruct (_ <? 3).
  - rewrite Enqueue_run. cbv zeta. rewrite Hclk, Hrel. cbn.
    split; [reflexivity|]. intros Hw. apply Forall_zadd; [|exact Hw].
    cbn. apply Hclk.
  - rewrite Hrel. cbn. auto.
Qed.

Lemma snd_bind_ret {A B} (m : M A) (f : A -> B) w :
  snd ((x <- m ;; ret (f x)) w) = snd (m w).
Proof. unfold bind, ret. now destruct (m w). Qed.

(** X27: A worker alone on a reachable queue leaves no job tracked: with the
    processing set empty before, it is empty again after any number of
    passes of the loop, whatever the pipeline did with the jobs; every job
    that was taken has been acknowledged or handed back. *)
Theorem worker_leaves_nothing_tracked env s fuel : forall w,
  reliable env -> sane_clock env ->
  pending_marshalable w -> processing w = [] ->
  let w' := snd (processLoop env s (RedisQueue env) fuel w) in
  processing w' = [] /\ pending_marshalable w'.
Proof.
  induction fuel as [|fuel IH]; intros w Hrel Hclk Hpm Hproc; cbv zeta.
  { cbn. auto. }
  cbv zeta in IH.
  set (P := fun w' : World => processing w' = [] /\ pending_marshalable w') in *.
  change (P (snd (processLoop env s (RedisQueue env) (S fuel) w))).
  assert (HP : forall n v, P v -> P (with_steps n v)) by (intros n v Hv; exact Hv).
  cbn [processLoop]. unfold bind at 1. rewrite lift_run.
  unfold ctxDone, tick, bind at 1, ret at 1. cbn [fst snd].
  destruct (cancelled env (steps w)); [unfold ret; cbn [snd]; apply HP; split; assumption|].
  cbn [QDequeue QNack QAck RedisQueue]. unfold bind at 1.
  match goal with |- context [Dequeue env ?t ?w0] =>
    pose proof (Dequeue_tracks env t w0 Hrel Hpm) as HD;
    destruct (Dequeue env t w0) as [[oj oe] w1] end.
  destruct HD as [Hpm1 HD]. cbn [processing with_steps] in HD.
  destruct oj as [job|], oe as [e|]; try contradiction.
  - destruct HD as [Hp1 Hy]. rewrite Hproc in Hp1.
    unfold bind at 1.
    pose proof (ProcessMedia_same_queue env s (MediaID job) w1) as (Q1 & Q2 & Q3).
    destruct (ProcessMedia env s (MediaID job) w1) as [[e|] w2]; cbn [snd] in Q1, Q2, Q3.
    + unfold bind at 1.
      pose proof (Nack_untracks env job w2 Hrel Hclk Hy) as HN. cbv zeta in HN.
      destruct (Nack env job w2) as [r w3]. cbn [snd] in HN. destruct HN as [HN1 HN2].
      rewrite snd_bind_ret. apply IH; auto.
      * apply HN2. unfold pending_marshalable. now rewrite Q1.
      * rewrite HN1, Q2, Hp1. apply (srem_sadd_fresh (Encoded job) []). tauto.
    + unfold bind at 1. rewrite Ack_run by auto.
      rewrite snd_bind_ret. apply IH; auto.
      * unfold pending_marshalable. cbn [pending with_processing with_steps]. now rewrite Q1.
      * cbn [processing with_processing]. rewrite Q2, Hp1.
        apply (srem_sadd_fresh (Encoded job) []). tauto.
  - rewrite snd_bind_ret. apply IH; auto. now rewrite HD.
Qed.

Lemma ProcessMedia_missing_item env s id w :
  fails env (steps w) (CGetItem id) = false -> row id w = None ->
  ProcessMedia env s id w =
    (Some (Errorw "failed to get media" ErrMediaNotFound), with_steps (S (steps w)) w).
Proof.
  intros HG Hrow. unfold ProcessMedia, GetMedia, bind, ret, get. rewrite call_run, HG.
  cbn [table with_steps]. unfold row in Hrow. now rewrite Hrow.
Qed.

(** One pass of the loop over a job whose WorkItem has no item. *)
Lemma loop_pass_missing_item env s fuel job sc w :
  reliable env -> sane_clock env -> never_cancelled env ->
  Go.year_in_range (CreatedAt job) = true -> is_int (Attempts job + 1) ->
  row (MediaID job) w = None ->
  pending w = [(Encoded job, sc)] -> processing w = [] ->
  exists w3,
    processLoop env s (RedisQueue env) (S fuel) w =
      (let '(k, w4) := processLoop env s (RedisQueue env) fuel w3 in
       ((EvDequeue 5 :: EvProcess job :: EvNack job :: fst k, snd k), w4)) /\
    table w3 = table w /\ objects w3 = objects w /\ processing w3 = [] /\
    if Attempts job + 1 <? 3
    then dead w3 = dead w /\
         exists sc',
           pending w3 =
             [(Encoded (set_CreatedAt (set_Attempts job (Attempts job + 1))
                                      (clock env (5 + steps w))), sc')]
    else dead w3 = Redis.sadd (Encoded job) (dead w) /\ pending w3 = [].
Proof.
  intros Hrel Hclk Hc Hy Hint Hrow Hpend Hproc.
  cbn [processLoop]. unfold bind at 1. rewrite lift_run.
  unfold ctxDone, tick, bind at 1, ret at 1. cbn [fst snd]. rewrite Hc.
  cbn [QDequeue QNack QAck RedisQueue]. unfold bind at 1.
  erewrite Dequeue_run; [|apply Hrel|apply Hrel|
    cbn [pending with_steps]; rewrite Hpend;
    cbn [Redis.zpopmin Redis.zmin Redis.zrem filter fst];
    rewrite Member_eqb_refl; cbn [negb]; reflexivity].
  unfold bind at 1. rewrite ProcessMedia_missing_item by (auto; exact Hrow).
  unfold bind at 1. rewrite Nack_run by auto. cbv zeta.
  cbn [Attempts set_Attempts steps with_steps with_processing with_pending processing].
  rewrite wrap64_int by exact Hint. rewrite Hproc.
  assert (Hrem : Redis.srem (Encoded job) (Redis.sadd (Encoded job) []) = [])
    by (apply (srem_sadd_fresh (Encoded job) []); tauto).
  rewrite Hrem.
  destruct (Attempts job + 1 <? 3).
  - rewrite Enqueue_run. cbv zeta. rewrite Hclk, Hrel.
    cbn [steps with_steps with_processing with_pending pending Redis.zadd Redis.zrem filter app].
    eexists. split; [unfold bind, ret; reflexivity|].
    cbn. repeat split. eexists. reflexivity.
  - rewrite Hrel. eexists. split; [unfold bind, ret; reflexivity|].
    cbn. repeat split.
Qed.

(** X28: A job whose WorkItem has no item is tried three times and then
    dead-lettered: three passes of the loop over a queue that holds only
    this job leave the queue and the processing set empty and the job in
    the dead-letter set, as it was before its last try; the table and the
    bucket are untouched, and no item is created. *)
Theorem job_without_item_is_dead_lettered env s job sc w :
  reliable env -> sane_clock env -> never_cancelled env ->
  Go.year_in_range (CreatedAt job) = true -> Attempts job = 0 ->
  row (MediaID job) w = None ->
  pending w = [(Encoded job, sc)] -> processing w = [] ->
  let '(events, returned, w') := processLoop env s (RedisQueue env) 3 w in
  exists t1 t2,
    let j1 := set_CreatedAt (set_Attempts job 1) t1 in
    let j2 := set_CreatedAt (set_Attempts job 2) t2 in
    events = [EvDequeue 5; EvProcess job; EvNack job;
              EvDequeue 5; EvProcess j1; EvNack j1;
              EvDequeue 5; EvProcess j2; EvNack j2] /\
    returned = false /\
    pending w' = [] /\ processing w' = [] /\
    dead w' = Redis.sadd (Encoded j2) (dead w) /\
    table w' = table w /\ objects w' = objects w.
Proof.
  intros Hrel Hclk Hc Hy Ha Hrow Hpend Hproc.
  destruct (loop_pass_missing_item env s 2 job sc w) as (w1 & E1 & T1 & O1 & P1 & H1);
    auto; [unfold is_int; rewrite Ha; cbn; lia|].
  rewrite Ha in H1. cbn [Z.add Z.ltb Z.compare Pos.compare Pos.compare_cont] in H1.
  destruct H1 as (D1 & sc1 & Hp1).
  set (j1 := set_CreatedAt (set_Attempts job 1) (clock env (5 + steps w))) in *.
  destruct (loop_pass_missing_item env s 1 j1 sc1 w1) as (w2 & E2 & T2 & O2 & P2 & H2);
    auto; [apply Hclk|unfold is_int; cbn; lia|unfold row in *; cbn [MediaID j1 set_CreatedAt set_Attempts]; now rewrite T1|].
  cbn [Attempts j1 set_CreatedAt set_Attempts Z.add Z.ltb Z.compare Pos.add Pos.succ
       Pos.compare Pos.compare_cont] in H2.
  destruct H2 as (D2 & sc2 & Hp2).
  set (j2 := set_CreatedAt (set_Attempts j1 2) (clock env (5 + steps w1))) in *.
  destruct (loop_pass_missing_item env s 0 j2 sc2 w2) as (w3 & E3 & T3 & O3 & P3 & H3);
    auto; [apply Hclk|unfold is_int; cbn; lia|unfold row in *; cbn [MediaID j1 j2 set_CreatedAt set_Attempts]; now rewrite T2, T1|].
  cbn [Attempts j2 set_CreatedAt set_Attempts Z.add Z.ltb Z.compare Pos.add Pos.succ
       Pos.compare Pos.compare_cont] in H3.
  destruct H3 as (D3 & Hp3).
  rewrite E1, E2, E3. cbn [processLoop]. unfold ret. cbn [fst snd].
  exists (clock env (5 + steps w)), (clock env (5 + steps w1)).
  cbv zeta. fold j1.
  change (set_CreatedAt (set_Attempts job 2) (clock env (5 + steps w1))) with j2.
  split; [reflexivity|]. split; [reflexivity|]. split; [exact Hp3|]. split; [exact P3|].
  split; [congruence|]. split; congruence.
Qed.

(* ------------------------------------------------------------------ *)
(** * From the upload to the playback *)











(* ------------------------------------------------------------------ *)
(** * The further properties on the examples *)

(** X1 on an example: a worker that acknowledges the job with a changed attempt count leaves
    the entry of the job it was given in the processing set. *)
Lemma Ack_matches_by_value_witness :
  let '(err, w') := Ack env_ok (dequeued_job 1) (w_tracking 0) in
  err = None /\ In (Encoded (dequeued_job 0)) (processing w').
Proof.
  pose proof (Ack_matches_by_value env_ok (dequeued_job 1) (w_tracking 0)
                env_ok_reliable eq_refl) as H.
  destruct (Ack env_ok (dequeued_job 1) (w_tracking 0)) as [err w'].
  destruct H as (He & _ & Hk & _). split; [exact He|].
  apply (Hk (dequeued_job 0)); [discriminate|]. now left.
Defined.

(** X2 on an example. *)
Lemma Dequeue_then_Ack_witness :
  let '(err, w2) := Ack env_ok (dequeued_job 0) (snd (Dequeue env_ok 5 w_pending1)) in
  err = None /\
  processing w2 = processing w_pending1 /\
  pending w2 = Redis.zrem (Encoded (dequeued_job 0)) (pending w_pending1) /\
  dead w2 = dead w_pending1 /\ table w2 = table w_pending1 /\
  objects w2 = objects w_pending1.
Proof.
  apply (Dequeue_then_Ack env_ok 5 w_pending1 (dequeued_job 0)
           (snd (Dequeue env_ok 5 w_pending1)) env_ok_reliable).
  - vm_compute. reflexivity.
  - reflexivity.
  - intros [].
Defined.

(** X3 on an example. *)
Lemma Dequeue_tracking_failure_witness :
  let '(r, w') := Dequeue env_no_tracking 5 w_pending1 in
  fst r = None /\ snd r <> None /\ processing w' = [] /\
  map fst (pending w') = [Encoded (set_CreatedAt (dequeued_job 0) (clock_ticking 2))].
Proof.
  pose proof (Dequeue_tracking_failure env_no_tracking 5 w_pending1 (dequeued_job 0)
                (epoch0 - 1000) [] eq_refl eq_refl eq_refl) as H.
  destruct (Dequeue env_no_tracking 5 w_pending1) as [r w'].
  destruct H as (H1 & H2 & H3 & _ & Hback & _).
  split; [exact H1|]. split; [exact H2|]. split; [exact H3|].
  rewrite Hback; [reflexivity|reflexivity|reflexivity].
Defined.

(** X4 on an example. *)
Lemma Dequeue_drops_undecodable_witness :
  let '(r, w') := Dequeue env_ok 5 w_garbage in
  r = (None, Some (Errorw "failed to unmarshal job" UnmarshalError)) /\
  pending w' = Redis.zrem (Opaque "not json") (pending w_garbage) /\
  processing w' = processing w_garbage /\ dead w' = dead w_garbage.
Proof.
  apply (Dequeue_drops_undecodable env_ok 5 w_garbage "not json" 0 []).
  - reflexivity.
  - reflexivity.
Defined.

(** X5 on an example. *)
Lemma Len_counts_pending_witness :
  fst (fst (Len env_ok (snd (Enqueue env_ok J2 w_pending1)))) = 2 /\
  fst (fst (Len env_ok (snd (Dequeue env_ok 5 w_pending1)))) = 0.
Proof.
  assert (Hset : pending_is_set w_pending1).
  { unfold pending_is_set. cbn. constructor; [intros []|constructor]. }
  destruct (Len_counts_pending env_ok w_pending1 env_ok_reliable env_ok_sane_clock Hset)
    as (_ & HE & HD).
  split.
  - rewrite (proj2 (HE J2)). reflexivity.
  - rewrite (proj2 (HD 5 (dequeued_job 0) (snd (Dequeue env_ok 5 w_pending1)) eq_refl)).
    reflexivity.
Defined.

(** X6 on an example. *)
Lemma Nack_second_command_fails_witness :
  let '(_, err, w') := Nack env_zadd_fails (dequeued_job 0) (w_tracking 0) in
  err <> None /\
  ~ In (Encoded (dequeued_job 0)) (processing w') /\
  pending w' = pending (w_tracking 0) /\ dead w' = dead (w_tracking 0).
Proof.
  apply (Nack_second_command_fails env_zadd_fails (dequeued_job 0) (w_tracking 0)).
  - reflexivity.
  - unfold is_int. cbn. lia.
  - reflexivity.
  - reflexivity.
Defined.

(** X7 on an example: J2 has priority 1 and J1 priority 5: enqueued three seconds after J2,
    J1 is dequeued first. *)
Lemma two_jobs_order_witness :
  fst (enqueue2_dequeue env_ok 5 J2 J1 w_empty) =
    (Some (set_CreatedAt J1 (enqueue_stamp env_ok w_empty 1)), None).
Proof.
  apply (proj1 (two_jobs_order env_ok 5 J2 J1 w_empty env_ok_reliable env_ok_sane_clock
                  eq_refl ltac:(cbn; lia) ltac:(cbn; lia) ltac:(discriminate))).
  vm_compute. reflexivity.
Defined.

(** X8 on an example. *)
Lemma Nack_then_Dequeue_witness :
  let '(r, w') := nack_then_dequeue env_ok 5 (dequeued_job 0) (w_tracking 0) in
  let job' := set_CreatedAt (set_Attempts (dequeued_job 0) 1) (clock env_ok 1) in
  r = (Some job', None) /\
  In (Encoded job') (processing w') /\
  ~ In (Encoded (dequeued_job 0)) (processing w') /\
  pending w' = [] /\ dead w' = dead (w_tracking 0).
Proof.
  apply (Nack_then_Dequeue env_ok 5 (dequeued_job 0) (w_tracking 0)).
  - exact env_ok_reliable.
  - exact env_ok_sane_clock.
  - reflexivity.
  - unfold is_int. cbn. lia.
  - unfold maxAttempts. cbn. lia.
  - reflexivity.
Defined.

(** X9 on an example. *)
Lemma Execute_success_witness :
  let rs := [rendition_output "/out" audio_high; rendition_output "/out" audio_low] in
  rs = map (fun st => rendition_output "/out" (GetProfile st))
           [AudioTranscodeStrategy audio_high; AudioHLSTranscodeStrategy audio_low 6] /\
  (forall r, In r rs -> OBitrate r = 0 /\ SegmentPaths r = []).
Proof.
  pose proof (Execute_success env_ok
                [AudioTranscodeStrategy audio_high; AudioHLSTranscodeStrategy audio_low 6]
                "in.mp3" "/out" 0
                [rendition_output "/out" audio_high; rendition_output "/out" audio_low]
                4 eq_refl) as H.
  cbv zeta. split; [apply H|apply H].
Defined.

(** X10 on an example: the context is cancelled after the first of two strategies has run. *)
Lemma Execute_stops_at_first_failure_witness :
  Execute env_cancelled_late
          [AudioTranscodeStrategy audio_high; AudioHLSTranscodeStrategy audio_low 6]
          "in.mp3" "/out" 0%nat
    = (inr ContextCanceled, 3%nat).
Proof.
  apply (proj1 (Execute_stops_at_first_failure env_cancelled_late
                  [AudioTranscodeStrategy audio_high] (AudioHLSTranscodeStrategy audio_low 6) []
                  "in.mp3" "/out" 0 [rendition_output "/out" audio_high] 2 eq_refl)).
  reflexivity.
Defined.

(** X12 on an example. *)
Lemma FFmpeg_Process_success_witness :
  let out := mkProcessOutput "m1"
               (map (rendition_output "/tmp/streaming/m1") profiles)
               "/tmp/streaming/m1/master.m3u8" in
  OutMediaID out = "m1" /\
  OutRenditions out = map (rendition_output "/tmp/streaming/m1") profiles /\
  MasterPath out = "/tmp/streaming/m1/master.m3u8" /\
  (forall r, In r (OutRenditions out) ->
     PlaylistPath r = Join (Join "/tmp/streaming/m1" (OName r)) "playlist.m3u8").
Proof.
  apply (FFmpeg_Process_success env_ok example_config example_input 0
           (mkProcessOutput "m1" (map (rendition_output "/tmp/streaming/m1") profiles)
                            "/tmp/streaming/m1/master.m3u8") 11).
  vm_compute. reflexivity.
Defined.

(** X30 on an example: a profile named 4k that asks for 20000k is listed
    with the bandwidth 1000000. *)
Lemma bandwidth_is_estimated_from_name_witness :
  let r := rendition_output "/tmp/streaming/m1"
             (mkProfile "4k" 3840 2160 "20000k" "192k" "h264") in
  OBitrate r = 0 /\ RBitrate (to_rendition "m1" r) = 0 /\ bandwidth r = 1000000.
Proof.
  apply (bandwidth_is_estimated_from_name env_ok example_config custom_input 0
           (mkProcessOutput "m1"
              [rendition_output "/tmp/streaming/m1"
                 (mkProfile "4k" 3840 2160 "20000k" "192k" "h264")]
              "/tmp/streaming/m1/master.m3u8") 5).
  - vm_compute. reflexivity.
  - left. reflexivity.
Defined.

(** X13 on an example: the audio processor is handed the four video profiles and returns its
    own three renditions. *)
Lemma Audio_Process_success_witness :
  let out := mkProcessOutput "m1"
               (map (rendition_output "/tmp/streaming/m1") Audio.audioProfiles)
               "/tmp/streaming/m1/master.m3u8" in
  OutMediaID out = "m1" /\
  OutRenditions out = map (rendition_output "/tmp/streaming/m1") Audio.audioProfiles /\
  map OName (OutRenditions out) = ["high"; "medium"; "low"] /\
  map Audio.bandwidth (OutRenditions out) = [320000; 192000; 96000] /\
  MasterPath out = "/tmp/streaming/m1/master.m3u8".
Proof.
  apply (Audio_Process_success env_ok example_audio_config example_input 0
           (mkProcessOutput "m1" (map (rendition_output "/tmp/streaming/m1") Audio.audioProfiles)
                            "/tmp/streaming/m1/master.m3u8") 8).
  vm_compute. reflexivity.
Defined.

(** X14 on an example: the download of the source of m1 fails: nothing is published and the
    item is marked as failed. *)
Lemma ProcessMedia_error_publishes_nothing_witness :
  let '(err, w') := ProcessMedia env_download_fails (example_service env_download_fails)
                                 "m1" w_m1 in
  err <> None /\
  objects w' = objects w_m1 /\
  renditions_of "m1" w' = renditions_of "m1" w_m1 /\
  processed_at "m1" w' = processed_at "m1" w_m1.
Proof.
  destruct (ProcessMedia env_download_fails (example_service env_download_fails) "m1" w_m1)
    as [[e|] w'] eqn:E.
  - split; [discriminate|].
    pose proof (ProcessMedia_error_publishes_nothing _ _ _ _ e w' E) as H.
    split; [apply H|]. split; apply H.
  - vm_compute in E. discriminate E.
Defined.

(** X15 on an example. *)
Lemma ProcessMedia_failure_marks_failed_witness :
  status_of "m1" (snd (ProcessMedia env_download_fails (example_service env_download_fails)
                                    "m1" w_m1)) = Some MediaStatusFailed.
Proof.
  destruct (ProcessMedia env_download_fails (example_service env_download_fails) "m1" w_m1)
    as [[e|] w'] eqn:E.
  - apply (proj1 (ProcessMedia_failure_marks_failed _ _ _ _ e w' E)).
    + reflexivity.
    + discriminate.
    + intros n. reflexivity.
  - vm_compute in E. discriminate E.
Defined.

(** X17 on an example. *)
Lemma ProcessMedia_success_publishes_witness :
  let '(err, w') := ProcessMedia env_segments (example_service env_segments) "m1" w_m1 in
  err = None /\
  In ("processed-media", masterKey "m1") (objects w') /\
  status_of "m1" w' = Some MediaStatusCompleted /\ processed_at "m1" w' <> None.
Proof.
  destruct (ProcessMedia env_segments (example_service env_segments) "m1" w_m1)
    as [[e|] w'] eqn:E.
  - vm_compute in E. discriminate E.
  - split; [reflexivity|].
    pose proof (ProcessMedia_success_publishes _ _ _ _ w' E) as H.
    destruct H as (_ & Hm & input & n & output & n' & added & _ & _ & _ & _ & _ & _ & _ & _ & Hd).
    split; [exact Hm|]. apply Hd. intros k. reflexivity.
Defined.


(** X22 on an example. *)
Lemma Ext_is_getExtension_witness :
  Filepath.Ext "holiday.mp4" = getExtension "holiday.mp4".
Proof. apply (Ext_is_getExtension "holiday.mp4"). reflexivity. Defined.

(** X24 on an example: the id m1 has an item already: the confirmation is refused. *)
Lemma ConfirmUpload_rejects_witness :
  let '(r, w') := UploadService.ConfirmUpload senv_ok (example_upload_service env_ok)
                    "j1" example_request "m1" w_m1 in
  fst r = None /\ snd r <> None /\ same_stores w_m1 w'.
Proof.
  apply (ConfirmUpload_rejects senv_ok (example_upload_service env_ok)
           "j1" example_request "m1" w_m1).
  right. discriminate.
Defined.

(** X25 on an example. *)
Lemma ConfirmUpload_accepts_witness :
  let '(r, w') := UploadService.ConfirmUpload senv_ok (example_upload_service env_ok)
                    "j1" example_request "m2" w_m1 in
  r = (Some (UploadService.mkUploadResponse "m2" MediaStatusPending ""), None) /\
  status_of "m2" w' = Some MediaStatusPending /\
  map fst (pending w') =
    [Encoded (mkJob "j1" JobTypeTranscode "m2" 1
                    [("source_bucket", "raw-media"); ("source_key", "raw/m2.mp4")]
                    (clock_ticking 2) 0)].
Proof.
  pose proof (ConfirmUpload_accepts senv_ok (example_upload_service env_ok)
                "j1" example_request "m2" w_m1 eq_refl eq_refl eq_refl) as H.
  cbv zeta in H.
  destruct (UploadService.ConfirmUpload senv_ok (example_upload_service env_ok)
              "j1" example_request "m2" w_m1) as [r w'].
  destruct H as (Hr & Ht & _ & _ & _ & Hp & _).
  split; [exact Hr|]. split.
  - unfold status_of, row. rewrite Ht. reflexivity.
  - rewrite Hp; [reflexivity|reflexivity|reflexivity].
Defined.

(** X26 on an example: the metadata store rejects the put: the raw object that was uploaded is
    removed again. *)
Lemma Upload_cleans_up_witness :
  let '(r, w') := UploadService.Upload senv_put_rejected (example_upload_service env_ok)
                    "m2" "j1" example_request w_m1 in
  fst r = None /\ snd r <> None /\ table w' = table w_m1 /\
  ~ In ("raw-media", "raw/m2.mp4") (objects w').
Proof.
  pose proof (Upload_cleans_up senv_put_rejected (example_upload_service env_ok)
                "m2" "j1" example_request w_m1 eq_refl (or_introl eq_refl)) as H.
  destruct (UploadService.Upload senv_put_rejected (example_upload_service env_ok)
              "m2" "j1" example_request w_m1) as [r w'].
  destruct H as (H1 & H2 & H3 & _ & H4 & _).
  split; [exact H1|]. split; [exact H2|]. split; [exact H3|].
  apply H4. reflexivity.
Defined.

(** X27 on an example. *)
Lemma worker_leaves_nothing_tracked_witness :
  processing (snd (processLoop env_ok (example_service env_ok) (RedisQueue env_ok)
                               2 w_pending1)) = [].
Proof.
  apply (worker_leaves_nothing_tracked env_ok (example_service env_ok) 2 w_pending1).
  - exact env_ok_reliable.
  - exact env_ok_sane_clock.
  - unfold pending_marshalable. cbn. constructor; [reflexivity|constructor].
  - reflexivity.
Defined.

(** X28 on an example: the job of m1 is pending and there is no item m1. *)
Lemma job_without_item_is_dead_lettered_witness :
  let '(events, returned, w') :=
    processLoop env_ok (example_service env_ok) (RedisQueue env_ok) 3 w_pending1 in
  List.length events = 9%nat /\ returned = false /\
  pending w' = [] /\ processing w' = [] /\
  map member_attempts (dead w') = [Some 2] /\
  table w' = [] /\ objects w' = [].
Proof.
  pose proof (job_without_item_is_dead_lettered env_ok (example_service env_ok)
                (dequeued_job 0) (epoch0 - 1000) w_pending1
                env_ok_reliable env_ok_sane_clock (fun n => eq_refl)
                eq_refl eq_refl eq_refl eq_refl eq_refl) as H.
  destruct (processLoop env_ok (example_service env_ok) (RedisQueue env_ok) 3 w_pending1)
    as [[events returned] w'].
  destruct H as (t1 & t2 & He & Hr & Hp & Hpr & Hd & Ht & Ho).
  rewrite He, Hd. repeat split; assumption.
Defined.

